(** * RouteRemotes: the host registry (ServerNetwork) and the peer registry
      (ClientNetwork), embedded as state-passing programs.

    Conventions of the embedding.
    - [number] is modelled by the rationals [Q]; timestamps are the values the
      program reads from [os.clock()] and are supplied by the caller.
    - A thrown value is the [Throw] outcome of the error monad; state changes
      made before the throw stay (nothing is rolled back, as in the source).
    - Objects that are shared by reference and mutated keep their mutable
      field in a store: a [Middleware] carries an identity and its [log]
      lives in [mw_logs]; a [Route] is identified by the remote instance it
      created and its [connection] field lives in [connections].
    - User callbacks act on a user world [W], kept apart from the registry.
    - The peer's polling loop is unrolled a bounded number of times; what
      each [wait(0.1)] sees (time passing, a message arriving) is given by
      the surroundings of the call. *)

From Stdlib Require Import QArith Lqa Ascii String.
From stdpp Require Import gmap strings list.

Open Scope Q_scope.

(** ** Numbers, strings *)

Definition Qlt_bool (x y : Q) : bool := negb (Qle_bool y x).

(** [string.lower] on one character. *)
Definition lower_ascii (c : ascii) : ascii :=
  let n := nat_of_ascii c in
  if ((65 <=? n)%nat && (n <=? 90)%nat)%bool then ascii_of_nat (n + 32) else c.

(** [s.lower()] *)
Fixpoint lower (s : string) : string :=
  match s with
  | EmptyString => EmptyString
  | String c rest => String (lower_ascii c) (lower rest)
  end.

(** [s.split(sep)] for a one-character separator: always at least one part. *)
Fixpoint split (sep : ascii) (s : string) : list string :=
  match s with
  | EmptyString => [EmptyString]
  | String c rest =>
      if Ascii.eqb c sep then EmptyString :: split sep rest
      else match split sep rest with
           | [] => [String c EmptyString]
           | part :: parts => String c part :: parts
           end
  end.

Definition slash : ascii := "/"%char.

(** A name that [traversePath] reads back as written: a single part that
    [lower] leaves as it is. *)
Definition plain (s : string) : bool :=
  (String.eqb (lower s) s && bool_decide (split slash s = [s]))%bool.

(** The full path of the node at place [loc] under the node of full path
    [base]. *)
Definition join_path (base : string) (loc : list string) : string :=
  foldl (fun acc part => (acc ++ "/" ++ part)%string) base loc.

(** ** Types shared by both sides *)

Inductive _remoteType := RFunction | REvent.
Inductive _eventType := Connect | ConnectParallel | Once.

Global Instance _remoteType_eq_dec : EqDecision _remoteType.
Proof. solve_decision. Defined.

(** A remote instance is known by its handle. *)
Definition RemoteId := nat.

Record SimpleRouteInfo := {
  sri_remote : RemoteId;
  sri_secure : bool;
  sri_remoteType : _remoteType;
  sri_cooldown : option Q
}.

(** Values that travel as [unknown]. *)
Inductive Value :=
| VUndefined
| VBool (b : bool)
| VNum (q : Q)
| VStr (s : string)
| VTable (t : gmap string SimpleRouteInfo).

Definition is_undefined (v : Value) : bool :=
  match v with VUndefined => true | _ => false end.

Record Player := { UserId : Z; Name : string }.

(** What a call of user code does: it returns or it raises. *)
Inductive Completion :=
| Returns (v : Value)
| Raises (err : Value).

(** Output of [warn]. *)
Inductive Output := Warn (msg : string) (detail : option Value).

(** Outcome of an operation of a registry. *)
Inductive Res (A : Type) :=
| Ok (a : A)
| Throw (err : Value).
Arguments Ok {A} a.
Arguments Throw {A} err.

(** Keys of a table: [key in t] looks the key up among the keys of [t]. An
    array holds its elements under the numeric keys 1..n. *)
Inductive Key := KNum (n : nat) | KStr (s : string).

Definition key_eqb (a b : Key) : bool :=
  match a, b with
  | KNum n, KNum m => Nat.eqb n m
  | KStr s, KStr t => String.eqb s t
  | _, _ => false
  end.

Definition array_keys {A} (arr : list A) : list Key :=
  map KNum (seq 1 (length arr)).

Definition key_in_array {A} (k : Key) (arr : list A) : bool :=
  existsb (key_eqb k) (array_keys arr).

(** ** ServerNetwork *)

Module ServerNetwork.

Inductive ClassName := Folder | RemoteEvent | UnreliableRemoteEvent.

Inductive Parent := PNil | PReplicatedStorage | PInstance (i : nat).

Global Instance Parent_eq_dec : EqDecision Parent.
Proof. solve_decision. Defined.

Record RbxInstance := {
  inst_class : ClassName;
  inst_name : string;
  inst_parent : Parent
}.

Record RouteLog := { lastUse : Q }.

(** [players.includes(player)] compares players. *)
Global Instance Player_eq_dec : EqDecision Player.
Proof. solve_decision. Defined.

Section Host.
Context {W : Type}.

Definition Callback : Type := Player -> list Value -> W -> Completion * W.

(** class Middleware: [log] is kept in the store under [mw_id]. *)
Record Middleware := {
  mw_id : nat;
  clientSideCooldown : Q;
  middlewares : list Callback
}.

(** class Route: [connection] is kept in the store under [remote]. *)
Record Route := {
  path : string;
  name : string;
  secure : bool;
  remoteType : _remoteType;
  middleware : option Middleware;
  remote : RemoteId
}.

(** class TreeNode; [children] is a dictionary in insertion order. *)
Local Unset Elimination Schemes.
Inductive TreeNode := mkTreeNode {
  value : Route;
  children : list (string * TreeNode)
}.
Local Set Elimination Schemes.

Fixpoint dict_get {A} (k : string) (d : list (string * A)) : option A :=
  match d with
  | [] => None
  | (k', v) :: rest => if String.eqb k k' then Some v else dict_get k rest
  end.

Fixpoint dict_set {A} (k : string) (v : A) (d : list (string * A)) : list (string * A) :=
  match d with
  | [] => [(k, v)]
  | (k', v') :: rest =>
      if String.eqb k k' then (k, v) :: rest else (k', v') :: dict_set k v rest
  end.

Definition addChild (this child : TreeNode) : TreeNode :=
  mkTreeNode (value this) (dict_set (name (value child)) child (children this)).

Definition getChild (this : TreeNode) (nm : string) : option TreeNode :=
  dict_get nm (children this).

(** The callback given to [OnEvent] / [OnInvoke]. The one [start] installs
    on the get-tree route reads the registry, so it is a case of its own. *)
Inductive Handler :=
| UserHandler (callback : Callback)
| GetTreeHandler.

Inductive ListenerKind := EventListener | InvokeListener.

(** An RBXScriptConnection made by [OnEvent] / [OnInvoke]: the closure holds
    the route and the callback. *)
Record Connection := {
  conn_connected : bool;
  conn_eventType : _eventType;
  conn_kind : ListenerKind;
  conn_route : Route;
  conn_callback : Handler
}.

(** class Network (the singleton instance). *)
Record Network := {
  tree : TreeNode;
  record : gmap string Route;
  unEditableRoutes : list string
}.

Record State := {
  world : W;
  instances : list RbxInstance;
  next_mw : nat;
  mw_logs : gmap nat (gmap Z RouteLog);
  connections : gmap RemoteId Connection;
  instance : option Network;
  playerRemoving_connected : bool;
  output : list Output;
  fired : list (RemoteId * Player * list Value)
}.

(** Field updates of the state. *)
Definition with_world (w : W) (st : State) : State :=
  {| world := w; instances := instances st; next_mw := next_mw st;
     mw_logs := mw_logs st; connections := connections st;
     instance := instance st;
     playerRemoving_connected := playerRemoving_connected st;
     output := output st; fired := fired st |}.
Definition with_instances (i : list RbxInstance) (st : State) : State :=
  {| world := world st; instances := i; next_mw := next_mw st;
     mw_logs := mw_logs st; connections := connections st;
     instance := instance st;
     playerRemoving_connected := playerRemoving_connected st;
     output := output st; fired := fired st |}.
Definition with_next_mw (n : nat) (st : State) : State :=
  {| world := world st; instances := instances st; next_mw := n;
     mw_logs := mw_logs st; connections := connections st;
     instance := instance st;
     playerRemoving_connected := playerRemoving_connected st;
     output := output st; fired := fired st |}.
Definition with_mw_logs (l : gmap nat (gmap Z RouteLog)) (st : State) : State :=
  {| world := world st; instances := instances st; next_mw := next_mw st;
     mw_logs := l; connections := connections st;
     instance := instance st;
     playerRemoving_connected := playerRemoving_connected st;
     output := output st; fired := fired st |}.
Definition with_connections (c : gmap RemoteId Connection) (st : State) : State :=
  {| world := world st; instances := instances st; next_mw := next_mw st;
     mw_logs := mw_logs st; connections := c;
     instance := instance st;
     playerRemoving_connected := playerRemoving_connected st;
     output := output st; fired := fired st |}.
Definition with_instance (i : option Network) (st : State) : State :=
  {| world := world st; instances := instances st; next_mw := next_mw st;
     mw_logs := mw_logs st; connections := connections st;
     instance := i;
     playerRemoving_connected := playerRemoving_connected st;
     output := output st; fired := fired st |}.
Definition with_playerRemoving (b : bool) (st : State) : State :=
  {| world := world st; instances := instances st; next_mw := next_mw st;
     mw_logs := mw_logs st; connections := connections st;
     instance := instance st;
     playerRemoving_connected := b;
     output := output st; fired := fired st |}.
Definition with_output (o : list Output) (st : State) : State :=
  {| world := world st; instances := instances st; next_mw := next_mw st;
     mw_logs := mw_logs st; connections := connections st;
     instance := instance st;
     playerRemoving_connected := playerRemoving_connected st;
     output := o; fired := fired st |}.
Definition with_fired (f : list (RemoteId * Player * list Value)) (st : State) : State :=
  {| world := world st; instances := instances st; next_mw := next_mw st;
     mw_logs := mw_logs st; connections := connections st;
     instance := instance st;
     playerRemoving_connected := playerRemoving_connected st;
     output := output st; fired := f |}.

(** The monad of registry operations: state, and a thrown value. *)
Definition M (A : Type) : Type := State -> Res A * State.

Definition ret {A} (a : A) : M A := fun st => (Ok a, st).
Definition throw {A} (msg : string) : M A := fun st => (Throw (VStr msg), st).
Definition bind {A B} (c : M A) (k : A -> M B) : M B :=
  fun st => match c st with
            | (Ok a, st') => k a st'
            | (Throw err, st') => (Throw err, st')
            end.
Definition get : M State := fun st => (Ok st, st).
Definition modify (f : State -> State) : M unit := fun st => (Ok tt, f st).

Local Notation "x <- c ;; k" := (bind c (fun x => k))
  (at level 100, c at next level, right associativity).
Local Notation "c ;;; k" := (bind c (fun _ => k))
  (at level 100, right associativity).

Definition warn (msg : string) (detail : option Value) : M unit :=
  modify (fun st => with_output (output st ++ [Warn msg detail]) st).

(** *** Middleware *)

(** [new Middleware(clientSideCooldown, callBacks)], with an empty log. *)
Definition new_Middleware (cooldown : Q) (callBacks : list Callback) : M Middleware :=
  fun st =>
    (Ok {| mw_id := next_mw st; clientSideCooldown := cooldown;
           middlewares := callBacks |},
     with_mw_logs (<[next_mw st := ∅]> (mw_logs st))
       (with_next_mw (S (next_mw st)) st)).

(** [this.log] *)
Definition log_of (st : State) (this : Middleware) : gmap Z RouteLog :=
  default ∅ (mw_logs st !! mw_id this).

(** [this.log[playerId] = { lastUse: currentTime }] *)
Definition write_log (this : Middleware) (playerId : Z) (currentTime : Q) : M unit :=
  modify (fun st =>
    with_mw_logs
      (<[mw_id this := <[playerId := {| lastUse := currentTime |}]> (log_of st this)]>
         (mw_logs st)) st).

(** The [for] loop over [this.middlewares]: stops at the first callback that
    raises and hands back what it raised. *)
Fixpoint run_middlewares (cbs : list Callback) (player : Player)
    (args : list Value) (w : W) : option Value * W :=
  match cbs with
  | [] => (None, w)
  | mw :: rest =>
      match mw player args w with
      | (Returns _, w') => run_middlewares rest player args w'
      | (Raises err, w') => (Some err, w')
      end
  end.

(** The [try { ... } catch (err) { warn(...); return false }] block. *)
Definition try_middlewares (this : Middleware) (player : Player)
    (args : list Value) : M bool :=
  st <- get ;;
  match run_middlewares (middlewares this) player args (world st) with
  | (None, w') => modify (with_world w') ;;; ret true
  | (Some err, w') =>
      modify (with_world w') ;;;
      warn "Middleware: Error in middleware" (Some err) ;;;
      ret false
  end.

(** [Middleware.execute] *)
Definition execute (this : Middleware) (player : Player) (currentTime : Q)
    (args : list Value) : M bool :=
  let playerId := UserId player in
  st <- get ;;
  onCooldown <-
    match log_of st this !! playerId with
    | None =>
        (* First time use *)
        write_log this playerId currentTime ;;; ret false
    | Some entry =>
        (* Check player cooldown *)
        ret (Qlt_bool (currentTime - lastUse entry) (clientSideCooldown this))
    end ;;
  if (onCooldown : bool) then ret false
  else
    (* Update log *)
    write_log this playerId currentTime ;;;
    try_middlewares this player args.

(** *** Route *)

Definition new_Instance (cls : ClassName) (nm : string) (parent : Parent) : M nat :=
  fun st =>
    (Ok (length (instances st)),
     with_instances
       (instances st ++ [{| inst_class := cls; inst_name := nm; inst_parent := parent |}])
       st).

(** [parent.FindFirstChild(nm)]: index of the first child of that name. *)
Fixpoint find_child (parent : Parent) (nm : string) (i : nat)
    (insts : list RbxInstance) : option nat :=
  match insts with
  | [] => None
  | x :: rest =>
      if (bool_decide (inst_parent x = parent) && String.eqb (inst_name x) nm)%bool
      then Some i
      else find_child parent nm (S i) rest
  end.

Definition FindFirstChild (parent : Parent) (nm : string) : M Parent :=
  st <- get ;;
  ret (match find_child parent nm 0 (instances st) with
       | Some i => PInstance i
       | None => PNil
       end).

(** The constructor of [Route]: makes the remote instance of the route, in
    the folder NetworkRemotes (in a folder of its own for get-tree). *)
Definition new_Route (path name : string) (secure : bool)
    (remoteType : _remoteType) (middleware : option Middleware) : M Route :=
  folder <- FindFirstChild PReplicatedStorage "NetworkRemotes" ;;
  folder <-
    (if (String.eqb path "root/network" && String.eqb name "get-tree")%bool
     then (f <- new_Instance Folder "get-tree" folder ;; ret (PInstance f))
     else ret folder) ;;
  remote <- new_Instance (if secure then RemoteEvent else UnreliableRemoteEvent)
              name folder ;;
  ret {| path := path; name := name; secure := secure;
         remoteType := remoteType; middleware := middleware; remote := remote |}.

(** *** Custom functions *)

Definition route_info (route : Route) : SimpleRouteInfo :=
  {| sri_remote := remote route;
     sri_secure := secure route;
     sri_remoteType := remoteType route;
     sri_cooldown := clientSideCooldown <$> middleware route |}.

Definition full_path (path : string) (route : Route) : string :=
  if String.eqb path EmptyString then name route
  else (path ++ "/" ++ name route)%string.

(** [depthFirstSearch(node, path, simplifiedTree)]: the table after the call. *)
Fixpoint depthFirstSearch (node : TreeNode) (path : string)
    (simplifiedTree : gmap string SimpleRouteInfo) : gmap string SimpleRouteInfo :=
  match node with
  | mkTreeNode route childs =>
      let fullPath := full_path path route in
      let simplifiedTree := <[fullPath := route_info route]> simplifiedTree in
      (fix each (cs : list (string * TreeNode)) (acc : gmap string SimpleRouteInfo) :=
         match cs with
         | [] => acc
         | (_, childNode) :: rest => each rest (depthFirstSearch childNode fullPath acc)
         end) childs simplifiedTree
  end.

(** [delete value.middleware.log[player.UserId]] for one route of the record *)
Definition clear_log (player : Player) (value : Route)
    (logs : gmap nat (gmap Z RouteLog)) : gmap nat (gmap Z RouteLog) :=
  match middleware value with
  | Some mw => <[mw_id mw := delete (UserId player) (default ∅ (logs !! mw_id mw))]> logs
  | None => logs
  end.

(** The handler [clearRouteLogs] connects to [Players.PlayerRemoving]. *)
Definition clear_logs_of_record (player : Player) (record : gmap string Route)
    (logs : gmap nat (gmap Z RouteLog)) : gmap nat (gmap Z RouteLog) :=
  foldr (fun kv acc => clear_log player kv.2 acc) logs (map_to_list record).

(** [clearRouteLogs(record)]: connects the handler. The record passed is the
    record of the singleton, which is never replaced. *)
Definition clearRouteLogs : M unit := modify (with_playerRemoving true).

(** [Players.PlayerRemoving] fires for [player]. *)
Definition PlayerRemoving_fire (player : Player) : M unit :=
  st <- get ;;
  match playerRemoving_connected st, instance st with
  | true, Some inst =>
      modify (with_mw_logs (clear_logs_of_record player (record inst) (mw_logs st)))
  | _, _ => ret tt
  end.

(** *** Root route parameters *)

Definition ROOT_ROUTE_NAME : string := "root".
Definition ROOT_ROUTE_CD : Q := 10.
Definition ROOT_ROUTE_SECURE : bool := true.
(** [new Middleware(ROOT_ROUTE_CD)], made when the module loads: identity 0. *)
Definition ROOT_ROUTE_MIDDLEWARE : option Middleware :=
  Some {| mw_id := 0; clientSideCooldown := ROOT_ROUTE_CD; middlewares := [] |}.

(** The state once the module is loaded. *)
Definition initial_state (w : W) : State :=
  {| world := w; instances := []; next_mw := 1; mw_logs := {[ 0%nat := ∅ ]};
     connections := ∅; instance := None; playerRemoving_connected := false;
     output := []; fired := [] |}.

(** *** The singleton *)

Record RouteParam := {
  endPoint : string;
  rp_secure : bool;
  rp_remoteType : _remoteType;
  rp_middleware : option Middleware
}.

Definition with_tree (t : TreeNode) (inst : Network) : Network :=
  {| tree := t; record := record inst; unEditableRoutes := unEditableRoutes inst |}.
Definition with_record (r : gmap string Route) (inst : Network) : Network :=
  {| tree := tree inst; record := r; unEditableRoutes := unEditableRoutes inst |}.

Definition modify_instance (f : Network -> Network) : M unit :=
  modify (fun st => with_instance (f <$> instance st) st).

Definition not_initialized : string :=
  "ServerNetwork not initialized, please do 'Network.start()'".

(** A [TreeNode] handed out by [traversePath] is named by its place, the
    child names from the root down; writes to it go through [update_at]. *)
Fixpoint update_at (loc : list string) (f : TreeNode -> TreeNode)
    (node : TreeNode) : TreeNode :=
  match loc with
  | [] => f node
  | part :: rest =>
      match getChild node part with
      | Some child =>
          mkTreeNode (value node) (dict_set part (update_at rest f child) (children node))
      | None => node
      end
  end.

(** The loop of [traversePath] from [currentNode] on: gives [currentNode]
    with the nodes it had to create, and the node at the end of the path. *)
Fixpoint walk (createMissing : bool) (path : string) (currentPath : string)
    (parts : list string) (currentNode : TreeNode) : M (TreeNode * TreeNode) :=
  match parts with
  | [] => ret (currentNode, currentNode)
  | part :: rest =>
      let currentPath := (currentPath ++ "/" ++ part)%string in
      match getChild currentNode part with
      | Some nextNode =>
          r <- walk createMissing path currentPath rest nextNode ;;
          ret (mkTreeNode (value currentNode)
                 (dict_set part r.1 (children currentNode)), r.2)
      | None =>
          if negb createMissing
          then throw ("Route '" ++ part ++ "' does not exist in '" ++ path ++ "'")
          else
            mw <- new_Middleware 1 [] ;;
            route <- new_Route currentPath part true REvent (Some mw) ;;
            r <- walk createMissing path currentPath rest (mkTreeNode route []) ;;
            ret (addChild currentNode r.1, r.2)
      end
  end.

Section Methods.
(** [start] is reached again from the methods below through
    [this.instance ?? this.start()]; it is a parameter here and the knot is
    tied at [start]. *)
Variable start_ : M unit.

(** [this.instance ?? this.start()]: [start] returns nothing, so without an
    instance the next field access fails after [start] has run. *)
Definition instance_or_start : M Network :=
  st <- get ;;
  match instance st with
  | Some inst => ret inst
  | None => start_ ;;; throw "attempt to index nil"
  end.

(** [traversePath(path, createMissing)]: the place of the node and the node. *)
Definition traversePath_ (path : string) (createMissing : bool)
    : M (list string * TreeNode) :=
  inst <- instance_or_start ;;
  let currentNode := tree inst in
  let path := lower path in
  let pathParts := split slash path in
  if ((length pathParts <? 1)%nat
      || negb (bool_decide (head pathParts = Some ROOT_ROUTE_NAME)))%bool
  then throw ("Path must start with '" ++ ROOT_ROUTE_NAME ++ "' and have more than 1 part")
  else if ((length pathParts =? 1)%nat
           && bool_decide (head pathParts = Some "root"%string))%bool
  then ret ([], currentNode)
  else
    let pathParts := tail pathParts in
    r <- walk createMissing path "root" pathParts currentNode ;;
    modify_instance (with_tree r.1) ;;;
    ret (pathParts, r.2).

(** [getRoute(path)] *)
Definition getRoute_ (path : string) : M Route :=
  inst <- instance_or_start ;;
  if String.eqb path ROOT_ROUTE_NAME then ret (value (tree inst))
  else
    match record inst !! path with
    | Some route => ret route
    | None =>
        node <- traversePath_ path false ;;
        modify_instance (fun i => with_record (<[path := value node.2]> (record i)) i) ;;;
        ret (value node.2)
    end.

(** [NewRoute(path, routeParam)] *)
Definition NewRoute_ (path : string) (routeParam : RouteParam) : M unit :=
  parent <- traversePath_ path true ;;
  match getChild parent.2 (endPoint routeParam) with
  | Some _ =>
      throw ("Route '" ++ endPoint routeParam ++ "' already exists at '" ++ path ++ "'")
  | None =>
      route <- new_Route path (endPoint routeParam) (rp_secure routeParam)
                 (rp_remoteType routeParam) (rp_middleware routeParam) ;;
      modify_instance (fun i =>
        with_tree (update_at parent.1
                     (fun p => addChild p (mkTreeNode route [])) (tree i)) i)
  end.

(** [EditRoute(path, routeParam)] *)
Definition EditRoute_ (path : string) (routeParam : RouteParam) : M unit :=
  st <- get ;;
  match instance st with
  | None => throw not_initialized
  | Some inst =>
      if key_in_array (KStr (lower path)) (unEditableRoutes inst)
      then warn ("You can't edit : '" ++ path ++ "' ") None
      else
        parent <- traversePath_ path false ;;
        match getChild parent.2 (endPoint routeParam) with
        | None =>
            warn ("Route '" ++ endPoint routeParam ++ "' does not exist at '" ++ path ++ "'")
              None
        | Some old =>
            let childs := children old in
            route <- new_Route path (endPoint routeParam) (rp_secure routeParam)
                       (rp_remoteType routeParam) (rp_middleware routeParam) ;;
            modify_instance (fun i =>
              with_tree
                (update_at parent.1
                   (fun p => mkTreeNode (value p)
                               (dict_set (endPoint routeParam)
                                  (mkTreeNode route childs) (children p)))
                   (tree i)) i)
        end
  end.

(** [route.connection = route.remote.OnServerEvent[eventType](listener)] *)
Definition connect (eventType : _eventType) (kind : ListenerKind)
    (route : Route) (callback : Handler) : M unit :=
  modify (fun st =>
    with_connections
      (<[remote route := {| conn_connected := true; conn_eventType := eventType;
                            conn_kind := kind; conn_route := route;
                            conn_callback := callback |}]> (connections st)) st).

(** [OnEvent(eventType, path, callback)] *)
Definition OnEvent_ (eventType : _eventType) (path : string)
    (callback : Callback) : M unit :=
  st <- get ;;
  match instance st with
  | None => throw not_initialized
  | Some _ =>
      start_ ;;;
      route <- getRoute_ path ;;
      if negb (bool_decide (remoteType route = REvent))
      then throw ("Route '" ++ path ++ "' is not a event")
      else
        st <- get ;;
        match connections st !! remote route with
        | Some _ => throw ("Route '" ++ path ++ "' is already connected")
        | None => connect eventType EventListener route (UserHandler callback)
        end
  end.

(** [OnInvoke(eventType, path, callback)] *)
Definition OnInvoke_ (eventType : _eventType) (path : string)
    (callback : Handler) : M unit :=
  st <- get ;;
  match instance st with
  | None => throw not_initialized
  | Some _ =>
      route <- getRoute_ path ;;
      if negb (bool_decide (remoteType route = RFunction))
      then throw ("Route '" ++ path ++ "' is not a function")
      else
        st <- get ;;
        match connections st !! remote route with
        | Some _ => throw ("Route '" ++ path ++ "' is already connected")
        | None => connect eventType InvokeListener route callback
        end
  end.

(** [Disconnect(path)] *)
Definition Disconnect_ (path : string) : M unit :=
  start_ ;;;
  route <- getRoute_ path ;;
  modify (fun st => with_connections (delete (remote route) (connections st)) st).

End Methods.

(** [start()], given the [start] its own calls would reach. *)
Definition start_with (inner : M unit) : M unit :=
  st <- get ;;
  match instance st with
  | Some _ => ret tt
  | None =>
      (* Remotes Folder *)
      new_Instance Folder "NetworkRemotes" PReplicatedStorage ;;;
      (* Root Route & Network Routes *)
      rootRoute <- new_Route "root" ROOT_ROUTE_NAME ROOT_ROUTE_SECURE REvent
                     ROOT_ROUTE_MIDDLEWARE ;;
      mw <- new_Middleware 5 [] ;;
      networkRoute <- new_Route "root/" "network" true REvent (Some mw) ;;
      mw <- new_Middleware 5 [] ;;
      getTreeRoute <- new_Route "root/network" "get-tree" true RFunction (Some mw) ;;
      let networkNode := addChild (mkTreeNode networkRoute []) (mkTreeNode getTreeRoute []) in
      let rootNode := addChild (mkTreeNode rootRoute []) networkNode in
      let unEditableRoutes := ["root/network/get-tree"%string] in
      (* Create singleton instance *)
      modify (with_instance
                (Some {| tree := rootNode; record := ∅;
                         unEditableRoutes := unEditableRoutes |})) ;;;
      (* Auto memory cleanup *)
      clearRouteLogs ;;;
      (* Connect the root route to send the tree to the client *)
      OnInvoke_ inner Connect "root/network/get-tree" GetTreeHandler
  end.

(** The inner [start] is never reached (see [start_with_inner]): any will do. *)
Definition start : M unit := start_with (ret tt).

Definition traversePath := traversePath_ start.
Definition getRoute := getRoute_ start.
Definition NewRoute := NewRoute_ start.
Definition EditRoute := EditRoute_ start.
Definition OnEvent := OnEvent_ start.
Definition OnInvoke (eventType : _eventType) (path : string) (callback : Callback) :=
  OnInvoke_ start eventType path (UserHandler callback).
Definition Disconnect := Disconnect_ start.

(** *** Listeners *)

(** Calling the callback of a listener; what it raises is thrown. *)
Definition call_handler (h : Handler) (player : Player) (args : list Value) : M Value :=
  fun st =>
    match h with
    | UserHandler callback =>
        match callback player args (world st) with
        | (Returns v, w') => (Ok v, with_world w' st)
        | (Raises err, w') => (Throw err, with_world w' st)
        end
    | GetTreeHandler =>
        match instance st with
        | Some inst => (Ok (VTable (depthFirstSearch (tree inst) EmptyString ∅)), st)
        | None => (Throw (VStr "attempt to index nil"), st)
        end
    end.

(** [route.remote.FireClient(player, result)], for either class of remote. *)
Definition FireClient_remote (r : RemoteId) (player : Player) (args : list Value) : M unit :=
  st <- get ;;
  match inst_class <$> instances st !! r with
  | Some RemoteEvent | Some UnreliableRemoteEvent =>
      modify (with_fired (fired st ++ [(r, player, args)]))
  | _ => ret tt
  end.

(** The function [OnEvent] / [OnInvoke] connects; [now] is [os.clock()]. *)
Definition listener (c : Connection) (player : Player) (args : list Value)
    (now : Q) : M unit :=
  let route := conn_route c in
  let currentTime := now in
  passed <-
    match middleware route with
    | Some mw => execute mw player currentTime args
    | None => ret true
    end ;;
  if negb passed then ret tt
  else
    result <- call_handler (conn_callback c) player args ;;
    match conn_kind c with
    | EventListener => ret tt
    | InvokeListener => FireClient_remote (remote route) player [result]
    end.

(** A message of [player] reaches the remote [r] at time [now]: the
    listener connected there runs, a listener of kind Once being used up by
    it. What becomes of a message that finds no listener to run (none is
    connected, or the one connected is used up) is for the host, not for
    this module, to say: [no_listener] stands for it. *)
Definition OnServerEvent_fire (no_listener : M unit) (r : RemoteId)
    (player : Player) (args : list Value) (now : Q) : M unit :=
  st <- get ;;
  match connections st !! r with
  | Some c =>
      if conn_connected c then
        (match conn_eventType c with
         | Once =>
             modify (with_connections
                       (<[r := {| conn_connected := false;
                                  conn_eventType := conn_eventType c;
                                  conn_kind := conn_kind c;
                                  conn_route := conn_route c;
                                  conn_callback := conn_callback c |}]>
                          (connections st)))
         | _ => ret tt
         end) ;;;
        listener c player args now
      else no_listener
  | None => no_listener
  end.

(** *** Sending to the peers *)

(** [FireClient(path, player, ...args)] *)
Definition FireClient (path : string) (player : Player) (args : list Value) : M unit :=
  start ;;;
  route <- getRoute path ;;
  if negb (bool_decide (remoteType route = REvent))
  then throw ("Route '" ++ path ++ "' is not a event")
  else FireClient_remote (remote route) player args.

(** A [for] loop over an array. *)
Fixpoint for_each {A} (body : A -> M unit) (arr : list A) : M unit :=
  match arr with
  | [] => ret tt
  | x :: rest => body x ;;; for_each body rest
  end.

(** [remote.FireAllClients(...args)]: the message goes to every player of
    the session; [online] is [Players.GetPlayers()]. *)
Definition FireAllClients_remote (online : list Player) (r : RemoteId)
    (args : list Value) : M unit :=
  st <- get ;;
  match inst_class <$> instances st !! r with
  | Some RemoteEvent | Some UnreliableRemoteEvent =>
      modify (with_fired (fired st ++ map (fun player => (r, player, args)) online))
  | _ => ret tt
  end.

(** [FireAllClients(path, ...args)] *)
Definition FireAllClients (online : list Player) (path : string)
    (args : list Value) : M unit :=
  start ;;;
  route <- getRoute path ;;
  if negb (bool_decide (remoteType route = REvent))
  then throw ("Route '" ++ path ++ "' is not a event")
  else FireAllClients_remote online (remote route) args.

(** The body of the loop of [FireClientsInList]: two tests of the class of
    the remote, one after the other. *)
Definition fire_if_online (online : list Player) (r : RemoteId)
    (args : list Value) (player : Player) : M unit :=
  if bool_decide (player ∈ online) then
    st <- get ;;
    (match inst_class <$> instances st !! r with
     | Some RemoteEvent => modify (with_fired (fired st ++ [(r, player, args)]))
     | _ => ret tt
     end) ;;;
    st <- get ;;
    match inst_class <$> instances st !! r with
    | Some UnreliableRemoteEvent => modify (with_fired (fired st ++ [(r, player, args)]))
    | _ => ret tt
    end
  else ret tt.

(** [FireClientsInList(path, players, ...args)]; [online] is
    [Players.GetPlayers()]. *)
Definition FireClientsInList (online : list Player) (path : string)
    (players : list Player) (args : list Value) : M unit :=
  start ;;;
  route <- getRoute path ;;
  if negb (bool_decide (remoteType route = REvent))
  then throw ("Route '" ++ path ++ "' is not a event")
  else for_each (fire_if_online online (remote route) args) players.

(** *** Notions used to state the properties *)

(** The state once [this.log[playerId]] holds [currentTime]. *)
Definition recorded (this : Middleware) (playerId : Z) (currentTime : Q)
    (st : State) : State :=
  with_mw_logs
    (<[mw_id this := <[playerId := {| lastUse := currentTime |}]> (log_of st this)]>
       (mw_logs st)) st.

(** What the callbacks do to the world, and whether one of them raised. *)
Definition callbacks_outcome (this : Middleware) (player : Player)
    (args : list Value) (st : State) : option Value * W :=
  run_middlewares (middlewares this) player args (world st).

(** The node at a place: the child names followed from [node] down. *)
Fixpoint node_at (loc : list string) (node : TreeNode) : option TreeNode :=
  match loc with
  | [] => Some node
  | part :: rest =>
      match getChild node part with
      | Some child => node_at rest child
      | None => None
      end
  end.

(** The number of routes of a tree: one per node. *)
Fixpoint count_routes (node : TreeNode) : nat :=
  match node with
  | mkTreeNode _ childs =>
      S ((fix sum (cs : list (string * TreeNode)) : nat :=
            match cs with
            | [] => 0%nat
            | (_, child) :: rest => (count_routes child + sum rest)%nat
            end) childs)
  end.

(** A tree as the registry keeps it (every child stored once, under the
    name of its route), whose names below the root are [plain]. *)
Fixpoint well_named (node : TreeNode) : bool :=
  match node with
  | mkTreeNode _ childs =>
      (bool_decide (NoDup childs.*1)
       && (fix all (cs : list (string * TreeNode)) : bool :=
             match cs with
             | [] => true
             | (k, child) :: rest =>
                 String.eqb k (name (value child)) && plain k
                 && well_named child && all rest
             end) childs)%bool
  end.

(** The nodes of a tree with their places, in the order of the search. *)
Fixpoint nodes (node : TreeNode) : list (list string * TreeNode) :=
  match node with
  | mkTreeNode route childs =>
      ([], mkTreeNode route childs)
      :: (fix each (cs : list (string * TreeNode)) :=
            match cs with
            | [] => []
            | (k, child) :: rest =>
                map (fun ln => (k :: ln.1, ln.2)) (nodes child) ++ each rest
            end) childs
  end.

(** The assignments [depthFirstSearch] makes, in order. *)
Fixpoint dfs_entries (node : TreeNode) (path : string)
    : list (string * SimpleRouteInfo) :=
  match node with
  | mkTreeNode route childs =>
      let fullPath := full_path path route in
      (fullPath, route_info route)
      :: (fix each (cs : list (string * TreeNode)) :=
            match cs with
            | [] => []
            | (_, child) :: rest => dfs_entries child fullPath ++ each rest
            end) childs
  end.

Definition assign (acc : gmap string SimpleRouteInfo) (kv : string * SimpleRouteInfo)
    : gmap string SimpleRouteInfo :=
  <[kv.1 := kv.2]> acc.

(** The tree of a registry: the root route is named root and the tree is
    well named. *)
Definition registry_tree (inst : Network) : Prop :=
  name (value (tree inst)) = ROOT_ROUTE_NAME /\ well_named (tree inst) = true.

(** The route [traversePath] finds at a path, if any. *)
Definition route_at (p : string) (st : State) : option Route :=
  match traversePath p false st with
  | (Ok r, _) => Some (value r.2)
  | (Throw _, _) => None
  end.

(** The peer has no entry in the log of the middleware. *)
Definition cleared (player : Player) (logs : gmap nat (gmap Z RouteLog))
    (mw : Middleware) : Prop :=
  default ∅ (logs !! mw_id mw) !! UserId player = None.

(** What the operations on instances and middleware objects leave alone. *)
Definition same_registry (st st' : State) : Prop :=
  instance st' = instance st /\ connections st' = connections st
  /\ world st' = world st /\ output st' = output st /\ fired st' = fired st
  /\ playerRemoving_connected st' = playerRemoving_connected st.

(** [node'] holds, at every place where [node] holds a node, a node with
    the same route. *)
Definition extends (node node' : TreeNode) : Prop :=
  forall loc n, node_at loc node = Some n ->
    exists n', node_at loc node' = Some n' /\ value n' = value n.

(** The route [NewRoute] builds from its parameters. *)
Definition made_route (p : string) (rp : RouteParam) (r : RemoteId) : Route :=
  {| path := p; name := endPoint rp; secure := rp_secure rp;
     remoteType := rp_remoteType rp; middleware := rp_middleware rp; remote := r |}.

(** The route of a node that [traversePath] had to create for the part
    [part] of a path. *)
Definition is_default (route : Route) (part : string) : Prop :=
  name route = part /\ secure route = true /\ remoteType route = REvent
  /\ exists mw, middleware route = Some mw
                /\ clientSideCooldown mw = 1 /\ middlewares mw = [].

(** What [traversePath] throws on a path that does not begin at the root. *)
Definition invalid_path : string :=
  "Path must start with 'root' and have more than 1 part".

(** The connection [OnEvent] / [OnInvoke] makes. *)
Definition made_connection (eventType : _eventType) (kind : ListenerKind)
    (route : Route) (callback : Handler) : Connection :=
  {| conn_connected := true; conn_eventType := eventType; conn_kind := kind;
     conn_route := route; conn_callback := callback |}.

(** The connection once its only message has come. *)
Definition spent (c : Connection) : Connection :=
  {| conn_connected := false; conn_eventType := conn_eventType c;
     conn_kind := conn_kind c; conn_route := conn_route c;
     conn_callback := conn_callback c |}.

(** The state in which the listener of the connection [c] runs when a
    message arrives: a connection of kind Once is used up first. *)
Definition on_arrival (c : Connection) (st : State) : State :=
  match conn_eventType c with
  | Once =>
      with_connections (<[remote (conn_route c) := spent c]> (connections st)) st
  | _ => st
  end.

(** The remote is a RemoteEvent or an UnreliableRemoteEvent. *)
Definition is_remote (st : State) (r : RemoteId) : Prop :=
  inst_class <$> instances st !! r = Some RemoteEvent
  \/ inst_class <$> instances st !! r = Some UnreliableRemoteEvent.

(** The middleware of the route, if any, lets the message through, and
    leaves the state [st1]. *)
Definition middleware_passes (route : Route) (player : Player)
    (args : list Value) (now : Q) (st st1 : State) : Prop :=
  match middleware route with
  | Some mw => execute mw player now args st = (Ok true, st1)
  | None => st1 = st
  end.

End Host.

Arguments Callback : clear implicits.
Arguments Middleware : clear implicits.
Arguments Route : clear implicits.
Arguments TreeNode : clear implicits.
Arguments Handler : clear implicits.
Arguments Connection : clear implicits.
Arguments Network : clear implicits.
Arguments State : clear implicits.
Arguments RouteParam : clear implicits.
Arguments M : clear implicits.

(** *** Concrete registries *)

(** A world that records which callbacks ran. *)
Definition Trace : Type := list nat.

Definition note (n : nat) : Callback Trace :=
  fun _ _ w => (Returns VUndefined, w ++ [n]).

Definition refuse (n : nat) : Callback Trace :=
  fun _ _ w => (Raises (VStr "string!!!"), w ++ [n]).

Definition peer : Player := {| UserId := 42; Name := "peer" |}.

Definition five_seconds : Middleware Trace :=
  {| mw_id := 3; clientSideCooldown := 5; middlewares := [note 1] |}.

Definition strict : Middleware Trace :=
  {| mw_id := 3; clientSideCooldown := 5; middlewares := [note 1; refuse 2; note 3] |}.

Definition fresh : State Trace := initial_state [].

Definition guarded : Route Trace :=
  {| path := "root"; name := "additions"; secure := true; remoteType := REvent;
     middleware := Some strict; remote := 9%nat |}.

Definition guarded_listener : Connection Trace :=
  {| conn_connected := true; conn_eventType := Connect;
     conn_kind := EventListener; conn_route := guarded;
     conn_callback := UserHandler (note 7) |}.

Definition plain_route (nm : string) : RouteParam Trace :=
  {| endPoint := nm; rp_secure := true; rp_remoteType := REvent;
     rp_middleware := None |}.

Definition run {A} (c : M Trace A) (st : State Trace) : State Trace := (c st).2.

(** The registry after [start], [NewRoute("root", a)], [NewRoute("root/a", b)]. *)
Definition with_a_b : State Trace :=
  run (NewRoute "root/a" (plain_route "b"))
    (run (NewRoute "root" (plain_route "a")) (run start fresh)).

(** The registry after [start] and [NewRoute("root", Shop)]. *)
Definition with_Shop : State Trace :=
  run (NewRoute "root" (plain_route "Shop")) (run start fresh).

(** The registry after [start], [NewRoute("root", a/b)], [NewRoute("root/a", b)]. *)
Definition with_slash : State Trace :=
  run (NewRoute "root/a" (plain_route "b"))
    (run (NewRoute "root" (plain_route "a/b")) (run start fresh)).

Definition flatten (st : State Trace) : gmap string SimpleRouteInfo :=
  match instance st with
  | Some inst => depthFirstSearch (tree inst) EmptyString ∅
  | None => ∅
  end.

Definition routes_in (st : State Trace) : nat :=
  match instance st with
  | Some inst => count_routes (tree inst)
  | None => 0
  end.

(** The route stored at a place of the tree, if any. *)
Definition place_at (loc : list string) (st : State Trace) : option (Route Trace) :=
  match instance st with
  | Some inst => value <$> node_at loc (tree inst)
  | None => None
  end.

(** The registry after [start], [NewRoute("root", Shop)] and
    [NewRoute("root/Shop", x)]. *)
Definition with_Shop_x : State Trace :=
  run (NewRoute "root/Shop" (plain_route "x")) with_Shop.

(** The registry after [start]. *)
Definition started : State Trace := run start fresh.

(** A request-response route without middleware. *)
Definition sum_route : RouteParam Trace :=
  {| endPoint := "sum"; rp_secure := true; rp_remoteType := RFunction;
     rp_middleware := None |}.

(** A handler that answers 105. *)
Definition answer : Callback Trace :=
  fun _ _ w => (Returns (VNum 105), w ++ [5%nat]).

Definition other : Player := {| UserId := 43; Name := "other" |}.

(** The registry once [other] has passed the middleware [five_seconds] at 1. *)
Definition used_by_other : State Trace :=
  run (execute five_seconds other 1 []) fresh.

(** The registry once [peer] has been refused by a callback of [strict] at 0. *)
Definition refused_once : State Trace := run (execute strict peer 0 []) fresh.

(** The middleware [start] gives the route get-tree. *)
Definition get_tree_guard : Middleware Trace :=
  {| mw_id := 2; clientSideCooldown := 5; middlewares := [] |}.

(** The started registry once the route get-tree has been used by [peer]
    at 0 and by [other] at 1. *)
Definition used_by_two : State Trace :=
  run (execute get_tree_guard other 1 [])
    (run (execute get_tree_guard peer 0 []) started).

(** The registry after [start], [NewRoute("root", sum)] and
    [NewRoute("root", chat)]. *)
Definition with_sum_chat : State Trace :=
  run (NewRoute "root" (plain_route "chat"))
    (run (NewRoute "root" sum_route) started).

End ServerNetwork.

(** ** ClientNetwork *)

Module ClientNetwork.

Inductive RemoteClass := RemoteEvent | UnreliableRemoteEvent.

Record RouteLog := { lastFireServer : Q }.

(** What happens during one [wait(0.1)]: the time that passes, and the first
    message, if any, that the server sends on the awaited remote meanwhile. *)
Record Wait := { elapsed : Q; arrival : option Value }.

(** The surroundings of the peer: what its n-th [wait] will see. *)
Definition Env : Type := nat -> Wait.

(** Outcome of an operation of the peer registry; [OutOfFuel] is the bounded
    unrolling of the polling loop giving up, not a behaviour of the program. *)
Inductive Outcome (A : Type) :=
| Done (a : A)
| Thrown (err : Value)
| OutOfFuel.
Arguments Done {A} a.
Arguments Thrown {A} err.
Arguments OutOfFuel {A}.

(** Every [wait(0.1)] lasts at least a tenth of a second. *)
Definition paced (env : Env) : Prop := forall i, 1 # 10 <= elapsed (env i).

(** No reply with a value: nothing arrives, or what arrives is undefined. *)
Definition silent (env : Env) : Prop :=
  forall i, arrival (env i) = None \/ arrival (env i) = Some VUndefined.

(** The time [n] waits are sure to fill. *)
Definition budget (n : nat) : Q := inject_Z (Z.of_nat n) * (1 # 10).

(** The time the [k] waits from the [n]-th on take. *)
Fixpoint waited (env : Env) (n k : nat) : Q :=
  match k with
  | O => 0
  | S k' => elapsed (env n) + waited env (S n) k'
  end.

(** From the [n]-th wait on, nothing arrives during [k] waits and [v]
    arrives during the next. *)
Definition replies_at (env : Env) (n k : nat) (v : Value) : Prop :=
  (forall i, (i < k)%nat -> arrival (env (n + i)%nat) = None)
  /\ arrival (env (n + k)%nat) = Some v.

(** The loop is still waiting when each of the first [k + 1] waits begins. *)
Definition still_waiting (env : Env) (n k : nat) (spent waitTime : Q) : Prop :=
  forall i, (i <= k)%nat -> spent + waited env n i < waitTime.

Section Peer.
(** The callbacks given to [OnEvent]; the registry only stores them. *)
Context {Callback : Type}.

Inductive ListenerTarget :=
| ToCallback (callback : Callback)
| ToResult.

(** A connection on [remote.OnClientEvent]. *)
Record ClientListener := {
  cl_remote : RemoteId;
  cl_eventType : _eventType;
  cl_target : ListenerTarget
}.

(** class Network (the singleton instance). *)
Record Network := {
  routingTable : gmap string SimpleRouteInfo;
  log : gmap string RouteLog;
  connections : gmap string nat
}.

(** [new Network(routingTable)] *)
Definition new_Network (routingTable : gmap string SimpleRouteInfo) : Network :=
  {| routingTable := routingTable; log := ∅; connections := ∅ |}.

Record State := {
  instance : option Network;
  clock : Q;
  ticks : nat;
  remote_class : gmap RemoteId RemoteClass;
  listeners : gmap nat ClientListener;
  next_conn : nat;
  sent : list (RemoteId * list Value)
}.

Definition with_instance (i : option Network) (st : State) : State :=
  {| instance := i; clock := clock st; ticks := ticks st;
     remote_class := remote_class st; listeners := listeners st;
     next_conn := next_conn st; sent := sent st |}.
Definition with_time (c : Q) (n : nat) (st : State) : State :=
  {| instance := instance st; clock := c; ticks := n;
     remote_class := remote_class st; listeners := listeners st;
     next_conn := next_conn st; sent := sent st |}.
Definition with_listeners (l : gmap nat ClientListener) (st : State) : State :=
  {| instance := instance st; clock := clock st; ticks := ticks st;
     remote_class := remote_class st; listeners := l;
     next_conn := next_conn st; sent := sent st |}.
Definition with_next_conn (n : nat) (st : State) : State :=
  {| instance := instance st; clock := clock st; ticks := ticks st;
     remote_class := remote_class st; listeners := listeners st;
     next_conn := n; sent := sent st |}.
Definition with_sent (s : list (RemoteId * list Value)) (st : State) : State :=
  {| instance := instance st; clock := clock st; ticks := ticks st;
     remote_class := remote_class st; listeners := listeners st;
     next_conn := next_conn st; sent := s |}.

Definition with_log (l : gmap string RouteLog) (inst : Network) : Network :=
  {| routingTable := routingTable inst; log := l; connections := connections inst |}.
Definition with_connections (c : gmap string nat) (inst : Network) : Network :=
  {| routingTable := routingTable inst; log := log inst; connections := c |}.

Definition M (A : Type) : Type := State -> Outcome A * State.

Definition ret {A} (a : A) : M A := fun st => (Done a, st).
Definition throw {A} (msg : string) : M A := fun st => (Thrown (VStr msg), st).
Definition out_of_fuel {A} : M A := fun st => (OutOfFuel, st).
Definition bind {A B} (c : M A) (k : A -> M B) : M B :=
  fun st => match c st with
            | (Done a, st') => k a st'
            | (Thrown err, st') => (Thrown err, st')
            | (OutOfFuel, st') => (OutOfFuel, st')
            end.
Definition get : M State := fun st => (Done st, st).
Definition modify (f : State -> State) : M unit := fun st => (Done tt, f st).

Local Notation "x <- c ;; k" := (bind c (fun x => k))
  (at level 100, c at next level, right associativity).
Local Notation "c ;;; k" := (bind c (fun _ => k))
  (at level 100, right associativity).

Definition modify_instance (f : Network -> Network) : M unit :=
  modify (fun st => with_instance (f <$> instance st) st).

Definition ROOT_ROUTE_NAME : string := "root".

Definition not_initialized : string :=
  "ClientNetWork not initialized, please do 'Network.start()'".

(** [remote.OnClientEvent[eventType](...)]: the new connection. *)
Definition attach (l : ClientListener) : M nat :=
  fun st =>
    (Done (next_conn st),
     with_listeners (<[next_conn st := l]> (listeners st))
       (with_next_conn (S (next_conn st)) st)).

(** [connection.Disconnect()] *)
Definition disconnect (c : nat) : M unit :=
  modify (fun st => with_listeners (delete c (listeners st)) st).

(** [remote.FireServer(...args)], for either class of remote. *)
Definition FireServer_remote (r : RemoteId) (args : list Value) : M unit :=
  st <- get ;;
  match remote_class st !! r with
  | Some RemoteEvent | Some UnreliableRemoteEvent =>
      modify (with_sent (sent st ++ [(r, args)]))
  | None => ret tt
  end.

(** [getRoute(route)] *)
Definition getRoute (route : string) : M SimpleRouteInfo :=
  st <- get ;;
  match instance st with
  | None => throw "ClientNetwork not started"
  | Some inst =>
      match routingTable inst !! route with
      | Some routeInfo => ret routeInfo
      | None => throw ("Route " ++ route ++ " not found , or not charged to the client")
      end
  end.

(** A number used as a condition: set and not zero. *)
Definition truthy (cooldown : option Q) : bool :=
  match cooldown with
  | Some c => negb (Qeq_bool c 0)
  | None => false
  end.

(** The cooldown check of [FireServer] and [InvokeServer]: true when the
    route is on cooldown at [currentTime]. *)
Definition on_cooldown (inst : Network) (route : string)
    (routeInfo : SimpleRouteInfo) (currentTime : Q) : bool :=
  if truthy (sri_cooldown routeInfo) then
    match log inst !! route with
    | Some entry =>
        Qlt_bool (currentTime - lastFireServer entry) (default 0 (sri_cooldown routeInfo))
    | None => false
    end
  else false.

(** The text thrown on cooldown, up to the rendering of the number of
    seconds that follows it in the source. *)
Definition cooldown_message (route : string) : string :=
  ("Route " ++ route ++ " is on cooldown")%string.

(** [this.instance.log[route] = { lastFireServer: currentTime }] *)
Definition write_log (route : string) (currentTime : Q) : M unit :=
  modify_instance (fun i =>
    with_log (<[route := {| lastFireServer := currentTime |}]> (log i)) i).

(** [FireServer(route, ...args)] *)
Definition FireServer (route : string) (args : list Value) : M unit :=
  st <- get ;;
  match instance st with
  | None => throw not_initialized
  | Some inst =>
      let currentTime := clock st in
      routeInfo <- getRoute route ;;
      if bool_decide (sri_remoteType routeInfo = RFunction)
      then throw ("Route '" ++ route ++ "' is not a event")
      else if on_cooldown inst route routeInfo currentTime
      then throw (cooldown_message route)
      else
        FireServer_remote (sri_remote routeInfo) args ;;;
        write_log route currentTime
  end.

(** [OnEvent(eventType, route, callback)] *)
Definition OnEvent (eventType : _eventType) (route : string)
    (callback : Callback) : M unit :=
  st <- get ;;
  match instance st with
  | None => throw not_initialized
  | Some inst =>
      routeInfo <- getRoute route ;;
      if bool_decide (sri_remoteType routeInfo = RFunction)
      then throw ("Route '" ++ route ++ "' is not a event")
      else
        match connections inst !! route with
        | Some _ => throw ("Route " ++ route ++ " already connected")
        | None =>
            c <- attach {| cl_remote := sri_remote routeInfo;
                           cl_eventType := eventType;
                           cl_target := ToCallback callback |} ;;
            modify_instance (fun i =>
              with_connections (<[route := c]> (connections i)) i)
        end
  end.

(** One [wait(0.1)] of [InvokeServer]: time passes; a message that arrives
    while the one-shot listener [connection] is still attached sets [result]
    and uses the listener up. *)
Definition wait_ (env : Env) (connection : nat) (result : Value) : M Value :=
  st <- get ;;
  let w := env (ticks st) in
  modify (with_time (clock st + elapsed w) (S (ticks st))) ;;;
  match arrival w, listeners st !! connection with
  | Some serverResult, Some _ => disconnect connection ;;; ret serverResult
  | _, _ => ret result
  end.

(** [while (os.clock() - startTime < waitTime && result === undefined) wait(0.1)] *)
Fixpoint poll (fuel : nat) (env : Env) (startTime waitTime : Q)
    (connection : nat) (result : Value) : M Value :=
  st <- get ;;
  if (Qlt_bool (clock st - startTime) waitTime && is_undefined result)%bool
  then
    match fuel with
    | O => out_of_fuel
    | S fuel' =>
        result <- wait_ env connection result ;;
        poll fuel' env startTime waitTime connection result
    end
  else ret result.

(** [InvokeServer(route, waitTime, ...args)] *)
Definition InvokeServer (fuel : nat) (env : Env) (route : string)
    (waitTime : Q) (args : list Value) : M Value :=
  st <- get ;;
  match instance st with
  | None => throw not_initialized
  | Some inst =>
      let currentTime := clock st in
      routeInfo <- getRoute route ;;
      if negb (bool_decide (sri_remoteType routeInfo = RFunction))
      then throw ("Route '" ++ route ++ "' is not a function")
      else if on_cooldown inst route routeInfo currentTime
      then throw (cooldown_message route)
      else
        connection <- attach {| cl_remote := sri_remote routeInfo;
                                cl_eventType := Once;
                                cl_target := ToResult |} ;;
        FireServer_remote (sri_remote routeInfo) args ;;;
        st <- get ;;
        let startTime := clock st in
        write_log route currentTime ;;;
        result <- poll fuel env startTime waitTime connection VUndefined ;;
        disconnect connection ;;;
        ret result
  end.

(** [Disconnect(route)] *)
Definition Disconnect (route : string) : M unit :=
  st <- get ;;
  match instance st with
  | None => throw not_initialized
  | Some inst =>
      match connections inst !! route with
      | Some c =>
          disconnect c ;;;
          modify_instance (fun i => with_connections (delete route (connections i)) i)
      | None => ret tt
      end
  end.

Definition bootstrap_failed : string :=
  "Failed to initialize Network: 'get-tree' returned undefined. Ensure the client response is correctly set up.".

(** [simplifiedTree as { [key: string]: SimpleRouteInfo }]: a reply that is
    not a table has no entry to look up. *)
Definition as_table (v : Value) : gmap string SimpleRouteInfo :=
  match v with
  | VTable t => t
  | _ => ∅
  end.

(** [start()]. [initRoute] is the remote the three [WaitForChild] calls give:
    they are taken to return. *)
Definition start (fuel : nat) (env : Env) (initRoute : RemoteId) : M unit :=
  st <- get ;;
  match instance st with
  | Some _ => ret tt
  | None =>
      modify (with_instance
        (Some (new_Network
           {[ "root/network/get-tree"%string :=
                {| sri_remote := initRoute; sri_secure := true;
                   sri_remoteType := RFunction; sri_cooldown := Some 5 |} ]}))) ;;;
      simplifiedTree <- InvokeServer fuel env "root/network/get-tree" 5 [] ;;
      if is_undefined simplifiedTree
      then modify (with_instance None) ;;; throw bootstrap_failed
      else modify (with_instance (Some (new_Network (as_table simplifiedTree))))
  end.

(** *** Notions used to state the properties *)

(** The state with the connection [c] detached. *)
Definition detach (c : nat) (st : State) : State :=
  with_listeners (delete c (listeners st)) st.

Definition wait_value (env : Env) (c : nat) (result : Value) (st : State) : Value :=
  match arrival (env (ticks st)), listeners st !! c with
  | Some serverResult, Some _ => serverResult
  | _, _ => result
  end.

Definition wait_state (env : Env) (c : nat) (st : State) : State :=
  let st1 := with_time (clock st + elapsed (env (ticks st))) (S (ticks st)) st in
  match arrival (env (ticks st)), listeners st !! c with
  | Some _, Some _ => detach c st1
  | _, _ => st1
  end.

(** The call passes the checks made before the request is sent. *)
Definition ready (st : State) (inst : Network) (route : string)
    (routeInfo : SimpleRouteInfo) : Prop :=
  instance st = Some inst
  /\ routingTable inst !! route = Some routeInfo
  /\ sri_remoteType routeInfo = RFunction
  /\ on_cooldown inst route routeInfo (clock st) = false.

(** The state once the one-shot listener is attached, the request sent and
    the log written. *)
Definition requested (route : string) (routeInfo : SimpleRouteInfo)
    (args : list Value) (st : State) : State :=
  let st1 := (attach {| cl_remote := sri_remote routeInfo; cl_eventType := Once;
                         cl_target := ToResult |} st).2 in
  let st2 := (FireServer_remote (sri_remote routeInfo) args st1).2 in
  (write_log route (clock st) st2).2.

(** The request the call sends, if the remote is there. *)
Definition request (route_remote : RemoteId) (args : list Value) (st : State)
    : list (RemoteId * list Value) :=
  match remote_class st !! route_remote with
  | Some _ => [(route_remote, args)]
  | None => []
  end.

End Peer.

Arguments ListenerTarget : clear implicits.
Arguments ClientListener : clear implicits.
Arguments State : clear implicits.
Arguments M : clear implicits.

(** *** A concrete peer *)

(** Waits of a tenth of a second during which nothing arrives. *)
Definition quiet : Env := fun _ => {| elapsed := 1 # 10; arrival := None |}.

(** Waits of a tenth of a second during which the server replies undefined. *)
Definition hollow : Env :=
  fun _ => {| elapsed := 1 # 10; arrival := Some VUndefined |}.

Definition additions : SimpleRouteInfo :=
  {| sri_remote := 7%nat; sri_secure := true; sri_remoteType := RFunction;
     sri_cooldown := Some 1 |}.

Definition table : Network :=
  new_Network {[ "root/additions"%string := additions ]}.

(** A started peer that knows the route root/additions. *)
Definition booted : State unit :=
  {| instance := Some table; clock := 0; ticks := 0;
     remote_class := {[ 7%nat := RemoteEvent ]}; listeners := ∅;
     next_conn := 0; sent := [] |}.

(** A peer before [start]. *)
Definition unstarted : State unit :=
  {| instance := None; clock := 0; ticks := 0;
     remote_class := {[ 0%nat := RemoteEvent ]}; listeners := ∅;
     next_conn := 0; sent := [] |}.

(** Waits of a tenth of a second; [v] arrives during the wait number [n]. *)
Definition replying (n : nat) (v : Value) : Env :=
  fun i => {| elapsed := 1 # 10;
              arrival := if Nat.eqb i n then Some v else None |}.

Definition chat : SimpleRouteInfo :=
  {| sri_remote := 8%nat; sri_secure := true; sri_remoteType := REvent;
     sri_cooldown := Some 2 |}.

(** A started peer that knows the event route root/chat. *)
Definition chatting : State unit :=
  {| instance := Some (new_Network {[ "root/chat"%string := chat ]});
     clock := 0; ticks := 0;
     remote_class := {[ 8%nat := RemoteEvent ]}; listeners := ∅;
     next_conn := 0; sent := [] |}.

End ClientNetwork.

(** * Numbers *)

Lemma Qlt_bool_true (x y : Q) : Qlt_bool x y = true <-> x < y.
Proof.
  unfold Qlt_bool. rewrite negb_true_iff, <- not_true_iff_false, Qle_bool_iff.
  split; [apply Qnot_le_lt | apply Qlt_not_le].
Qed.

Lemma Qlt_bool_false (x y : Q) : Qlt_bool x y = false <-> y <= x.
Proof.
  unfold Qlt_bool. rewrite negb_false_iff. apply Qle_bool_iff.
Qed.

(** * Properties of the host registry *)

Module ServerSpec.
Import ServerNetwork.

Section Middleware.
Context {W : Type}.
Implicit Types (this : Middleware W) (st : State W) (player : Player).

Lemma log_of_recorded this playerId currentTime st :
  log_of (recorded this playerId currentTime st) this
  = <[playerId := {| lastUse := currentTime |}]> (log_of st this).
Proof. unfold log_of, recorded. simpl. by rewrite lookup_insert_eq. Qed.

Lemma recorded_twice this playerId currentTime st :
  recorded this playerId currentTime (recorded this playerId currentTime st)
  = recorded this playerId currentTime st.
Proof.
  unfold recorded at 1. rewrite log_of_recorded.
  unfold recorded. simpl. unfold with_mw_logs. simpl.
  by rewrite !insert_insert_eq.
Qed.

Lemma try_middlewares_spec this player args st :
  let out := callbacks_outcome this player args st in
  try_middlewares this player args st
  = match out.1 with
    | None => (Ok true, with_world out.2 st)
    | Some err =>
        (Ok false,
         with_output (output st ++ [Warn "Middleware: Error in middleware" (Some err)])
           (with_world out.2 st))
    end.
Proof.
  unfold try_middlewares, callbacks_outcome, bind, get, modify, warn, ret. simpl.
  destruct (run_middlewares _ _ _ _) as [[err|] w']; reflexivity.
Qed.

Lemma try_middlewares_logs this player args st :
  mw_logs (try_middlewares this player args st).2 = mw_logs st.
Proof.
  rewrite try_middlewares_spec. simpl.
  destruct (callbacks_outcome _ _ _ _).1; reflexivity.
Qed.

(** [execute] on a peer without a log entry. *)
Lemma execute_first this player currentTime args st :
  log_of st this !! UserId player = None ->
  execute this player currentTime args st
  = try_middlewares this player args (recorded this (UserId player) currentTime st).
Proof.
  intros Hnone. unfold execute, bind, get. simpl. rewrite Hnone.
  unfold write_log, modify, ret. simpl.
  transitivity (try_middlewares this player args
                  (recorded this (UserId player) currentTime
                     (recorded this (UserId player) currentTime st)));
    [reflexivity | by rewrite recorded_twice].
Qed.

(** [execute] on a peer still on cooldown. *)
Lemma execute_on_cooldown this player currentTime args st entry :
  log_of st this !! UserId player = Some entry ->
  currentTime - lastUse entry < clientSideCooldown this ->
  execute this player currentTime args st = (Ok false, st).
Proof.
  intros Hsome Hlt. unfold execute, bind, get. simpl. rewrite Hsome.
  unfold ret. simpl. apply Qlt_bool_true in Hlt. by rewrite Hlt.
Qed.

(** [execute] on a peer whose cooldown is over. *)
Lemma execute_after_cooldown this player currentTime args st entry :
  log_of st this !! UserId player = Some entry ->
  clientSideCooldown this <= currentTime - lastUse entry ->
  execute this player currentTime args st
  = try_middlewares this player args (recorded this (UserId player) currentTime st).
Proof.
  intros Hsome Hle. unfold execute, bind, get. simpl. rewrite Hsome.
  unfold ret. simpl. apply Qlt_bool_false in Hle. rewrite Hle.
  reflexivity.
Qed.

Lemma log_after_callbacks this player currentTime args st :
  log_of (try_middlewares this player args
            (recorded this (UserId player) currentTime st)).2 this
    !! UserId player
  = Some {| lastUse := currentTime |}.
Proof.
  unfold log_of. rewrite try_middlewares_logs.
  fold (log_of (recorded this (UserId player) currentTime st) this).
  rewrite log_of_recorded. apply lookup_insert_eq.
Qed.

(** [execute] never throws: it answers true or false. *)
Lemma execute_total this player currentTime args st :
  exists b, (execute this player currentTime args st).1 = Ok b.
Proof.
  destruct (log_of st this !! UserId player) as [entry|] eqn:Hlog.
  - destruct (Qlt_le_dec (currentTime - lastUse entry) (clientSideCooldown this)).
    + erewrite execute_on_cooldown by eauto. eauto.
    + erewrite execute_after_cooldown by eauto.
      rewrite try_middlewares_spec. simpl.
      destruct (callbacks_outcome _ _ _ _).1; simpl; eauto.
  - rewrite execute_first by done.
    rewrite try_middlewares_spec. simpl.
    destruct (callbacks_outcome _ _ _ _).1; simpl; eauto.
Qed.

(** C1. Cooldown of [Middleware.execute], for every middleware, peer and
    state. (1) A peer without a log entry: the call at [t] records [t] as its
    last use and goes on to the callbacks (the world is what the callbacks
    make of it, the answer is true unless one raised). (2) A peer whose entry
    is less than the cooldown old at [t]: the answer is false and the whole
    state (log, world, output) is as before, so no callback ran. (3) A peer
    whose entry is at least the cooldown old: the entry becomes [t] and the
    callbacks run. *)
Theorem execute_cooldown this player (t : Q) args st :
  let playerId := UserId player in
  let ran := callbacks_outcome this player args st in
  let answer := match ran.1 with None => true | Some _ => false end in
  (log_of st this !! playerId = None ->
   let r := execute this player t args st in
   r.1 = Ok answer /\ world r.2 = ran.2 /\
   log_of r.2 this !! playerId = Some {| lastUse := t |})
  /\ (forall entry,
        log_of st this !! playerId = Some entry ->
        t - lastUse entry < clientSideCooldown this ->
        execute this player t args st = (Ok false, st))
  /\ (forall entry,
        log_of st this !! playerId = Some entry ->
        clientSideCooldown this <= t - lastUse entry ->
        let r := execute this player t args st in
        r.1 = Ok answer /\ world r.2 = ran.2 /\
        log_of r.2 this !! playerId = Some {| lastUse := t |}).
Proof.
  simpl. repeat split.
  - rewrite execute_first by done. rewrite try_middlewares_spec. simpl.
    unfold callbacks_outcome. simpl.
    destruct (run_middlewares _ _ _ _).1; reflexivity.
  - rewrite execute_first by done. rewrite try_middlewares_spec. simpl.
    unfold callbacks_outcome. simpl.
    destruct (run_middlewares _ _ _ _).1; reflexivity.
  - rewrite execute_first by done. apply log_after_callbacks.
  - intros entry Hsome Hlt. by eapply execute_on_cooldown.
  - erewrite execute_after_cooldown by eauto. rewrite try_middlewares_spec. simpl.
    unfold callbacks_outcome. simpl.
    destruct (run_middlewares _ _ _ _).1; reflexivity.
  - erewrite execute_after_cooldown by eauto. rewrite try_middlewares_spec. simpl.
    unfold callbacks_outcome. simpl.
    destruct (run_middlewares _ _ _ _).1; reflexivity.
  - erewrite execute_after_cooldown by eauto. apply log_after_callbacks.
Qed.

(** C9. A call rejected by a raising callback still uses up the cooldown:
    when the cooldown check passes at [t] and a callback raises, [execute]
    answers false with the peer's last use already set to [t]; a next call
    of that peer at [t'] with [t' - t] under the cooldown answers false on
    the cooldown check alone, the state (world included) staying as it was,
    whatever its arguments. *)
Theorem rejected_call_consumes_cooldown this player (t : Q) args st err :
  (log_of st this !! UserId player = None
   \/ exists entry, log_of st this !! UserId player = Some entry
                    /\ clientSideCooldown this <= t - lastUse entry) ->
  (callbacks_outcome this player args st).1 = Some err ->
  let r := execute this player t args st in
  r.1 = Ok false
  /\ log_of r.2 this !! UserId player = Some {| lastUse := t |}
  /\ forall (t' : Q) args',
       t' - t < clientSideCooldown this ->
       execute this player t' args' r.2 = (Ok false, r.2).
Proof.
  intros Hpass Hraise. simpl.
  assert (Hex : execute this player t args st
                = try_middlewares this player args
                    (recorded this (UserId player) t st)).
  { destruct Hpass as [Hnone | (entry & Hsome & Hle)].
    - by apply execute_first.
    - by eapply execute_after_cooldown. }
  rewrite Hex.
  assert (Hlog : log_of (try_middlewares this player args
                           (recorded this (UserId player) t st)).2 this
                   !! UserId player = Some {| lastUse := t |})
    by apply log_after_callbacks.
  split; [| split].
  - rewrite try_middlewares_spec. simpl.
    unfold callbacks_outcome in *. simpl. by rewrite Hraise.
  - exact Hlog.
  - intros t' args' Hlt. eapply execute_on_cooldown; [exact Hlog | exact Hlt].
Qed.

(** C5. A rejection by the middleware is silent. For the listener of a
    route with middleware, connected by [OnEvent] or by [OnInvoke]:
    [execute] never throws (a raising callback makes it answer false), and
    when it answers false the listener ends normally in the very state
    [execute] left: the handler has not run, nothing was sent back, nothing
    is thrown. *)
Theorem rejection_is_silent (c : Connection W) player args (now : Q) st mw :
  middleware (conn_route c) = Some mw ->
  (exists b, (execute mw player now args st).1 = Ok b)
  /\ ((execute mw player now args st).1 = Ok false ->
      listener c player args now st
      = (Ok tt, (execute mw player now args st).2)).
Proof.
  intros Hmw. split; [apply execute_total |].
  intros Hfalse. unfold listener. rewrite Hmw. unfold bind.
  destruct (execute mw player now args st) as [res st'] eqn:Hex.
  simpl in Hfalse. subst res. reflexivity.
Qed.

(** A message on a remote runs the listener connected there. *)
Lemma fire_runs_listener (no_listener : M W unit) (r : RemoteId)
    (c : Connection W) player args (now : Q) st :
  connections st !! r = Some c ->
  conn_connected c = true ->
  conn_eventType c <> Once ->
  OnServerEvent_fire no_listener r player args now st
  = listener c player args now st.
Proof.
  intros Hc Hon Hkind. unfold OnServerEvent_fire, bind, get. simpl.
  rewrite Hc, Hon. by destruct (conn_eventType c).
Qed.

End Middleware.

Section Tree.
Context {W : Type}.
Implicit Types (node : TreeNode W) (st : State W) (inst : Network W).

(** Induction on a tree, with the hypothesis for every child. *)
Lemma TreeNode_induction (P : TreeNode W -> Prop) :
  (forall route childs, Forall (fun kc => P kc.2) childs -> P (mkTreeNode route childs)) ->
  forall node, P node.
Proof.
  intros step. fix rec 1. intros [route childs]. apply step.
  induction childs as [| [k c] rest IH]; constructor; [apply rec | exact IH].
Qed.

Lemma dict_get_set_eq {A} k (v : A) d : dict_get k (dict_set k v d) = Some v.
Proof.
  induction d as [| [k' v'] rest IH]; simpl.
  - by rewrite String.eqb_refl.
  - destruct (String.eqb k k') eqn:E; simpl; rewrite ?String.eqb_refl, ?E; done.
Qed.

Lemma dict_get_set_ne {A} k k' (v : A) d :
  k <> k' -> dict_get k' (dict_set k v d) = dict_get k' d.
Proof.
  intros Hne. induction d as [| [k0 v0] rest IH]; simpl.
  - destruct (String.eqb k' k) eqn:E; [| done].
    apply String.eqb_eq in E. congruence.
  - destruct (String.eqb k k0) eqn:E; simpl.
    + apply String.eqb_eq in E. subst k0.
      destruct (String.eqb k' k) eqn:E'; [| done].
      apply String.eqb_eq in E'. congruence.
    + by rewrite IH.
Qed.

Lemma dict_set_same {A} k (v : A) d : dict_get k d = Some v -> dict_set k v d = d.
Proof.
  induction d as [| [k' v'] rest IH]; simpl; [done |].
  destruct (String.eqb k k') eqn:E.
  - apply String.eqb_eq in E. by intros [= ->]; subst.
  - intros H. by rewrite IH.
Qed.

Lemma node_at_app loc rest node :
  node_at (loc ++ rest) node
  = match node_at loc node with Some n => node_at rest n | None => None end.
Proof.
  revert node. induction loc as [| part loc IH]; intros node; simpl; [done |].
  destruct (getChild node part); [apply IH | done].
Qed.

Lemma node_at_update loc f node parent :
  node_at loc node = Some parent ->
  node_at loc (update_at loc f node) = Some (f parent).
Proof.
  revert node. induction loc as [| part loc IH]; intros node; simpl.
  - by intros [= ->].
  - destruct (getChild node part) as [child|] eqn:Hc; [| done].
    intros Hat. unfold getChild. simpl. rewrite dict_get_set_eq. by apply IH.
Qed.

(** Reading the tree: [walk] without [createMissing] changes nothing. *)
Lemma walk_found parts path currentPath node target st :
  node_at parts node = Some target ->
  walk false path currentPath parts node st = (Ok (node, target), st).
Proof.
  revert currentPath node. induction parts as [| part parts IH];
    intros currentPath node; simpl.
  - by intros [= ->].
  - destruct (getChild node part) as [child|] eqn:Hc; [| done].
    intros Hat. unfold bind. rewrite (IH _ _ Hat). simpl. unfold ret.
    unfold getChild in Hc. rewrite (dict_set_same _ _ _ Hc).
    by destruct node.
Qed.

Lemma walk_missing parts path currentPath node st :
  node_at parts node = None ->
  exists err, walk false path currentPath parts node st = (Throw err, st).
Proof.
  revert currentPath node. induction parts as [| part parts IH];
    intros currentPath node; simpl; [done |].
  destruct (getChild node part) as [child|] eqn:Hc.
  - intros Hat. destruct (IH (currentPath ++ "/" ++ part)%string _ Hat) as [err Herr].
    exists err. unfold bind. by rewrite Herr.
  - intros _. eexists. reflexivity.
Qed.

Lemma with_tree_same st inst :
  instance st = Some inst ->
  with_instance (with_tree (tree inst) <$> instance st) st = st.
Proof. intros H. destruct st, inst. simpl in *. by subst. Qed.

(** [traversePath] on a path whose parts are [root] then [loc]. *)
Lemma traversePath_found st inst p loc target :
  instance st = Some inst ->
  split slash (lower p) = ROOT_ROUTE_NAME :: loc ->
  node_at loc (tree inst) = Some target ->
  traversePath p false st = (Ok (loc, target), st).
Proof.
  intros Hinst Hsplit Hat.
  unfold traversePath, traversePath_, instance_or_start, bind, get. simpl.
  rewrite Hinst. unfold ret at 1. cbn -[walk]. rewrite Hsplit.
  destruct loc as [| part loc].
  - simpl in *. injection Hat as <-. reflexivity.
  - cbn -[walk]. case_bool_decide; [| done]. cbn -[walk].
    rewrite (walk_found _ _ _ _ _ _ Hat). unfold ret. cbn -[walk].
    by rewrite (with_tree_same _ _ Hinst).
Qed.

Lemma traversePath_missing st inst p loc :
  instance st = Some inst ->
  split slash (lower p) = ROOT_ROUTE_NAME :: loc ->
  node_at loc (tree inst) = None ->
  exists err, traversePath p false st = (Throw err, st).
Proof.
  intros Hinst Hsplit Hat.
  unfold traversePath, traversePath_, instance_or_start, bind, get. simpl.
  rewrite Hinst. unfold ret at 1. cbn -[walk]. rewrite Hsplit.
  destruct loc as [| part loc]; [done |].
  cbn -[walk]. case_bool_decide; [| done]. cbn -[walk].
  destruct (walk_missing _ (lower p) "root" _ st Hat) as [err Herr].
  exists err. by rewrite Herr.
Qed.

Lemma traversePath_result st inst p loc l target st' :
  instance st = Some inst ->
  split slash (lower p) = ROOT_ROUTE_NAME :: loc ->
  traversePath p false st = (Ok (l, target), st') ->
  node_at loc (tree inst) = Some target.
Proof.
  intros Hinst Hsplit Hres.
  destruct (node_at loc (tree inst)) as [n|] eqn:Hat.
  - rewrite (traversePath_found _ _ _ _ _ Hinst Hsplit Hat) in Hres. congruence.
  - destruct (traversePath_missing _ _ _ _ Hinst Hsplit Hat) as [err Herr].
    congruence.
Qed.

(** A string is never a key of an array. *)
Lemma key_in_array_str {A} (s : string) (arr : list A) :
  key_in_array (KStr s) arr = false.
Proof.
  unfold key_in_array, array_keys. generalize (seq 1 (length arr)).
  intros l. induction l; simpl; done.
Qed.

Lemma new_Route_spec p n sec rt (mw : option (Middleware W)) st :
  exists r st1,
    new_Route p n sec rt mw st
    = (Ok {| path := p; name := n; secure := sec; remoteType := rt;
             middleware := mw; remote := r |}, st1)
    /\ instance st1 = instance st.
Proof.
  unfold new_Route, FindFirstChild, bind, get, ret, new_Instance. simpl.
  destruct (String.eqb p "root/network" && String.eqb n "get-tree")%bool;
    simpl; eauto.
Qed.

(** C6. [EditRoute] keeps the descendants. On a registry that is started,
    for a parent path that resolves to a node with a child named
    [endPoint]: [EditRoute] succeeds, the node stored under that name now
    carries a new Route built from the parameters, and its children are the
    children map of the old node; every place below it holds the node it
    held before, and every path that went through it to a descendant is
    traversed as before, to the same node. *)
Theorem EditRoute_preserves_descendants st inst p (rp : RouteParam W) loc parent old :
  instance st = Some inst ->
  split slash (lower p) = ROOT_ROUTE_NAME :: loc ->
  node_at loc (tree inst) = Some parent ->
  getChild parent (endPoint rp) = Some old ->
  exists st' inst' route,
    EditRoute p rp st = (Ok tt, st')
    /\ instance st' = Some inst'
    /\ node_at (loc ++ [endPoint rp]) (tree inst')
       = Some (mkTreeNode route (children old))
    /\ (name route = endPoint rp /\ secure route = rp_secure rp
        /\ remoteType route = rp_remoteType rp
        /\ middleware route = rp_middleware rp)
    /\ (forall rest,
          node_at (loc ++ endPoint rp :: rest) (tree inst')
          = node_at rest (mkTreeNode route (children old)))
    /\ (forall part rest,
          node_at (loc ++ endPoint rp :: part :: rest) (tree inst')
          = node_at (loc ++ endPoint rp :: part :: rest) (tree inst))
    /\ (forall q part rest l target,
          split slash (lower q)
          = ROOT_ROUTE_NAME :: loc ++ endPoint rp :: part :: rest ->
          traversePath q false st = (Ok (l, target), st) ->
          traversePath q false st' = (Ok (l, target), st')).
Proof.
  intros Hinst Hsplit Hat Hchild.
  destruct (new_Route_spec p (endPoint rp) (rp_secure rp) (rp_remoteType rp)
              (rp_middleware rp) st) as (r & st1 & Hnew & Hinst1).
  set (route := {| path := p; name := endPoint rp; secure := rp_secure rp;
                   remoteType := rp_remoteType rp;
                   middleware := rp_middleware rp; remote := r |}) in *.
  set (edit := fun pn : TreeNode W =>
                 mkTreeNode (value pn)
                   (dict_set (endPoint rp) (mkTreeNode route (children old))
                      (children pn))).
  set (inst' := with_tree (update_at loc edit (tree inst)) inst).
  assert (Hedit : EditRoute p rp st = (Ok tt, with_instance (Some inst') st1)).
  { unfold EditRoute, EditRoute_, bind, get. cbn -[traversePath_ new_Route].
    rewrite Hinst, key_in_array_str.
    fold (@traversePath W). rewrite (traversePath_found _ _ _ _ _ Hinst Hsplit Hat).
    cbn -[new_Route]. rewrite Hchild, Hnew.
    unfold modify_instance, modify. cbn. by rewrite Hinst1, Hinst. }
  assert (Hnode : forall rest,
             node_at (loc ++ endPoint rp :: rest) (tree inst')
             = node_at rest (mkTreeNode route (children old))).
  { intros rest. rewrite node_at_app. simpl.
    rewrite (node_at_update _ edit _ _ Hat). simpl.
    unfold getChild, edit. simpl. by rewrite dict_get_set_eq. }
  assert (Hsame : forall part rest,
             node_at (loc ++ endPoint rp :: part :: rest) (tree inst')
             = node_at (loc ++ endPoint rp :: part :: rest) (tree inst)).
  { intros part rest. rewrite Hnode. rewrite node_at_app, Hat. simpl.
    rewrite Hchild. reflexivity. }
  exists (with_instance (Some inst') st1), inst', route.
  split; [exact Hedit |]. split; [reflexivity |].
  split; [apply (Hnode []) |]. split; [done |].
  split; [exact Hnode |]. split; [exact Hsame |].
  intros q part rest l target Hq Hbefore.
  pose proof (traversePath_result _ _ _ _ _ _ _ Hinst Hq Hbefore) as Hold.
  assert (l = loc ++ endPoint rp :: part :: rest) as ->.
  { rewrite (traversePath_found _ _ _ _ _ Hinst Hq Hold) in Hbefore. congruence. }
  apply (traversePath_found _ inst'); [reflexivity | exact Hq |].
  by rewrite Hsame.
Qed.

End Tree.

(** ** Paths as strings *)

Lemma split_nonempty sep s : split sep s <> [].
Proof.
  destruct s as [| c rest]; simpl; [done |].
  destruct (Ascii.eqb c sep); [done |]. by destruct (split sep rest).
Qed.

Lemma split_app_sep sep a b :
  split sep (a ++ String sep b) = split sep a ++ split sep b.
Proof.
  induction a as [| c a IH]; simpl.
  - by rewrite Ascii.eqb_refl.
  - destruct (Ascii.eqb c sep); [by rewrite IH |].
    rewrite IH. pose proof (split_nonempty sep a).
    by destruct (split sep a).
Qed.

Lemma lower_app a b : lower (a ++ b) = (lower a ++ lower b)%string.
Proof. induction a as [| c a IH]; simpl; [done | by rewrite IH]. Qed.

Lemma plain_spec s : plain s = true <-> lower s = s /\ split slash s = [s].
Proof.
  unfold plain. rewrite andb_true_iff, String.eqb_eq, bool_decide_eq_true. done.
Qed.

Lemma split_join_path base loc :
  Forall (fun part => plain part = true) loc ->
  split slash (join_path base loc) = split slash base ++ loc.
Proof.
  revert base. induction loc as [| part loc IH]; intros base Hp; simpl.
  - by rewrite app_nil_r.
  - apply Forall_cons in Hp as [Hpart Hloc]. apply plain_spec in Hpart as [_ Hs].
    rewrite (IH _ Hloc).
    change (base ++ "/" ++ part)%string with (base ++ String slash part)%string.
    by rewrite split_app_sep, Hs, <- app_assoc.
Qed.

Lemma lower_join_path base loc :
  lower base = base ->
  Forall (fun part => plain part = true) loc ->
  lower (join_path base loc) = join_path base loc.
Proof.
  revert base. induction loc as [| part loc IH]; intros base Hb Hp; simpl; [done |].
  apply Forall_cons in Hp as [Hpart Hloc]. apply plain_spec in Hpart as [Hl _].
  apply IH; [| done].
  change (base ++ "/" ++ part)%string with (base ++ String slash part)%string.
  rewrite lower_app. simpl. by rewrite Hb, Hl.
Qed.

Lemma join_path_inj base l1 l2 :
  Forall (fun part => plain part = true) l1 ->
  Forall (fun part => plain part = true) l2 ->
  join_path base l1 = join_path base l2 -> l1 = l2.
Proof.
  intros H1 H2 Heq.
  apply (f_equal (split slash)) in Heq.
  rewrite !split_join_path in Heq by done.
  by apply app_inv_head in Heq.
Qed.

(** ** Flattening the tree *)

Section Flatten.
Context {W : Type}.
Implicit Types (node : TreeNode W) (st : State W) (inst : Network W).

Lemma depthFirstSearch_entries node : forall path tbl,
  depthFirstSearch node path tbl = foldl assign tbl (dfs_entries node path).
Proof.
  induction node as [route childs IH] using TreeNode_induction.
  intros path tbl. simpl.
  change (assign tbl (full_path path route, route_info route))
    with (<[full_path path route := route_info route]> tbl).
  generalize (<[full_path path route := route_info route]> tbl).
  induction IH as [| [k child] rest Hchild _ IHrest]; intros acc; [done |].
  rewrite foldl_app, <- Hchild. apply IHrest.
Qed.

Lemma well_named_children (route : Route W) (childs : list (string * TreeNode W)) :
  well_named (mkTreeNode route childs) = true ->
  NoDup childs.*1
  /\ Forall (fun kc => kc.1 = name (value kc.2) /\ plain kc.1 = true
                       /\ well_named kc.2 = true) childs.
Proof.
  simpl. rewrite andb_true_iff, bool_decide_eq_true. intros [Hnd Hall].
  split; [done |]. clear Hnd.
  induction childs as [| [k child] rest IH]; [constructor |].
  rewrite !andb_true_iff in Hall. destruct Hall as [[[Hk Hp] Hw] Hrest].
  constructor; [| by apply IH]. simpl. by apply String.eqb_eq in Hk.
Qed.

Lemma length_nodes node : length (nodes node) = count_routes node.
Proof.
  induction node as [route childs IH] using TreeNode_induction. simpl. f_equal.
  induction IH as [| [k child] rest Hchild _ IHrest]; [done |].
  simpl in Hchild. by rewrite length_app, length_map, Hchild, IHrest.
Qed.

Lemma length_dfs_entries node : forall path,
  length (dfs_entries node path) = count_routes node.
Proof.
  induction node as [route childs IH] using TreeNode_induction.
  intros path. simpl. f_equal. generalize (full_path path route). intros fp.
  induction IH as [| [k child] rest Hchild _ IHrest]; [done |].
  simpl in Hchild. by rewrite length_app, Hchild, IHrest.
Qed.

Lemma elem_of_nodes (route : Route W) (childs : list (string * TreeNode W)) l n :
  (l, n) ∈ nodes (mkTreeNode route childs) <->
  (l = [] /\ n = mkTreeNode route childs)
  \/ exists k child l', (k, child) ∈ childs /\ l = k :: l' /\ (l', n) ∈ nodes child.
Proof.
  simpl. rewrite elem_of_cons.
  set (each := fix each (cs : list (string * TreeNode W)) :=
         match cs with
         | [] => []
         | (k, child) :: rest =>
             map (fun ln => (k :: ln.1, ln.2)) (nodes child) ++ each rest
         end).
  assert (Heach : (l, n) ∈ each childs <->
            exists k child l', (k, child) ∈ childs /\ l = k :: l' /\ (l', n) ∈ nodes child).
  { induction childs as [| [k child] rest IH]; simpl.
    - split; [by intros ?%elem_of_nil | by intros (? & ? & ? & ?%elem_of_nil & _)].
    - rewrite elem_of_app, IH, list_elem_of_fmap. split.
      + intros [([l' n'] & [= -> ->] & Hin) | (k' & c' & l' & Hin & -> & Hn)].
        * exists k, child, l'. rewrite elem_of_cons. auto.
        * exists k', c', l'. rewrite elem_of_cons. auto.
      + intros (k' & c' & l' & Hin & -> & Hn).
        apply elem_of_cons in Hin as [[= -> ->] | Hin].
        * left. by exists (l', n).
        * right. by exists k', c', l'. }
  rewrite Heach. split.
  - intros [[= -> ->] | H]; auto.
  - intros [[-> ->] | H]; auto.
Qed.

Lemma dict_get_elem {A} k (v : A) d :
  NoDup d.*1 -> (k, v) ∈ d -> dict_get k d = Some v.
Proof.
  induction d as [| [k' v'] rest IH]; simpl; [by intros _ ?%elem_of_nil |].
  rewrite NoDup_cons. intros [Hk Hnd] Hin.
  apply elem_of_cons in Hin as [[= -> ->] | Hin].
  - by rewrite String.eqb_refl.
  - destruct (String.eqb k k') eqn:E; [| by apply IH].
    apply String.eqb_eq in E. subst k'. exfalso. apply Hk.
    apply list_elem_of_fmap. by exists (k, v).
Qed.

(** Every listed node is the node at its place, and its place is made of
    plain names. *)
Lemma nodes_at node : forall l n,
  well_named node = true -> (l, n) ∈ nodes node ->
  node_at l node = Some n /\ Forall (fun part => plain part = true) l.
Proof.
  induction node as [route childs IH] using TreeNode_induction.
  intros l n Hwf Hin. apply well_named_children in Hwf as [Hnd Hall].
  apply elem_of_nodes in Hin as [[-> ->] | (k & child & l' & Hin & -> & Hn)].
  - by split.
  - rewrite Forall_forall in IH, Hall.
    destruct (Hall _ Hin) as (_ & Hplain & Hwf). simpl in *.
    destruct (IH _ Hin l' n Hwf Hn) as [Hat Hl'].
    split; [| by constructor].
    unfold getChild. simpl. by rewrite (dict_get_elem _ _ _ Hnd Hin).
Qed.

Lemma NoDup_nodes node : well_named node = true -> NoDup (nodes node).*1.
Proof.
  induction node as [route childs IH] using TreeNode_induction.
  intros Hwf. apply well_named_children in Hwf as [Hnd Hall].
  simpl. apply NoDup_cons.
  set (each := fix each (cs : list (string * TreeNode W)) :=
         match cs with
         | [] => []
         | (k, child) :: rest =>
             map (fun ln => (k :: ln.1, ln.2)) (nodes child) ++ each rest
         end).
  assert (Heach : NoDup (each childs).*1
                  /\ forall l, l ∈ (each childs).*1 ->
                       exists k l', l = k :: l' /\ k ∈ childs.*1).
  { clear route. induction childs as [| [k child] rest IHc]; simpl.
    - split; [constructor | by intros l ?%elem_of_nil].
    - apply Forall_cons in IH as [Hchild IHrest].
      apply Forall_cons in Hall as [(_ & _ & Hwf) Hall].
      apply NoDup_cons in Hnd as [Hk Hnd]. simpl in *.
      destruct (IHc IHrest Hnd Hall) as [Hnd' Hheads].
      rewrite fmap_app.
      assert (Hfst : (map (fun ln : list string * TreeNode W => (k :: ln.1, ln.2))
                        (nodes child)).*1 = cons k <$> (nodes child).*1).
      { rewrite <- !list_fmap_compose. reflexivity. }
      rewrite Hfst. split.
      + apply NoDup_app. split; [| split; [| done]].
        * apply NoDup_fmap_2_strong; [| by apply Hchild]. by intros ?? _ _ [= ->].
        * intros l (l' & -> & _)%list_elem_of_fmap Hin.
          destruct (Hheads _ Hin) as (k' & l'' & [= <- _] & Hk'). done.
      + intros l [(l' & -> & _)%list_elem_of_fmap | Hin]%elem_of_app.
        * exists k, l'. split; [done | apply elem_of_cons; auto].
        * destruct (Hheads _ Hin) as (k' & l'' & -> & Hk').
          exists k', l''. split; [done | apply elem_of_cons; auto]. }
  destruct Heach as [Hnd' Hheads]. split; [| done].
  intros Hin. by destruct (Hheads _ Hin) as (? & ? & ? & _).
Qed.

(** The assignments of the search, read off the nodes: the key of a node is
    the full path of the start joined with its place. *)
Lemma dfs_entries_nodes node : forall path,
  well_named node = true ->
  full_path path (value node) <> EmptyString ->
  dfs_entries node path
  = map (fun ln => (join_path (full_path path (value node)) ln.1,
                    route_info (value ln.2))) (nodes node).
Proof.
  induction node as [route childs IH] using TreeNode_induction.
  intros path Hwf Hbase. apply well_named_children in Hwf as [_ Hall].
  simpl in *. f_equal.
  set (base := full_path path route) in *. clearbody base.
  induction childs as [| [k child] rest IHc]; [done |].
  apply Forall_cons in IH as [Hchild IHrest].
  apply Forall_cons in Hall as [(Hk & _ & Hwf) Hall]. simpl in *.
  rewrite map_app, map_map. rewrite (IHc IHrest Hall). f_equal.
  assert (Hfp : full_path base (value child) = (base ++ "/" ++ k)%string).
  { unfold full_path. rewrite <- Hk.
    destruct (String.eqb base EmptyString) eqn:E; [| done].
    by apply String.eqb_eq in E. }
  rewrite Hchild; [| done |]; rewrite Hfp; [done |].
  by destruct base.
Qed.

Lemma foldl_assign (es : list (string * SimpleRouteInfo)) : forall tbl,
  NoDup es.*1 -> foldl assign tbl es = list_to_map es ∪ tbl.
Proof.
  induction es as [| [k v] es IH]; intros tbl Hnd; simpl.
  - by rewrite (left_id_L ∅ (∪)).
  - apply NoDup_cons in Hnd as [Hk Hnd]. rewrite (IH _ Hnd). unfold assign. simpl.
    rewrite <- insert_union_l.
    by rewrite insert_union_r by by apply not_elem_of_list_to_map_1.
Qed.

Lemma flatten_as_list node :
  name (value node) = ROOT_ROUTE_NAME ->
  well_named node = true ->
  let entries :=
    map (fun ln => (join_path ROOT_ROUTE_NAME ln.1, route_info (value ln.2)))
      (nodes node) in
  NoDup entries.*1
  /\ depthFirstSearch node EmptyString ∅ = list_to_map entries.
Proof.
  intros Hroot Hwf entries.
  assert (Hbase : full_path EmptyString (value node) = ROOT_ROUTE_NAME)
    by (unfold full_path; simpl; exact Hroot).
  assert (Hnd : NoDup entries.*1).
  { unfold entries. rewrite <- list_fmap_compose.
    change (NoDup ((fun ln : list string * TreeNode W =>
                      join_path ROOT_ROUTE_NAME ln.1) <$> nodes node)).
    apply NoDup_fmap_2_strong.
    - intros [l1 n1] [l2 n2] H1 H2 Hj. simpl in Hj.
      destruct (nodes_at _ _ _ Hwf H1) as [Hat1 Hp1].
      destruct (nodes_at _ _ _ Hwf H2) as [Hat2 Hp2].
      pose proof (join_path_inj _ _ _ Hp1 Hp2 Hj) as ->.
      congruence.
    - eapply NoDup_fmap_1. apply (NoDup_nodes _ Hwf). }
  split; [exact Hnd |].
  rewrite depthFirstSearch_entries, dfs_entries_nodes; [| done | by rewrite Hbase].
  rewrite Hbase. fold entries. rewrite (foldl_assign _ _ Hnd).
  by rewrite (right_id_L ∅ (∪)).
Qed.

(** X22. Flattening the tree of a registry whose route names below the root
    are plain (lower-case as [lower] sees them, without a slash), every
    child being stored under the name of its route: the table has exactly
    one entry per route, and every key of the table is a path that
    [traversePath] resolves, without creating anything, to the node whose
    route the entry describes. *)
Theorem flatten_resolvable st inst :
  instance st = Some inst ->
  registry_tree inst ->
  let table := depthFirstSearch (tree inst) EmptyString ∅ in
  size table = count_routes (tree inst)
  /\ forall key info,
       table !! key = Some info ->
       exists loc node,
         traversePath key false st = (Ok (loc, node), st)
         /\ info = route_info (value node).
Proof.
  intros Hinst [Hroot Hwf] table.
  destruct (flatten_as_list _ Hroot Hwf) as [Hnd Htable].
  unfold table. rewrite Htable. split.
  - rewrite (map_size_list_to_map _ Hnd), length_map. apply length_nodes.
  - intros key info Hlook.
    apply (elem_of_list_to_map _ _ _ Hnd) in Hlook.
    apply list_elem_of_fmap in Hlook as ([l n] & [= -> ->] & Hin).
    destruct (nodes_at _ _ _ Hwf Hin) as [Hat Hplain].
    exists l, n. split; [| done]. simpl.
    apply (traversePath_found _ inst); [done | | done].
    rewrite lower_join_path by done.
    by rewrite split_join_path.
Qed.

End Flatten.

(** ** The trees the registry builds *)

Lemma lower_ascii_idem c : lower_ascii (lower_ascii c) = lower_ascii c.
Proof. destruct c as [[] [] [] [] [] [] [] []]; reflexivity. Qed.

Lemma lower_idem s : lower (lower s) = lower s.
Proof.
  induction s as [| c s IH]; simpl; [done |]. by rewrite lower_ascii_idem, IH.
Qed.

Lemma split_parts_lower s :
  lower s = s -> Forall (fun part => lower part = part) (split slash s).
Proof.
  induction s as [| c s IH]; simpl; [by repeat constructor |].
  intros [= Hc Hs]. specialize (IH Hs).
  destruct (Ascii.eqb c slash); [by constructor |].
  destruct (split slash s) as [| part parts]; [by repeat constructor; simpl; rewrite Hc |].
  apply Forall_cons in IH as [Hpart Hparts].
  constructor; [| done]. simpl. by rewrite Hc, Hpart.
Qed.

Lemma split_parts_whole s :
  Forall (fun part => split slash part = [part]) (split slash s).
Proof.
  induction s as [| c s IH]; simpl; [by repeat constructor |].
  destruct (Ascii.eqb c slash) eqn:Hc; [by constructor |].
  destruct (split slash s) as [| part parts].
  - repeat constructor. simpl. by rewrite Hc.
  - apply Forall_cons in IH as [Hpart Hparts].
    constructor; [| done]. simpl. by rewrite Hc, Hpart.
Qed.

(** The parts of a lower-cased path are plain names. *)
Lemma split_lower_plain p :
  Forall (fun part => plain part = true) (split slash (lower p)).
Proof.
  pose proof (split_parts_lower (lower p) (lower_idem p)) as Hl.
  pose proof (split_parts_whole (lower p)) as Hw.
  rewrite Forall_forall in Hl, Hw. apply Forall_forall. intros part Hin.
  apply plain_spec. auto.
Qed.

Section Invariant.
Context {W : Type}.
Implicit Types (node : TreeNode W) (st : State W) (inst : Network W).

Lemma well_named_intro (route : Route W) (childs : list (string * TreeNode W)) :
  NoDup childs.*1 ->
  Forall (fun kc => kc.1 = name (value kc.2) /\ plain kc.1 = true
                    /\ well_named kc.2 = true) childs ->
  well_named (mkTreeNode route childs) = true.
Proof.
  intros Hnd Hall. simpl. apply andb_true_iff. split; [by apply bool_decide_eq_true |].
  clear Hnd. induction Hall as [| [k child] rest (Hk & Hp & Hw) _ IH]; [done |].
  simpl in *. rewrite Hp, Hw, IH. subst k. by rewrite String.eqb_refl.
Qed.

Lemma dict_get_elem_of {A} k (v : A) d : dict_get k d = Some v -> (k, v) ∈ d.
Proof.
  induction d as [| [k' v'] rest IH]; simpl; [done |].
  destruct (String.eqb k k') eqn:E.
  - apply String.eqb_eq in E. intros [= ->]. subst. apply elem_of_cons. by left.
  - intros H. apply elem_of_cons. right. by apply IH.
Qed.

Lemma elem_of_dict_set_keys {A} k (v : A) d x :
  x ∈ (dict_set k v d).*1 -> x = k \/ x ∈ d.*1.
Proof.
  induction d as [| [k' v'] rest IH]; simpl.
  - intros ->%list_elem_of_singleton. by left.
  - destruct (String.eqb k k') eqn:E; simpl.
    + apply String.eqb_eq in E. subst k'. rewrite !elem_of_cons. tauto.
    + rewrite !elem_of_cons. intros [-> | Hin]; [tauto |].
      destruct (IH Hin); tauto.
Qed.

Lemma NoDup_dict_set {A} k (v : A) d : NoDup d.*1 -> NoDup (dict_set k v d).*1.
Proof.
  induction d as [| [k' v'] rest IH]; simpl.
  - intros _. apply NoDup_singleton.
  - rewrite NoDup_cons. intros [Hk Hnd].
    destruct (String.eqb k k') eqn:E; simpl.
    + apply String.eqb_eq in E. subst k'. by apply NoDup_cons.
    + apply NoDup_cons. split; [| by apply IH].
      intros [-> | Hin]%elem_of_dict_set_keys; [| done].
      by rewrite String.eqb_refl in E.
Qed.

Lemma Forall_dict_set {A} (P : string * A -> Prop) k (v : A) d :
  P (k, v) -> Forall P d -> Forall P (dict_set k v d).
Proof.
  intros Hkv. induction 1 as [| [k' v'] rest Hx Hrest IH]; simpl.
  - by repeat constructor.
  - destruct (String.eqb k k'); by constructor.
Qed.

(** Storing a well-named child under its plain name keeps a tree well named. *)
Lemma well_named_dict_set (route : Route W) childs k (child : TreeNode W) :
  well_named (mkTreeNode route childs) = true ->
  k = name (value child) -> plain k = true -> well_named child = true ->
  well_named (mkTreeNode route (dict_set k child childs)) = true.
Proof.
  intros Hwf Hk Hp Hw. apply well_named_children in Hwf as [Hnd Hall].
  apply well_named_intro; [by apply NoDup_dict_set | by apply Forall_dict_set].
Qed.

Lemma well_named_child node k child :
  well_named node = true -> getChild node k = Some child ->
  k = name (value child) /\ plain k = true /\ well_named child = true.
Proof.
  destruct node as [route childs]. intros Hwf Hget.
  apply well_named_children in Hwf as [_ Hall].
  apply dict_get_elem_of in Hget. rewrite Forall_forall in Hall.
  apply (Hall _ Hget).
Qed.

Lemma well_named_leaf (route : Route W) : well_named (mkTreeNode route []) = true.
Proof. apply well_named_intro; constructor. Qed.

(** [walk] keeps a tree well named when the parts it may have to create
    are plain, and the node it gives is the node at the path. *)
Lemma walk_well_named createMissing p : forall parts currentPath node st node' target st',
  Forall (fun part => plain part = true) parts ->
  well_named node = true ->
  walk createMissing p currentPath parts node st = (Ok (node', target), st') ->
  well_named node' = true /\ value node' = value node
  /\ node_at parts node' = Some target /\ instance st' = instance st.
Proof.
  induction parts as [| part parts IH]; intros currentPath node st node' target st' Hp Hwf.
  - simpl. by intros [= <- <- <-].
  - apply Forall_cons in Hp as [Hpart Hparts]. cbn -[new_Route].
    destruct (getChild node part) as [next|] eqn:Hget.
    + destruct (well_named_child _ _ _ Hwf Hget) as (Hk & _ & Hnext).
      unfold bind.
      destruct (walk createMissing p _ parts next st) as [[[n' t] | err] st1] eqn:Hwalk;
        [| done].
      intros [= <- <- <-].
      destruct (IH _ _ _ _ _ _ Hparts Hnext Hwalk) as (Hwf' & Hval & Hat & Hinst).
      destruct node as [route childs]. cbn [value children] in *.
      split; [| split; [done | split; [| done]]].
      * apply well_named_dict_set; [done | by rewrite Hval | done | done].
      * cbn [node_at]. unfold getChild. cbn [children].
        by rewrite dict_get_set_eq.
    + destruct createMissing; [| done]. cbn -[new_Route]. unfold bind at 1.
      cbn -[new_Route]. unfold bind at 1.
      match goal with
      | |- context [new_Route ?a ?b ?c ?d ?e ?s] =>
          destruct (new_Route_spec a b c d e s) as (r & st1 & Hnew & Hinst1);
          rewrite Hnew
      end.
      unfold bind.
      match goal with
      | |- context [walk true p ?cp parts ?leaf st1] =>
          destruct (walk true p cp parts leaf st1) as [[[n' t] | err] st2] eqn:Hwalk;
          [| done]
      end.
      intros [= <- <- <-].
      destruct (IH _ _ _ _ _ _ Hparts (well_named_leaf _) Hwalk)
        as (Hwf' & Hval & Hat & Hinst).
      destruct node as [route childs]. unfold addChild.
      cbn [value children name] in *. rewrite Hval. cbn [value children name].
      split; [| split; [done | split]].
      * apply well_named_dict_set; [done | by rewrite Hval | done | done].
      * cbn [node_at]. unfold getChild. cbn [children].
        by rewrite dict_get_set_eq.
      * by rewrite Hinst, Hinst1.
Qed.

Lemma node_at_well_named loc : forall node target,
  well_named node = true -> node_at loc node = Some target ->
  well_named target = true.
Proof.
  induction loc as [| part loc IH]; intros node target Hwf; simpl.
  - by intros [= <-].
  - destruct (getChild node part) as [child|] eqn:Hget; [| done].
    apply IH. by destruct (well_named_child _ _ _ Hwf Hget) as (_ & _ & ?).
Qed.

Lemma value_update_at loc (f : TreeNode W -> TreeNode W) node :
  (forall n, value (f n) = value n) ->
  value (update_at loc f node) = value node.
Proof.
  intros Hf. destruct loc as [| part loc]; simpl; [apply Hf |].
  by destruct (getChild node part).
Qed.

Lemma update_at_well_named loc (f : TreeNode W -> TreeNode W) : forall node target,
  (forall n, value (f n) = value n) ->
  well_named node = true -> node_at loc node = Some target ->
  well_named (f target) = true ->
  well_named (update_at loc f node) = true.
Proof.
  induction loc as [| part loc IH]; intros node target Hf Hwf; simpl.
  - by intros [= <-].
  - destruct (getChild node part) as [child|] eqn:Hget; [| done].
    intros Hat Hft.
    destruct (well_named_child _ _ _ Hwf Hget) as (Hk & Hp & Hchild).
    destruct node as [route childs]. cbn [value children] in *.
    apply well_named_dict_set; [done | | done | by eapply IH].
    by rewrite value_update_at.
Qed.

Lemma traversePath_keeps_tree createMissing st inst p loc target st' :
  instance st = Some inst ->
  registry_tree inst ->
  traversePath p createMissing st = (Ok (loc, target), st') ->
  exists inst',
    instance st' = Some inst' /\ registry_tree inst'
    /\ node_at loc (tree inst') = Some target.
Proof.
  intros Hinst [Hroot Hwf].
  unfold traversePath, traversePath_, instance_or_start, bind, get.
  cbn -[walk]. rewrite Hinst. unfold ret at 1. cbn -[walk].
  pose proof (split_lower_plain p) as Hplain.
  destruct (split slash (lower p)) as [| h parts]; [done |].
  apply Forall_cons in Hplain as [_ Hparts]. cbn -[walk].
  case_bool_decide; [| done]. cbn -[walk].
  destruct parts as [| part parts].
  - cbn -[walk]. case_bool_decide; [| done]. cbn. intros [= <- <- <-].
    by exists inst.
  - cbn -[walk].
    destruct (walk createMissing (lower p) "root" (part :: parts) (tree inst) st)
      as [[[n' t] | err] st1] eqn:Hwalk; [| done].
    unfold modify_instance, modify, ret. cbn -[walk]. intros [= <- <- <-].
    destruct (walk_well_named _ _ _ _ _ _ _ _ _ Hparts Hwf Hwalk)
      as (Hwf' & Hval & Hat & Hinst').
    rewrite Hinst', Hinst. cbn -[walk].
    eexists. split; [reflexivity |]. split; [| done].
    split; [| done]. cbn. by rewrite Hval.
Qed.

(** Registering a route with a plain end point keeps the tree of the
    registry well named. *)
Lemma NewRoute_keeps_tree st inst p (rp : RouteParam W) st' :
  instance st = Some inst ->
  registry_tree inst ->
  plain (endPoint rp) = true ->
  NewRoute p rp st = (Ok tt, st') ->
  exists inst', instance st' = Some inst' /\ registry_tree inst'.
Proof.
  intros Hinst Htree Hplain. unfold NewRoute, NewRoute_, bind.
  fold (@traversePath W).
  destruct (traversePath p true st) as [[[loc target] | err] st1] eqn:Htrav; [| done].
  destruct (traversePath_keeps_tree _ _ _ _ _ _ _ Hinst Htree Htrav)
    as (inst1 & Hinst1 & [Hroot Hwf] & Hat).
  cbn -[new_Route]. destruct (getChild target (endPoint rp)); [done |].
  destruct (new_Route_spec p (endPoint rp) (rp_secure rp) (rp_remoteType rp)
              (rp_middleware rp) st1) as (r & st2 & Hnew & Hinst2).
  rewrite Hnew. unfold modify_instance, modify. cbn. intros [= <-].
  rewrite Hinst2, Hinst1. cbn. eexists. split; [reflexivity |].
  split; cbn.
  - by rewrite value_update_at.
  - eapply update_at_well_named; [done | done | exact Hat |].
    pose proof (node_at_well_named _ _ _ Hwf Hat) as Htarget.
    destruct target as [route childs]. unfold addChild. cbn [value children name].
    apply well_named_dict_set; [done | done | done | apply well_named_leaf].
Qed.

(** Editing a route keeps the tree of the registry well named: the end
    point names a child that is there already. *)
Lemma EditRoute_keeps_tree st inst p (rp : RouteParam W) st' :
  instance st = Some inst ->
  registry_tree inst ->
  EditRoute p rp st = (Ok tt, st') ->
  exists inst', instance st' = Some inst' /\ registry_tree inst'.
Proof.
  intros Hinst Htree. unfold EditRoute, EditRoute_, bind, get.
  cbn -[traversePath_ new_Route]. rewrite Hinst, key_in_array_str.
  fold (@traversePath W).
  destruct (traversePath p false st) as [[[loc target] | err] st1] eqn:Htrav; [| done].
  destruct (traversePath_keeps_tree _ _ _ _ _ _ _ Hinst Htree Htrav)
    as (inst1 & Hinst1 & [Hroot Hwf] & Hat).
  cbn -[new_Route].
  destruct (getChild target (endPoint rp)) as [old|] eqn:Hold.
  2: { unfold warn, modify. cbn. intros [= <-]. cbn. by exists inst1. }
  destruct (new_Route_spec p (endPoint rp) (rp_secure rp) (rp_remoteType rp)
              (rp_middleware rp) st1) as (r & st2 & Hnew & Hinst2).
  rewrite Hnew. unfold modify_instance, modify. cbn. intros [= <-].
  rewrite Hinst2, Hinst1. cbn. eexists. split; [reflexivity |].
  pose proof (node_at_well_named _ _ _ Hwf Hat) as Htarget.
  destruct (well_named_child _ _ _ Htarget Hold) as (_ & Hplain & Hwold).
  split; cbn.
  - by rewrite value_update_at.
  - eapply update_at_well_named; [done | done | exact Hat |].
    destruct target as [route childs]. cbn [value children].
    apply well_named_dict_set; [done | done | done |].
    destruct old as [oroute ochilds]. cbn [children].
    apply well_named_children in Hwold as [Hnd Hall].
    by apply well_named_intro.
Qed.

(** [start] builds a registry tree. *)
Lemma start_builds_tree (w : W) :
  exists inst,
    instance (start (initial_state w)).2 = Some inst /\ registry_tree inst.
Proof.
  eexists. split; [vm_compute; reflexivity |].
  split; vm_compute; reflexivity.
Qed.

End Invariant.

(** ** The registry as a whole *)

Section Registry.
Context {W : Type}.
Implicit Types (st : State W) (inst : Network W) (player : Player).

(** [start] never reaches the [start] of its own calls. *)
Lemma start_with_inner (inner1 inner2 : M W unit) st :
  start_with inner1 st = start_with inner2 st.
Proof.
  unfold start_with, bind, get. simpl.
  destruct (instance st) eqn:Hinst; [reflexivity |].
  vm_compute. reflexivity.
Qed.

Lemma clear_log_clears player (route : Route W) mw logs :
  middleware route = Some mw -> cleared player (clear_log player route logs) mw.
Proof.
  intros Hmw. unfold cleared, clear_log. rewrite Hmw.
  rewrite lookup_insert_eq. simpl. apply lookup_delete_eq.
Qed.

Lemma clear_log_keeps player (route : Route W) (mw : Middleware W) logs :
  cleared player logs mw -> cleared player (clear_log player route logs) mw.
Proof.
  unfold cleared, clear_log. intros Hc.
  destruct (middleware route) as [mw'|]; [| done].
  destruct (decide (mw_id mw' = mw_id mw)) as [Heq | Hne].
  - rewrite Heq, lookup_insert_eq. simpl. apply lookup_delete_eq.
  - by rewrite lookup_insert_ne.
Qed.

(** What the session-end handler does reach: every route of the record. *)
Lemma PlayerRemoving_clears_record st inst player k route mw :
  instance st = Some inst ->
  playerRemoving_connected st = true ->
  record inst !! k = Some route ->
  middleware route = Some mw ->
  log_of (PlayerRemoving_fire player st).2 mw !! UserId player = None.
Proof.
  intros Hinst Hconn Hrec Hmw.
  unfold PlayerRemoving_fire, bind, get. simpl. rewrite Hconn, Hinst. simpl.
  unfold log_of. simpl. fold (cleared player
    (clear_logs_of_record player (record inst) (mw_logs st)) mw).
  unfold clear_logs_of_record.
  apply elem_of_map_to_list in Hrec.
  induction (map_to_list (record inst)) as [| [k' r'] rest IH]; simpl.
  - by apply elem_of_nil in Hrec.
  - apply elem_of_cons in Hrec as [[= <- <-] | Hin].
    + by apply clear_log_clears.
    + apply clear_log_keeps. by apply IH.
Qed.

(** C3, on the code. The guard of [EditRoute] never holds: a path is a
    string, and the keys of the array [unEditableRoutes] are numbers. On a
    started registry, editing the end point get-tree under root/network
    therefore succeeds without a warning and puts a new Route (another
    remote, here an event without middleware) at root/network/get-tree,
    although that address is in [unEditableRoutes]. *)
Theorem EditRoute_replaces_get_tree (w : W) :
  let st := (start (initial_state w)).2 in
  let rp := {| endPoint := "get-tree"; rp_secure := true;
               rp_remoteType := REvent; rp_middleware := None |} in
  let r := EditRoute "root/network" rp st in
  (unEditableRoutes <$> instance st) = Some ["root/network/get-tree"%string]
  /\ route_at "root/network/get-tree" st
     = Some {| path := "root/network"; name := "get-tree"; secure := true;
               remoteType := RFunction;
               middleware := Some {| mw_id := 2; clientSideCooldown := 5;
                                     middlewares := [] |};
               remote := 4%nat |}
  /\ r.1 = Ok tt
  /\ output r.2 = []
  /\ route_at "root/network/get-tree" r.2
     = Some {| path := "root/network"; name := "get-tree"; secure := true;
               remoteType := REvent; middleware := None; remote := 6%nat |}.
Proof. vm_compute. repeat split. Qed.

(** C4, on the code. The session-end handler walks the record, and
    [getRoute] never puts the root route there. After a peer has used a
    listener connected on the path root, its entry in the log of the root
    middleware is still there once [PlayerRemoving] has fired. *)
Theorem root_log_survives_PlayerRemoving (w : W) (no_listener : M W unit) :
  let player := {| UserId := 7; Name := "peer" |} in
  let handler : Callback W := fun _ _ w' => (Returns VUndefined, w') in
  let st1 := (start (initial_state w)).2 in
  let connected := OnEvent Connect "root" handler st1 in
  let arrived := OnServerEvent_fire no_listener 1%nat player [] 0 connected.2 in
  let left := PlayerRemoving_fire player arrived.2 in
  playerRemoving_connected st1 = true
  /\ (middleware <$> route_at "root" st1) = Some ROOT_ROUTE_MIDDLEWARE
  /\ (remote <$> route_at "root" st1) = Some 1%nat
  /\ connected.1 = Ok tt /\ arrived.1 = Ok tt /\ left.1 = Ok tt
  /\ (forall mw, ROOT_ROUTE_MIDDLEWARE = Some mw ->
        log_of left.2 mw !! 7%Z = Some {| lastUse := 0 |}).
Proof.
  vm_compute. repeat split. intros mw [= <-]. reflexivity.
Qed.

End Registry.

(** ** The properties at work on concrete registries *)

(** With a cooldown of 5: the call at 0 passes and records 0, the call at 3
    is refused and leaves the state as it is, the call at 6 passes and
    records 6. *)
Lemma execute_cooldown_witness :
  let first := execute five_seconds peer 0 [] fresh in
  let second := execute five_seconds peer 3 [] first.2 in
  let third := execute five_seconds peer 6 [] second.2 in
  (first.1 = Ok true /\ world first.2 = [1%nat]
   /\ log_of first.2 five_seconds !! 42%Z = Some {| lastUse := 0 |})
  /\ second = (Ok false, first.2)
  /\ (third.1 = Ok true /\ world third.2 = [1%nat; 1%nat]
      /\ log_of third.2 five_seconds !! 42%Z = Some {| lastUse := 6 |}).
Proof.
  set (first := execute five_seconds peer 0 [] fresh).
  destruct (execute_cooldown five_seconds peer 0 [] fresh) as (H1 & _ & _).
  destruct (execute_cooldown five_seconds peer 3 [] first.2) as (_ & H2 & _).
  destruct (execute_cooldown five_seconds peer 6 [] first.2) as (_ & _ & H3).
  assert (Hsecond : execute five_seconds peer 3 [] first.2 = (Ok false, first.2)).
  { apply (H2 {| lastUse := 0 |}); [vm_compute; reflexivity | reflexivity]. }
  cbv zeta. rewrite Hsecond. split; [| split; [reflexivity |]].
  - apply H1. vm_compute. reflexivity.
  - apply (H3 {| lastUse := 0 |}); [vm_compute; reflexivity |].
    unfold Qle. simpl. lia.
Defined.

(** A callback that raises at 0 still starts the cooldown: the call at 3 is
    refused by the cooldown check, no callback running. *)
Lemma rejected_call_consumes_cooldown_witness :
  let rejected := execute strict peer 0 [] fresh in
  rejected.1 = Ok false
  /\ world rejected.2 = [1%nat; 2%nat]
  /\ log_of rejected.2 strict !! 42%Z = Some {| lastUse := 0 |}
  /\ execute strict peer 3 [VNum 1] rejected.2 = (Ok false, rejected.2).
Proof.
  destruct (rejected_call_consumes_cooldown strict peer 0 [] fresh (VStr "string!!!"))
    as (Hfalse & Hlog & Hnext).
  - left. vm_compute. reflexivity.
  - vm_compute. reflexivity.
  - cbv zeta. split; [exact Hfalse |]. split; [vm_compute; reflexivity |].
    split; [exact Hlog |]. apply Hnext. reflexivity.
Defined.

(** The listener of a route whose middleware refuses: the handler (which
    would note 7) does not run and the listener ends normally. *)
Lemma rejection_is_silent_witness :
  middleware (conn_route guarded_listener) = Some strict
  /\ (listener guarded_listener peer [] 0 fresh).1 = Ok tt
  /\ world (listener guarded_listener peer [] 0 fresh).2 = [1%nat; 2%nat].
Proof.
  destruct (rejection_is_silent guarded_listener peer [] 0 fresh strict eq_refl)
    as [_ Hsilent].
  split; [reflexivity |].
  rewrite Hsilent by (vm_compute; reflexivity).
  split; [reflexivity | vm_compute; reflexivity].
Defined.

(** Editing root/a: root/a/b is traversed as before, to the same node. *)
Lemma EditRoute_preserves_descendants_witness :
  exists st' target,
    traversePath "root/a/b" false with_a_b = (Ok (["a"; "b"]%string, target), with_a_b)
    /\ EditRoute "root" {| endPoint := "a"; rp_secure := true;
                           rp_remoteType := RFunction;
                           rp_middleware := Some five_seconds |} with_a_b
       = (Ok tt, st')
    /\ traversePath "root/a/b" false st' = (Ok (["a"; "b"]%string, target), st').
Proof.
  eassert (Hinst : instance with_a_b = Some _) by (vm_compute; reflexivity).
  eassert (Hbefore : traversePath "root/a/b" false with_a_b
                     = (Ok (["a"; "b"]%string, _), with_a_b))
    by (vm_compute; reflexivity).
  epose proof (EditRoute_preserves_descendants with_a_b _ "root"
                 {| endPoint := "a"; rp_secure := true; rp_remoteType := RFunction;
                    rp_middleware := Some five_seconds |} [] _ _ Hinst
                 eq_refl eq_refl eq_refl)
    as (st' & inst' & route & Hedit & _ & _ & _ & _ & _ & Hpaths).
  eexists st', _. split; [exact Hbefore |]. split; [exact Hedit |].
  apply (Hpaths "root/a/b"%string "b"%string []); [reflexivity | exact Hbefore].
Defined.

(** The tree of a started registry with the routes a and a/b: five routes,
    five entries, each key resolved by [traversePath]. *)
Lemma flatten_resolvable_witness :
  exists inst,
    instance with_a_b = Some inst
    /\ size (depthFirstSearch (tree inst) EmptyString ∅) = 5%nat
    /\ forall key info,
         depthFirstSearch (tree inst) EmptyString ∅ !! key = Some info ->
         exists loc node,
           traversePath key false with_a_b = (Ok (loc, node), with_a_b)
           /\ info = route_info (value node).
Proof.
  eassert (Hinst : instance with_a_b = Some _) by (vm_compute; reflexivity).
  eexists. split; [exact Hinst |].
  edestruct (flatten_resolvable with_a_b _ Hinst) as [Hsize Hkeys];
    [split; vm_compute; reflexivity |].
  split; [| exact Hkeys].
  rewrite Hsize. vm_compute. reflexivity.
Defined.

(** C7, on the code. Addresses are meant without regard to case:
    [traversePath] lower-cases every path it is given, and so names in lower
    case the nodes it creates; [NewRoute] stores the end point as it is
    given. After [NewRoute("root", Shop)] the tree has four routes and the
    table four entries, the one of the route Shop under the key root/Shop;
    [traversePath] turns that key into root/shop and finds nothing. Nor
    does [NewRoute("root/Shop", x)] reach the route Shop: it makes a second
    node, shop, beside it, and puts x below that one. *)
Theorem flatten_key_unresolvable :
  (routes_in with_Shop = 4%nat /\ size (flatten with_Shop) = 4%nat)
  /\ ((name <$> place_at ["Shop"%string] with_Shop) = Some "Shop"%string
      /\ flatten with_Shop !! "root/Shop"%string
         = route_info <$> place_at ["Shop"%string] with_Shop)
  /\ ((traversePath "root/Shop" false with_Shop).1
      = Throw (VStr "Route 'shop' does not exist in 'root/shop'")
      /\ route_at "root/Shop" with_Shop = None)
  /\ ((NewRoute "root/Shop" (plain_route "x") with_Shop).1 = Ok tt
      /\ routes_in with_Shop_x = 6%nat
      /\ (name <$> place_at ["Shop"%string] with_Shop_x) = Some "Shop"%string
      /\ (name <$> place_at ["shop"%string] with_Shop_x) = Some "shop"%string
      /\ place_at ["Shop"; "x"]%string with_Shop_x = None
      /\ (name <$> place_at ["shop"; "x"]%string with_Shop_x) = Some "x"%string).
Proof.
  split; [split; vm_compute; reflexivity |].
  split; [split; vm_compute; reflexivity |].
  split; [split; vm_compute; reflexivity |].
  repeat split; vm_compute; reflexivity.
Qed.

(** Names are not checked for slashes either: the end point a/b under root
    and the end point b under root/a get the same key, so that six routes
    give five entries. *)
Lemma slash_names_collide :
  routes_in with_slash = 6%nat /\ size (flatten with_slash) = 5%nat.
Proof. split; vm_compute; reflexivity. Qed.

End ServerSpec.

(** * Properties of the peer registry *)

Module ClientSpec.
Import ClientNetwork.

Lemma budget_S n : budget (S n) == budget n + (1 # 10).
Proof.
  unfold budget. rewrite Nat2Z.inj_succ. unfold Z.succ.
  rewrite inject_Z_plus. ring.
Qed.

Lemma budget_mono n m : (n <= m)%nat -> budget n <= budget m.
Proof.
  intros Hle. unfold budget.
  assert (inject_Z (Z.of_nat n) <= inject_Z (Z.of_nat m)).
  { rewrite <- Zle_Qle. lia. }
  lra.
Qed.

Lemma budget_reach (q : Q) : exists n, q <= budget n.
Proof.
  destruct (Qarchimedean (q * 10)) as [p Hp].
  exists (Pos.to_nat p). unfold budget. rewrite positive_nat_Z.
  change (inject_Z (Z.pos p)) with (Z.pos p # 1). lra.
Qed.

Section Peer.
Context {Callback : Type}.
Implicit Types (st : State Callback) (env : Env) (result : Value).

Lemma wait_spec env c result st :
  wait_ env c result st = (Done (wait_value env c result st), wait_state env c st).
Proof.
  unfold wait_, wait_value, wait_state, bind, get, modify. simpl.
  destruct (arrival (env (ticks st))); [| reflexivity].
  destruct (listeners st !! c); reflexivity.
Qed.

Lemma poll_unfold fuel env (startTime waitTime : Q) c result st :
  poll fuel env startTime waitTime c result st
  = if (Qlt_bool (clock st - startTime) waitTime && is_undefined result)%bool
    then match fuel with
         | O => (OutOfFuel, st)
         | S fuel' =>
             poll fuel' env startTime waitTime c
               (wait_value env c result st) (wait_state env c st)
         end
    else (Done result, st).
Proof.
  destruct fuel; simpl; unfold bind, get; simpl;
    destruct (Qlt_bool (clock st - startTime) waitTime && is_undefined result)%bool;
    try reflexivity.
  by rewrite wait_spec.
Qed.

(** What a wait leaves alone. *)
Lemma wait_state_frame env c st :
  instance (wait_state env c st) = instance st
  /\ sent (wait_state env c st) = sent st
  /\ next_conn (wait_state env c st) = next_conn st
  /\ remote_class (wait_state env c st) = remote_class st
  /\ clock (wait_state env c st) = clock st + elapsed (env (ticks st))
  /\ (forall c', c' <> c ->
        listeners (wait_state env c st) !! c' = listeners st !! c').
Proof.
  unfold wait_state.
  destruct (arrival (env (ticks st))); [| simpl; tauto].
  destruct (listeners st !! c) eqn:E; simpl; [| tauto].
  repeat split; try reflexivity. intros c' Hne. by apply lookup_delete_ne.
Qed.

Lemma wait_value_silent env c st :
  silent env -> wait_value env c VUndefined st = VUndefined.
Proof.
  intros Hs. unfold wait_value.
  destruct (Hs (ticks st)) as [-> | ->]; [done |].
  by destruct (listeners st !! c).
Qed.

(** The polling loop ends once the waits have filled [waitTime]; with no
    reply of value it ends only then, and with undefined. *)
Lemma poll_done env (startTime waitTime : Q) c :
  paced env ->
  forall fuel result st,
    waitTime - (clock st - startTime) <= budget fuel ->
    exists v st',
      poll fuel env startTime waitTime c result st = (Done v, st')
      /\ instance st' = instance st
      /\ sent st' = sent st
      /\ next_conn st' = next_conn st
      /\ remote_class st' = remote_class st
      /\ (forall c', c' <> c -> listeners st' !! c' = listeners st !! c')
      /\ (silent env -> result = VUndefined ->
          v = VUndefined /\ waitTime <= clock st' - startTime).
Proof.
  intros Hpaced. induction fuel as [| fuel IH]; intros result st Hbudget;
    rewrite poll_unfold;
    destruct (Qlt_bool (clock st - startTime) waitTime && is_undefined result)%bool
      eqn:Hcond.
  - apply andb_true_iff in Hcond as [Hlt _]. apply Qlt_bool_true in Hlt.
    change (budget 0) with (0 * (1 # 10)) in Hbudget. lra.
  - exists result, st. do 6 (split; [done |]).
    intros _ ->. split; [done |]. simpl in Hcond. rewrite andb_true_r in Hcond.
    by apply Qlt_bool_false in Hcond.
  - destruct (wait_state_frame env c st) as (Hi & Hs & Hn & Hr & Hclock & Hl).
    destruct (IH (wait_value env c result st) (wait_state env c st))
      as (v & st' & Hpoll & Hi' & Hs' & Hn' & Hr' & Hl' & Hsil).
    { rewrite Hclock. pose proof (Hpaced (ticks st)). pose proof (budget_S fuel). lra. }
    exists v, st'. split; [exact Hpoll |].
    split; [congruence |]. split; [congruence |]. split; [congruence |].
    split; [congruence |].
    split; [intros c' Hne; rewrite Hl', Hl; done |].
    intros Hsilent ->. apply Hsil; [done |]. by apply wait_value_silent.
  - exists result, st. do 6 (split; [done |]).
    intros _ ->. split; [done |]. simpl in Hcond. rewrite andb_true_r in Hcond.
    by apply Qlt_bool_false in Hcond.
Qed.

Lemma requested_frame route routeInfo args st :
  clock (requested route routeInfo args st) = clock st
  /\ next_conn (requested route routeInfo args st) = S (next_conn st)
  /\ forall c', c' <> next_conn st ->
       listeners (requested route routeInfo args st) !! c' = listeners st !! c'.
Proof.
  unfold requested, FireServer_remote, bind, get. simpl.
  destruct (remote_class st !! sri_remote routeInfo) as [[]|]; simpl;
    (split; [reflexivity |]; split; [reflexivity |];
     intros c' Hne; by rewrite lookup_insert_ne).
Qed.

Lemma InvokeServer_ready fuel env route (waitTime : Q) args st inst routeInfo :
  ready st inst route routeInfo ->
  InvokeServer fuel env route waitTime args st
  = match poll fuel env (clock st) waitTime (next_conn st) VUndefined
            (requested route routeInfo args st) with
    | (Done v, st') => (Done v, detach (next_conn st) st')
    | (Thrown err, st') => (Thrown err, st')
    | (OutOfFuel, st') => (OutOfFuel, st')
    end.
Proof.
  intros (Hinst & Hroute & Htype & Hcool).
  unfold InvokeServer, getRoute, bind, get.
  repeat (cbn -[poll]; rewrite ?Hinst, ?Hroute).
  rewrite (bool_decide_eq_true_2 _ Htype), Hcool.
  unfold requested, FireServer_remote, bind, get. cbn -[poll].
  destruct (remote_class st !! sri_remote routeInfo) as [[]|]; cbn -[poll];
    destruct (poll _ _ _ _ _ _ _) as [[v | err |] st']; reflexivity.
Qed.

(** A call that does not pass the checks throws, whatever the surroundings. *)
Lemma InvokeServer_cases route (waitTime : Q) args st :
  (exists inst routeInfo, ready st inst route routeInfo)
  \/ (exists err, forall fuel env,
        InvokeServer fuel env route waitTime args st = (Thrown err, st)).
Proof.
  unfold ready.
  destruct (instance st) as [inst|] eqn:Hinst.
  2: { right. eexists. intros fuel env. unfold InvokeServer, bind, get. simpl.
       rewrite Hinst. reflexivity. }
  destruct (routingTable inst !! route) as [routeInfo|] eqn:Hroute.
  2: { right. eexists. intros fuel env.
       unfold InvokeServer, getRoute, bind, get.
       repeat (cbn -[poll]; rewrite ?Hinst, ?Hroute). reflexivity. }
  destruct (decide (sri_remoteType routeInfo = RFunction)) as [Htype | Htype].
  2: { right. eexists. intros fuel env.
       unfold InvokeServer, getRoute, bind, get.
       repeat (cbn -[poll]; rewrite ?Hinst, ?Hroute).
       rewrite (bool_decide_eq_false_2 _ Htype). reflexivity. }
  destruct (on_cooldown inst route routeInfo (clock st)) eqn:Hcool.
  { right. eexists. intros fuel env.
    unfold InvokeServer, getRoute, bind, get.
    repeat (cbn -[poll]; rewrite ?Hinst, ?Hroute).
    rewrite (bool_decide_eq_true_2 _ Htype), Hcool. reflexivity. }
  left. by exists inst, routeInfo.
Qed.

Lemma detach_wait_state env c st :
  detach c (wait_state env c st)
  = with_time (clock st + elapsed (env (ticks st))) (S (ticks st)) (detach c st).
Proof.
  unfold wait_state.
  destruct (arrival (env (ticks st))); [| reflexivity].
  destruct (listeners st !! c); [| reflexivity].
  unfold detach, with_listeners, with_time. simpl. by rewrite delete_delete_eq.
Qed.

(** With no reply of value, the loop goes the same way whether undefined
    replies arrive or nothing does; the states agree but for the one-shot
    listener, which an undefined reply uses up early. *)
Lemma poll_silent_sim e1 e2 (startTime waitTime : Q) c :
  (forall i, elapsed (e1 i) = elapsed (e2 i)) ->
  silent e1 -> silent e2 ->
  forall fuel st1 st2,
    detach c st1 = detach c st2 ->
    (poll fuel e1 startTime waitTime c VUndefined st1).1
    = (poll fuel e2 startTime waitTime c VUndefined st2).1
    /\ detach c (poll fuel e1 startTime waitTime c VUndefined st1).2
       = detach c (poll fuel e2 startTime waitTime c VUndefined st2).2.
Proof.
  intros Hel Hs1 Hs2. induction fuel as [| fuel IH]; intros st1 st2 Hst;
    rewrite (poll_unfold _ e1), (poll_unfold _ e2);
    assert (Hclock : clock st1 = clock st2) by exact (f_equal clock Hst);
    assert (Hticks : ticks st1 = ticks st2) by exact (f_equal ticks Hst);
    rewrite Hclock;
    destruct (Qlt_bool (clock st2 - startTime) waitTime && is_undefined VUndefined)%bool;
    try done.
  rewrite !wait_value_silent by done. apply IH.
  rewrite !detach_wait_state. by rewrite Hst, Hclock, Hticks, Hel.
Qed.

Lemma poll_never_throws fuel env (startTime waitTime : Q) c : forall result st err,
  (poll fuel env startTime waitTime c result st).1 <> Thrown err.
Proof.
  induction fuel as [| fuel IH]; intros result st err; rewrite poll_unfold;
    destruct (Qlt_bool (clock st - startTime) waitTime && is_undefined result)%bool;
    try done; apply IH.
Qed.

(** A call that passes the checks ends once the waits have filled
    [waitTime]; its one-shot listener is gone then and the other listeners
    are as they were; with no reply of value the answer is undefined and
    [waitTime] has gone by. *)
Lemma InvokeServer_done env route (waitTime : Q) args st inst routeInfo fuel :
  ready st inst route routeInfo ->
  paced env ->
  waitTime <= budget fuel ->
  exists v st',
    InvokeServer fuel env route waitTime args st = (Done v, st')
    /\ listeners st' !! next_conn st = None
    /\ (forall c', c' <> next_conn st -> listeners st' !! c' = listeners st !! c')
    /\ (silent env -> v = VUndefined /\ waitTime <= clock st' - clock st).
Proof.
  intros Hready Hpaced Hbudget.
  rewrite (InvokeServer_ready _ _ _ _ _ _ _ _ Hready).
  destruct (requested_frame route routeInfo args st) as (Hclock & _ & Hl).
  destruct (poll_done env (clock st) waitTime (next_conn st) Hpaced fuel VUndefined
              (requested route routeInfo args st))
    as (v & st' & Hpoll & _ & _ & _ & _ & Hl' & Hsil).
  { rewrite Hclock. lra. }
  rewrite Hpoll. exists v, (detach (next_conn st) st').
  split; [reflexivity |]. split; [apply lookup_delete_eq |].
  split.
  - intros c' Hne. simpl. rewrite lookup_delete_ne by done.
    rewrite Hl' by done. by apply Hl.
  - intros Hsilent. by apply Hsil.
Qed.

(** Without an instance every call fails at once, with the not-initialized
    error, and changes nothing. *)
Lemma uninitialized_calls_fail st :
  instance st = None ->
  (forall route args,
     FireServer route args st = (Thrown (VStr not_initialized), st))
  /\ (forall eventType route callback,
        OnEvent eventType route callback st = (Thrown (VStr not_initialized), st))
  /\ (forall fuel env route (waitTime : Q) args,
        InvokeServer fuel env route waitTime args st
        = (Thrown (VStr not_initialized), st))
  /\ (forall route, Disconnect route st = (Thrown (VStr not_initialized), st)).
Proof.
  intros Hinst. repeat split; intros;
    unfold FireServer, OnEvent, InvokeServer, Disconnect, bind, get; simpl;
    by rewrite Hinst.
Qed.

(** C8 (amended). [InvokeServer] on a request-response route, when the
    call passes the checks made before sending (the registry is started,
    the route is not on cooldown): given enough unrolling of the loop, the
    call returns; its one-shot listener is detached then, whatever arrived,
    and the other listeners are as before; when no reply arrives, what it
    returns is undefined and at least [waitTime] has gone by. *)
Theorem InvokeServer_timeout env route (waitTime : Q) args st inst routeInfo :
  ready st inst route routeInfo ->
  paced env ->
  exists n, forall fuel, (n <= fuel)%nat ->
    exists v st',
      InvokeServer fuel env route waitTime args st = (Done v, st')
      /\ listeners st' !! next_conn st = None
      /\ (forall c', c' <> next_conn st -> listeners st' !! c' = listeners st !! c')
      /\ ((forall i, arrival (env i) = None) ->
          v = VUndefined /\ waitTime <= clock st' - clock st).
Proof.
  intros Hready Hpaced. destruct (budget_reach waitTime) as [n Hn].
  exists n. intros fuel Hfuel.
  destruct (InvokeServer_done env route waitTime args st inst routeInfo fuel)
    as (v & st' & Hcall & Hgone & Hothers & Hsil); [done | done | |].
  { pose proof (budget_mono _ _ Hfuel). lra. }
  exists v, st'. repeat (split; [done |]).
  intros Hnone. apply Hsil. intros i. left. apply Hnone.
Qed.

(** C10. A reply of undefined cannot be told from no reply. For two
    surroundings with the same waits, one where nothing arrives and one
    where the arrivals are undefined: [InvokeServer] has the same outcome
    in both, and the same final state whenever it ends; and when the call
    passes the checks it ends, in both, with undefined, after at least
    [waitTime]. *)
Theorem undefined_reply_is_timeout e_reply e_none route (waitTime : Q) args st :
  (forall i, elapsed (e_reply i) = elapsed (e_none i)) ->
  (forall i, arrival (e_none i) = None) ->
  silent e_reply ->
  (forall fuel,
     let r1 := InvokeServer fuel e_reply route waitTime args st in
     let r2 := InvokeServer fuel e_none route waitTime args st in
     r1.1 = r2.1 /\ (r1.1 <> OutOfFuel -> r1.2 = r2.2))
  /\ (paced e_reply ->
      forall inst routeInfo, ready st inst route routeInfo ->
      exists n, forall fuel, (n <= fuel)%nat ->
        exists st',
          InvokeServer fuel e_reply route waitTime args st = (Done VUndefined, st')
          /\ InvokeServer fuel e_none route waitTime args st = (Done VUndefined, st')
          /\ waitTime <= clock st' - clock st).
Proof.
  intros Hel Hnone Hsilent.
  assert (Hsilent' : silent e_none) by (intros i; left; apply Hnone).
  assert (Hsame : forall fuel,
            let r1 := InvokeServer fuel e_reply route waitTime args st in
            let r2 := InvokeServer fuel e_none route waitTime args st in
            r1.1 = r2.1 /\ (r1.1 <> OutOfFuel -> r1.2 = r2.2)).
  { intros fuel. simpl.
    destruct (InvokeServer_cases route waitTime args st)
      as [(inst & routeInfo & Hready) | (err & Herr)].
    - rewrite !(InvokeServer_ready _ _ _ _ _ _ _ _ Hready).
      destruct (poll_silent_sim e_reply e_none (clock st) waitTime (next_conn st)
                  Hel Hsilent Hsilent' fuel _ _
                  (eq_refl (detach (next_conn st) (requested route routeInfo args st))))
        as [Hout Hst].
      pose proof (poll_never_throws fuel e_reply (clock st) waitTime (next_conn st)
                    VUndefined (requested route routeInfo args st)) as Hnt.
      destruct (poll fuel e_reply _ _ _ _ _) as [[v1 | err1 |] st1];
        destruct (poll fuel e_none _ _ _ _ _) as [[v2 | err2 |] st2];
        simpl in *; try discriminate.
      + injection Hout as <-. split; [done |]. intros _. exact Hst.
      + by destruct (Hnt err1).
      + split; [done |]. by intros [].
    - by rewrite !Herr. }
  split; [exact Hsame |].
  intros Hpaced inst routeInfo Hready.
  destruct (budget_reach waitTime) as [n Hn].
  exists n. intros fuel Hfuel.
  destruct (InvokeServer_done e_reply route waitTime args st inst routeInfo fuel)
    as (v & st' & Hcall & _ & _ & Hsil); [done | done | |].
  { pose proof (budget_mono _ _ Hfuel). lra. }
  destruct (Hsil Hsilent) as [-> Hwait].
  exists st'. split; [exact Hcall |]. split; [| exact Hwait].
  destruct (Hsame fuel) as [Hout Hst]. rewrite Hcall in Hout, Hst. simpl in *.
  destruct (InvokeServer fuel e_none route waitTime args st) as [out st2].
  simpl in *. subst out. f_equal. symmetry. by apply Hst.
Qed.

(** C2. A failed bootstrap leaves the peer registry uninitialized. When
    [start] runs without an instance and no table arrives (nothing, or
    undefined), then, given enough unrolling of the loop, [start] throws the
    bootstrap error and the instance is unset again; in that state
    FireServer, OnEvent, InvokeServer and Disconnect each throw the
    not-initialized error at once and change nothing. *)
Theorem bootstrap_failure_leaves_uninitialized env (initRoute : RemoteId) st :
  instance st = None ->
  paced env ->
  silent env ->
  exists n, forall fuel, (n <= fuel)%nat ->
    exists st',
      start fuel env initRoute st = (Thrown (VStr bootstrap_failed), st')
      /\ instance st' = None
      /\ (forall route args,
            FireServer route args st' = (Thrown (VStr not_initialized), st'))
      /\ (forall eventType route callback,
            OnEvent eventType route callback st'
            = (Thrown (VStr not_initialized), st'))
      /\ (forall fuel' env' route (waitTime : Q) args,
            InvokeServer fuel' env' route waitTime args st'
            = (Thrown (VStr not_initialized), st'))
      /\ (forall route,
            Disconnect route st' = (Thrown (VStr not_initialized), st')).
Proof.
  intros Hinst Hpaced Hsilent. destruct (budget_reach 5) as [n Hn].
  exists n. intros fuel Hfuel.
  set (info := {| sri_remote := initRoute; sri_secure := true;
                  sri_remoteType := RFunction; sri_cooldown := Some 5 |}).
  set (partial := new_Network {[ "root/network/get-tree"%string := info ]}).
  set (st0 := with_instance (Some partial) st).
  assert (Hready : ready st0 partial "root/network/get-tree" info).
  { repeat split. }
  destruct (InvokeServer_done env "root/network/get-tree" 5 [] st0 partial info fuel)
    as (v & st1 & Hcall & _ & _ & Hsil); [done | done | |].
  { pose proof (budget_mono _ _ Hfuel). lra. }
  destruct (Hsil Hsilent) as [-> _].
  exists (with_instance None st1).
  split.
  - unfold start, bind, get. cbn -[InvokeServer]. rewrite Hinst.
    cbn -[InvokeServer]. fold info. fold partial. fold st0. by rewrite Hcall.
  - split; [reflexivity |]. by apply uninitialized_calls_fail.
Qed.

End Peer.

(** ** The properties at work on a concrete peer *)

Lemma paced_quiet : paced quiet.
Proof. intros i. unfold Qle. simpl. lia. Defined.

Lemma paced_hollow : paced hollow.
Proof. intros i. unfold Qle. simpl. lia. Defined.

Lemma ready_booted : ready booted table "root/additions" additions.
Proof. repeat split. Defined.

(** No reply within 0.2: undefined comes back, not before 0.2 has gone by,
    and the listener is detached. *)
Lemma InvokeServer_timeout_witness :
  exists n, forall fuel, (n <= fuel)%nat ->
    exists st',
      InvokeServer fuel quiet "root/additions" (2 # 10) [VNum 5; VNum 100] booted
      = (Done VUndefined, st')
      /\ listeners st' !! 0%nat = None
      /\ 2 # 10 <= clock st' - 0.
Proof.
  destruct (InvokeServer_timeout quiet "root/additions" (2 # 10)
              [VNum 5; VNum 100] booted table additions ready_booted paced_quiet)
    as [n Hn].
  exists n. intros fuel Hfuel.
  destruct (Hn fuel Hfuel) as (v & st' & Hcall & Hgone & _ & Hnone).
  destruct (Hnone (fun _ => eq_refl)) as [-> Hwait].
  exists st'. split; [exact Hcall |]. split; [exact Hgone | exact Hwait].
Defined.

(** C8 as stated fails. The same call made again at once, still without a
    reply, does not return undefined: the route is on cooldown and the call
    throws. *)
Lemma InvokeServer_on_cooldown_throws :
  let first := InvokeServer 5 quiet "root/additions" (2 # 10) [] booted in
  first.1 = Done VUndefined
  /\ (InvokeServer 5 quiet "root/additions" (2 # 10) [] first.2).1
     = Thrown (VStr "Route root/additions is on cooldown").
Proof. vm_compute. split; reflexivity. Qed.

(** Undefined replies and no reply: the same answer, the same state. *)
Lemma undefined_reply_is_timeout_witness :
  exists n, forall fuel, (n <= fuel)%nat ->
    exists st',
      InvokeServer fuel hollow "root/additions" (2 # 10) [] booted
      = (Done VUndefined, st')
      /\ InvokeServer fuel quiet "root/additions" (2 # 10) [] booted
         = (Done VUndefined, st')
      /\ 2 # 10 <= clock st' - 0.
Proof.
  destruct (undefined_reply_is_timeout hollow quiet "root/additions" (2 # 10) []
              booted (fun _ => eq_refl) (fun _ => eq_refl)
              (fun _ => or_intror eq_refl)) as [_ Hends].
  exact (Hends paced_hollow table additions ready_booted).
Defined.

(** A bootstrap that gets no table: [start] throws, and the peer is left
    without an instance, so that a later FireServer fails at once. *)
Lemma bootstrap_failure_leaves_uninitialized_witness :
  exists n, forall fuel, (n <= fuel)%nat ->
    exists st',
      start fuel quiet 0%nat unstarted = (Thrown (VStr bootstrap_failed), st')
      /\ instance st' = None
      /\ FireServer "root/additions" [VNum 1] st'
         = (Thrown (VStr not_initialized), st').
Proof.
  destruct (bootstrap_failure_leaves_uninitialized quiet 0%nat unstarted eq_refl
              paced_quiet (fun _ => or_introl eq_refl)) as [n Hn].
  exists n. intros fuel Hfuel.
  destruct (Hn fuel Hfuel) as (st' & Hstart & Hnone & Hfire & _).
  exists st'. split; [exact Hstart |]. split; [exact Hnone | apply Hfire].
Defined.

End ClientSpec.

(** * Further properties of the host registry *)

Module ServerMore.
Import ServerNetwork ServerSpec.

Section Frames.
Context {W : Type}.
Implicit Types (node : TreeNode W) (st : State W) (inst : Network W).

Lemma same_registry_refl st : same_registry st st.
Proof. by repeat split. Qed.

Lemma same_registry_trans st1 st2 st3 :
  same_registry st1 st2 -> same_registry st2 st3 -> same_registry st1 st3.
Proof.
  intros (?&?&?&?&?&?) (?&?&?&?&?&?). repeat split; congruence.
Qed.

Lemma new_Route_frame p n sec rt (mw : option (Middleware W)) st :
  exists r st1,
    new_Route p n sec rt mw st
    = (Ok {| path := p; name := n; secure := sec; remoteType := rt;
             middleware := mw; remote := r |}, st1)
    /\ same_registry st st1.
Proof.
  unfold new_Route, FindFirstChild, bind, get, ret, new_Instance. simpl.
  destruct (String.eqb p "root/network" && String.eqb n "get-tree")%bool;
    simpl; eexists _, _; (split; [reflexivity | by repeat split]).
Qed.

(** [walk] changes neither the instance nor the listeners, whatever its
    outcome. *)
Lemma walk_frame createMissing p : forall parts currentPath node st,
  same_registry st (walk createMissing p currentPath parts node st).2.
Proof.
  induction parts as [| part parts IH]; intros currentPath node st.
  - apply same_registry_refl.
  - cbn -[new_Route]. destruct (getChild node part) as [next|].
    + unfold bind. specialize (IH (currentPath ++ "/" ++ part)%string next st).
      by destruct (walk createMissing p _ parts next st) as [[r | err] st1].
    + destruct createMissing; [| apply same_registry_refl].
      cbn -[new_Route]. unfold bind at 1. cbn -[new_Route]. unfold bind at 1.
      match goal with
      | |- context [new_Route ?a ?b ?c ?d ?e ?s] =>
          destruct (new_Route_frame a b c d e s) as (r & st1 & Hnew & Hf);
          rewrite Hnew
      end.
      unfold bind.
      match goal with
      | |- context [walk true p ?cp parts ?leaf st1] =>
          specialize (IH cp leaf st1);
          destruct (walk true p cp parts leaf st1) as [[r' | err] st2]
      end; simpl in *;
        (eapply same_registry_trans; [| exact IH]);
        (eapply same_registry_trans; [| exact Hf]); by repeat split.
Qed.

Lemma extends_refl node : extends node node.
Proof. intros loc n H. eauto. Qed.

Lemma extends_trans (n1 n2 n3 : TreeNode W) : extends n1 n2 -> extends n2 n3 -> extends n1 n3.
Proof.
  intros H12 H23 loc n H. destruct (H12 _ _ H) as (n' & Hn' & Hv).
  destruct (H23 _ _ Hn') as (n'' & Hn'' & Hv'). exists n''. split; congruence.
Qed.

(** Replacing the child [part] by a node that extends it. *)
Lemma extends_replace (route : Route W) childs part child child' :
  dict_get part childs = Some child -> extends child child' ->
  extends (mkTreeNode route childs) (mkTreeNode route (dict_set part child' childs)).
Proof.
  intros Hget Hext [| q loc] n; simpl.
  - intros [= <-]. eauto.
  - unfold getChild. simpl. destruct (decide (part = q)) as [<- | Hne].
    + rewrite Hget, dict_get_set_eq. apply Hext.
    + rewrite (dict_get_set_ne _ _ _ _ Hne). eauto.
Qed.

(** Adding a child under a name that is free. *)
Lemma extends_add (route : Route W) childs part child' :
  dict_get part childs = None ->
  extends (mkTreeNode route childs) (mkTreeNode route (dict_set part child' childs)).
Proof.
  intros Hget [| q loc] n; simpl.
  - intros [= <-]. eauto.
  - unfold getChild. simpl. destruct (decide (part = q)) as [<- | Hne].
    + by rewrite Hget.
    + rewrite (dict_get_set_ne _ _ _ _ Hne). eauto.
Qed.

(** On a path that exists [walk] creates nothing, with or without
    [createMissing]. *)
Lemma walk_found_any createMissing parts p currentPath node target st :
  node_at parts node = Some target ->
  walk createMissing p currentPath parts node st = (Ok (node, target), st).
Proof.
  revert currentPath node. induction parts as [| part parts IH];
    intros currentPath node; simpl.
  - by intros [= ->].
  - destruct (getChild node part) as [child|] eqn:Hc; [| done].
    intros Hat. unfold bind. rewrite (IH _ _ Hat). simpl. unfold ret.
    unfold getChild in Hc. rewrite (dict_set_same _ _ _ Hc).
    by destruct node.
Qed.

(** What [walk] gives when it succeeds: the tree it hands back holds the
    target at the path, and every node of before with its route. *)
Lemma walk_result createMissing p : forall parts currentPath node st node' target st',
  walk createMissing p currentPath parts node st = (Ok (node', target), st') ->
  value node' = value node
  /\ node_at parts node' = Some target
  /\ extends node node'.
Proof.
  induction parts as [| part parts IH]; intros currentPath node st node' target st'.
  - simpl. intros [= <- <- <-]. split; [done |]. split; [done | apply extends_refl].
  - cbn -[new_Route]. destruct (getChild node part) as [next|] eqn:Hget.
    + unfold bind.
      destruct (walk createMissing p _ parts next st) as [[[n' t] | err] st1] eqn:Hwalk;
        [| done].
      intros [= <- <- <-]. destruct (IH _ _ _ _ _ _ Hwalk) as (Hval & Hat & Hext).
      destruct node as [route childs]. cbn [value children] in *.
      split; [done |]. split.
      * cbn [node_at]. unfold getChild. cbn [children]. by rewrite dict_get_set_eq.
      * by apply (extends_replace _ _ _ next).
    + destruct createMissing; [| done]. cbn -[new_Route]. unfold bind at 1.
      cbn -[new_Route]. unfold bind at 1.
      match goal with
      | |- context [new_Route ?a ?b ?c ?d ?e ?s] =>
          destruct (new_Route_frame a b c d e s) as (r & st1 & Hnew & _);
          rewrite Hnew
      end.
      unfold bind.
      match goal with
      | |- context [walk true p ?cp parts ?leaf st1] =>
          destruct (walk true p cp parts leaf st1) as [[[n' t] | err] st2] eqn:Hwalk;
          [| done]
      end.
      intros [= <- <- <-]. destruct (IH _ _ _ _ _ _ Hwalk) as (Hval & Hat & Hext).
      destruct node as [route childs]. unfold addChild.
      cbn [value children name] in *. rewrite Hval. cbn [value children name].
      split; [done |]. split.
      * cbn [node_at]. unfold getChild. cbn [children]. by rewrite dict_get_set_eq.
      * by apply extends_add.
Qed.

Lemma traversePath_found_any createMissing st inst p loc target :
  instance st = Some inst ->
  split slash (lower p) = ROOT_ROUTE_NAME :: loc ->
  node_at loc (tree inst) = Some target ->
  traversePath p createMissing st = (Ok (loc, target), st).
Proof.
  intros Hinst Hsplit Hat.
  unfold traversePath, traversePath_, instance_or_start, bind, get. simpl.
  rewrite Hinst. unfold ret at 1. cbn -[walk]. rewrite Hsplit.
  destruct loc as [| part loc].
  - simpl in *. injection Hat as <-. reflexivity.
  - cbn -[walk]. case_bool_decide; [| done]. cbn -[walk].
    rewrite (walk_found_any _ _ _ _ _ _ _ Hat). unfold ret. cbn -[walk].
    by rewrite (with_tree_same _ _ Hinst).
Qed.

(** A successful [traversePath]: the path starts with root, the node it
    gives is in the tree afterwards, and nothing that was there is lost. *)
Lemma traversePath_result_any createMissing st inst p loc target st' :
  instance st = Some inst ->
  traversePath p createMissing st = (Ok (loc, target), st') ->
  split slash (lower p) = ROOT_ROUTE_NAME :: loc
  /\ exists inst',
       instance st' = Some inst' /\ record inst' = record inst
       /\ unEditableRoutes inst' = unEditableRoutes inst
       /\ value (tree inst') = value (tree inst)
       /\ node_at loc (tree inst') = Some target
       /\ extends (tree inst) (tree inst')
       /\ connections st' = connections st /\ world st' = world st
       /\ output st' = output st /\ fired st' = fired st
       /\ playerRemoving_connected st' = playerRemoving_connected st.
Proof.
  intros Hinst.
  unfold traversePath, traversePath_, instance_or_start, bind, get.
  cbn -[walk]. rewrite Hinst. unfold ret at 1. cbn -[walk].
  destruct (split slash (lower p)) as [| h parts]; [done |]. cbn -[walk].
  case_bool_decide as Hh; [| done]. injection Hh as ->. cbn -[walk].
  destruct parts as [| part parts].
  - cbn -[walk]. case_bool_decide; [| done]. cbn. intros [= <- <- <-].
    split; [done |]. exists inst. repeat split; try done. apply extends_refl.
  - cbn -[walk].
    pose proof (walk_frame createMissing (lower p) (part :: parts) "root" (tree inst) st)
      as (Hi & Hc & Hw & Ho & Hf & Hp).
    destruct (walk createMissing (lower p) "root" (part :: parts) (tree inst) st)
      as [[[n' t] | err] st1] eqn:Hwalk; [| done].
    unfold modify_instance, modify, ret. cbn -[walk]. intros [= <- <- <-].
    destruct (walk_result _ _ _ _ _ _ _ _ _ Hwalk) as (Hval & Hat & Hext).
    split; [done |]. simpl in Hi. rewrite Hi, Hinst. cbn -[walk].
    eexists. split; [reflexivity |]. cbn. repeat split; done.
Qed.

Lemma update_at_extends loc (f : TreeNode W -> TreeNode W) : forall node target,
  node_at loc node = Some target ->
  extends target (f target) ->
  extends node (update_at loc f node).
Proof.
  induction loc as [| part loc IH]; intros node target; simpl.
  - by intros [= <-].
  - destruct (getChild node part) as [child|] eqn:Hget; [| done].
    intros Hat Hext. destruct node as [route childs]. cbn [value children].
    apply (extends_replace _ _ _ child); [done |]. by eapply IH.
Qed.

(** A successful [NewRoute], step by step. *)
Lemma NewRoute_steps st inst p (rp : RouteParam W) st' :
  instance st = Some inst ->
  NewRoute p rp st = (Ok tt, st') ->
  exists loc target st1 inst1 r st2,
    traversePath p true st = (Ok (loc, target), st1)
    /\ instance st1 = Some inst1
    /\ node_at loc (tree inst1) = Some target
    /\ getChild target (endPoint rp) = None
    /\ same_registry st1 st2
    /\ st' = with_instance
               (Some (with_tree
                        (update_at loc
                           (fun pn => addChild pn (mkTreeNode (made_route p rp r) []))
                           (tree inst1)) inst1)) st2.
Proof.
  intros Hinst. unfold NewRoute, NewRoute_, bind. fold (@traversePath W).
  destruct (traversePath p true st) as [[[loc target] | err] st1] eqn:Htrav; [| done].
  destruct (traversePath_result_any _ _ _ _ _ _ _ Hinst Htrav)
    as (_ & inst1 & Hinst1 & _ & _ & _ & Hat & _).
  cbn -[new_Route]. destruct (getChild target (endPoint rp)) eqn:Hchild; [done |].
  destruct (new_Route_frame p (endPoint rp) (rp_secure rp) (rp_remoteType rp)
              (rp_middleware rp) st1) as (r & st2 & Hnew & Hframe).
  rewrite Hnew. unfold modify_instance, modify. cbn. intros [= <-].
  exists loc, target, st1, inst1, r, st2.
  repeat (split; [done |]). destruct Hframe as (Hi & _). by rewrite Hi, Hinst1.
Qed.

Lemma getChild_addChild node child :
  getChild (addChild node child) (name (value child)) = Some child.
Proof. unfold getChild, addChild. simpl. apply dict_get_set_eq. Qed.

Lemma getChild_made node p (rp : RouteParam W) r :
  getChild (addChild node (mkTreeNode (made_route p rp r) [])) (endPoint rp)
  = Some (mkTreeNode (made_route p rp r) []).
Proof. apply (getChild_addChild node (mkTreeNode (made_route p rp r) [])). Qed.

Lemma extends_addChild node child :
  getChild node (name (value child)) = None -> extends node (addChild node child).
Proof.
  destruct node as [route childs]. unfold getChild, addChild. simpl.
  apply extends_add.
Qed.

Lemma split_child_path p loc e :
  split slash (lower p) = ROOT_ROUTE_NAME :: loc ->
  plain e = true ->
  split slash (lower (p ++ "/" ++ e)) = ROOT_ROUTE_NAME :: loc ++ [e].
Proof.
  intros Hp He. apply plain_spec in He as [Hl Hs].
  change (p ++ "/" ++ e)%string with (p ++ String slash e)%string.
  rewrite lower_app. simpl.
  change (lower_ascii slash) with slash.
  by rewrite split_app_sep, Hp, Hl, Hs.
Qed.

(** X1. Registering then looking up. After [NewRoute(p, rp)] has succeeded
    with a plain end point, [traversePath] on the path [p/endPoint] gives,
    without changing anything, a node without children that carries the
    route built from the parameters. *)
Theorem NewRoute_then_traversePath st inst p (rp : RouteParam W) st' :
  instance st = Some inst ->
  plain (endPoint rp) = true ->
  NewRoute p rp st = (Ok tt, st') ->
  exists loc r,
    traversePath (p ++ "/" ++ endPoint rp) false st'
    = (Ok (loc, mkTreeNode (made_route p rp r) []), st').
Proof.
  intros Hinst Hplain Hnew.
  destruct (NewRoute_steps _ _ _ _ _ Hinst Hnew)
    as (loc & target & st1 & inst1 & r & st2 & Htrav & Hinst1 & Hat & Hfree & _ & ->).
  destruct (traversePath_result_any _ _ _ _ _ _ _ Hinst Htrav) as (Hsplit & _).
  exists (loc ++ [endPoint rp]), r.
  eapply traversePath_found; [reflexivity | by apply split_child_path |].
  cbn. rewrite node_at_app.
  rewrite (node_at_update _ _ _ _ Hat). cbn [node_at].
  by rewrite getChild_made.
Qed.

(** X2. Registering twice. Once [NewRoute(p, rp)] has succeeded, a second
    [NewRoute] under the same path with the same end point throws the
    already-exists error and leaves the registry as it is. *)
Theorem NewRoute_duplicate st inst p (rp rp' : RouteParam W) st' :
  instance st = Some inst ->
  NewRoute p rp st = (Ok tt, st') ->
  endPoint rp' = endPoint rp ->
  NewRoute p rp' st'
  = (Throw (VStr ("Route '" ++ endPoint rp' ++ "' already exists at '" ++ p ++ "'")),
     st').
Proof.
  intros Hinst Hnew Hsame.
  destruct (NewRoute_steps _ _ _ _ _ Hinst Hnew)
    as (loc & target & st1 & inst1 & r & st2 & Htrav & Hinst1 & Hat & Hfree & _ & ->).
  destruct (traversePath_result_any _ _ _ _ _ _ _ Hinst Htrav) as (Hsplit & _).
  unfold NewRoute, NewRoute_, bind. fold (@traversePath W).
  erewrite traversePath_found_any;
    [| reflexivity | exact Hsplit | cbn; apply (node_at_update _ _ _ _ Hat)].
  cbn -[new_Route getChild addChild]. rewrite Hsame.
  by rewrite getChild_made.
Qed.

(** X3. [NewRoute] loses nothing. After a successful [NewRoute] the cache
    and the listeners are as before, every place of the tree that held a
    node holds a node with the same route, and every path [traversePath]
    resolved is resolved to a node with the same route. *)
Theorem NewRoute_keeps_routes st inst p (rp : RouteParam W) st' :
  instance st = Some inst ->
  NewRoute p rp st = (Ok tt, st') ->
  exists inst',
    instance st' = Some inst'
    /\ record inst' = record inst
    /\ connections st' = connections st
    /\ extends (tree inst) (tree inst')
    /\ forall q l n,
         traversePath q false st = (Ok (l, n), st) ->
         exists n', traversePath q false st' = (Ok (l, n'), st')
                    /\ value n' = value n.
Proof.
  intros Hinst Hnew.
  destruct (NewRoute_steps _ _ _ _ _ Hinst Hnew)
    as (loc & target & st1 & inst1 & r & st2 & Htrav & Hinst1 & Hat & Hfree & Hframe & ->).
  destruct (traversePath_result_any _ _ _ _ _ _ _ Hinst Htrav)
    as (Hsplit & inst1' & Hinst1' & Hrec & _ & _ & _ & Hext & Hconn & _).
  rewrite Hinst1 in Hinst1'. injection Hinst1' as <-.
  assert (Hext' : extends (tree inst)
            (update_at loc (fun pn => addChild pn (mkTreeNode (made_route p rp r) []))
               (tree inst1))).
  { eapply extends_trans; [exact Hext |].
    eapply update_at_extends; [exact Hat |]. by apply extends_addChild. }
  eexists. split; [reflexivity |].
  split; [exact Hrec |]. split; [destruct Hframe as (_ & Hc & _); cbn; congruence |].
  split; [exact Hext' |].
  intros q l n Hq.
  pose proof (traversePath_result_any _ _ _ _ _ _ _ Hinst Hq)
    as (Hqs & instq & Hinstq & _ & _ & _ & Hatq & _).
  rewrite Hinst in Hinstq. injection Hinstq as <-.
  destruct (Hext' _ _ Hatq) as (n' & Hn' & Hval).
  exists n'. split; [| done].
  match goal with
  | |- traversePath _ _ ?s = _ => exact (traversePath_found s _ _ _ _ eq_refl Hqs Hn')
  end.
Qed.

Lemma walk_creates p : forall parts currentPath node st node' target st',
  walk true p currentPath parts node st = (Ok (node', target), st') ->
  forall pre part suf,
    parts = pre ++ part :: suf ->
    node_at (pre ++ [part]) node = None ->
    exists n, node_at (pre ++ [part]) node' = Some n /\ is_default (value n) part.
Proof.
  induction parts as [| x parts IH]; intros currentPath node st node' target st' Hwalk
    pre part suf Hparts Hnone.
  - by destruct pre.
  - revert Hwalk. cbn -[new_Route].
    destruct (getChild node x) as [next|] eqn:Hget.
    + unfold bind.
      destruct (walk true p _ parts next st) as [[[n1 t] | err] st1] eqn:Hwalk; [| done].
      intros [= <- <- <-].
      destruct pre as [| q pre]; simpl in Hparts; injection Hparts as <- Hparts.
      * simpl in Hnone. by rewrite Hget in Hnone.
      * simpl in Hnone. rewrite Hget in Hnone.
        destruct (IH _ _ _ _ _ _ Hwalk _ _ _ Hparts Hnone) as (n & Hn & Hd).
        exists n. split; [| done]. simpl. unfold getChild. simpl.
        by rewrite dict_get_set_eq.
    + cbn -[new_Route]. unfold bind at 1. cbn -[new_Route]. unfold bind at 1.
      match goal with
      | |- context [new_Route ?a ?b ?c ?d ?e ?s] =>
          destruct (new_Route_frame a b c d e s) as (r & st1 & Hnew & _);
          rewrite Hnew
      end.
      unfold bind.
      match goal with
      | |- context [walk true p ?cp parts ?leaf st1] =>
          destruct (walk true p cp parts leaf st1) as [[[n1 t] | err] st2] eqn:Hwalk;
          [| done]
      end.
      intros [= <- <- <-].
      destruct (walk_result _ _ _ _ _ _ _ _ _ Hwalk) as (Hval & _ & _).
      cbn [value] in Hval.
      assert (Hchild : getChild (addChild node n1) x = Some n1).
      { pose proof (getChild_addChild node n1) as Hg. by rewrite Hval in Hg. }
      destruct pre as [| q pre]; simpl in Hparts; injection Hparts as <- Hparts.
      * exists n1. simpl. rewrite Hchild. split; [done |]. rewrite Hval.
        repeat split. eexists. by repeat split.
      * assert (Hleaf : forall r0 : Route W,
                  node_at (pre ++ [part]) (mkTreeNode r0 []) = None)
          by (intros r0; by destruct pre).
        destruct (IH _ _ _ _ _ _ Hwalk _ _ _ Hparts (Hleaf _)) as (n & Hn & Hd).
        exists n. split; [| done]. simpl. by rewrite Hchild.
Qed.

Lemma traversePath_creates st inst p loc target st' :
  instance st = Some inst ->
  traversePath p true st = (Ok (loc, target), st') ->
  exists inst',
    instance st' = Some inst'
    /\ forall pre part suf,
         loc = pre ++ part :: suf ->
         node_at (pre ++ [part]) (tree inst) = None ->
         exists n, node_at (pre ++ [part]) (tree inst') = Some n
                   /\ is_default (value n) part.
Proof.
  intros Hinst.
  unfold traversePath, traversePath_, instance_or_start, bind, get.
  cbn -[walk]. rewrite Hinst. unfold ret at 1. cbn -[walk].
  destruct (split slash (lower p)) as [| h parts]; [done |]. cbn -[walk].
  case_bool_decide as Hh; [| done]. cbn -[walk].
  destruct parts as [| part parts].
  - cbn -[walk]. case_bool_decide; [| done]. cbn. intros [= <- <- <-].
    exists inst. split; [done |]. intros pre part suf Hloc. by destruct pre.
  - cbn -[walk].
    pose proof (walk_frame true (lower p) (part :: parts) "root" (tree inst) st)
      as (Hi & _).
    destruct (walk true (lower p) "root" (part :: parts) (tree inst) st)
      as [[[n' t] | err] st1] eqn:Hwalk; [| done].
    unfold modify_instance, modify, ret. cbn -[walk]. intros [= <- <- <-].
    simpl in Hi. rewrite Hi, Hinst. cbn -[walk].
    eexists. split; [reflexivity |]. cbn -[walk].
    intros pre part' suf Hloc Hnone.
    exact (walk_creates _ _ _ _ _ _ _ _ Hwalk _ _ _ Hloc Hnone).
Qed.

(** X4. [NewRoute] makes the missing ancestors. After a successful
    [NewRoute(p, rp)] every node on the way from the root to the parent
    path exists; those that were missing carry the default route: named
    after their part of the path, secure, an event, with a middleware of
    cooldown 1 and no callback. *)
Theorem NewRoute_creates_ancestors st inst p (rp : RouteParam W) st' :
  instance st = Some inst ->
  NewRoute p rp st = (Ok tt, st') ->
  exists inst' loc,
    instance st' = Some inst'
    /\ split slash (lower p) = ROOT_ROUTE_NAME :: loc
    /\ forall pre part suf,
         loc = pre ++ part :: suf ->
         exists n,
           node_at (pre ++ [part]) (tree inst') = Some n
           /\ (node_at (pre ++ [part]) (tree inst) = None ->
               is_default (value n) part).
Proof.
  intros Hinst Hnew.
  destruct (NewRoute_steps _ _ _ _ _ Hinst Hnew)
    as (loc & target & st1 & inst1 & r & st2 & Htrav & Hinst1 & Hat & Hfree & _ & ->).
  destruct (traversePath_result_any _ _ _ _ _ _ _ Hinst Htrav) as (Hsplit & _).
  destruct (traversePath_creates _ _ _ _ _ _ Hinst Htrav) as (inst1' & Hinst1' & Hmade).
  rewrite Hinst1 in Hinst1'. injection Hinst1' as <-.
  eexists _, loc. split; [reflexivity |]. split; [exact Hsplit |].
  intros pre part suf Hloc.
  assert (Hext : extends (tree inst1)
            (update_at loc (fun pn => addChild pn (mkTreeNode (made_route p rp r) []))
               (tree inst1))).
  { eapply update_at_extends; [exact Hat |]. by apply extends_addChild. }
  assert (Hsome : exists n1, node_at (pre ++ [part]) (tree inst1) = Some n1).
  { rewrite Hloc in Hat.
    replace (pre ++ part :: suf) with ((pre ++ [part]) ++ suf) in Hat
      by (rewrite <- app_assoc; reflexivity).
    rewrite node_at_app in Hat.
    destruct (node_at (pre ++ [part]) (tree inst1)); [eauto | done]. }
  destruct Hsome as [n1 Hn1]. destruct (Hext _ _ Hn1) as (n & Hn & Hval).
  exists n. split; [exact Hn |]. intros Hnone.
  destruct (Hmade _ _ _ Hloc Hnone) as (n1' & Hn1' & Hd).
  rewrite Hval. congruence.
Qed.

Lemma traversePath_invalid createMissing st inst p :
  instance st = Some inst ->
  head (split slash (lower p)) <> Some ROOT_ROUTE_NAME ->
  traversePath p createMissing st = (Throw (VStr invalid_path), st).
Proof.
  intros Hinst Hhead.
  unfold traversePath, traversePath_, instance_or_start, bind, get.
  cbn -[walk]. rewrite Hinst. unfold ret at 1. cbn -[walk].
  destruct (split slash (lower p)) as [| h parts]; [reflexivity |].
  cbn -[walk]. case_bool_decide as Hh; [| reflexivity].
  by destruct Hhead.
Qed.

(** Without [createMissing] the state stays as it is, whatever the outcome. *)
Lemma traversePath_reads st inst p :
  instance st = Some inst -> (traversePath p false st).2 = st.
Proof.
  intros Hinst.
  destruct (decide (head (split slash (lower p)) = Some ROOT_ROUTE_NAME)) as [Hh | Hh].
  - destruct (split slash (lower p)) as [| h loc] eqn:Hsplit; [done |].
    injection Hh as ->.
    destruct (node_at loc (tree inst)) as [target|] eqn:Hat.
    + by rewrite (traversePath_found _ _ _ _ _ Hinst Hsplit Hat).
    + destruct (traversePath_missing _ _ _ _ Hinst Hsplit Hat) as [err ->]. done.
  - by rewrite (traversePath_invalid _ _ _ _ Hinst Hh).
Qed.

(** X5. Paths that do not start with root. On a started registry, for a
    path whose first part, lower-cased, is not root, [traversePath],
    [NewRoute] and [EditRoute] throw the invalid-path error, and so does
    [getRoute] unless the path is in its cache; the registry stays as it is. *)
Theorem invalid_path_rejected st inst p :
  instance st = Some inst ->
  head (split slash (lower p)) <> Some ROOT_ROUTE_NAME ->
  (forall createMissing,
     traversePath p createMissing st = (Throw (VStr invalid_path), st))
  /\ (forall rp, NewRoute p rp st = (Throw (VStr invalid_path), st))
  /\ (forall rp, EditRoute p rp st = (Throw (VStr invalid_path), st))
  /\ (record inst !! p = None ->
      getRoute p st = (Throw (VStr invalid_path), st)).
Proof.
  intros Hinst Hhead.
  split; [intros cm; by eapply traversePath_invalid |].
  split; [| split].
  - intros rp. unfold NewRoute, NewRoute_, bind. fold (@traversePath W).
    by rewrite (traversePath_invalid _ _ _ _ Hinst Hhead).
  - intros rp. unfold EditRoute, EditRoute_, bind, get.
    cbn -[traversePath_]. rewrite Hinst, key_in_array_str.
    fold (@traversePath W). by rewrite (traversePath_invalid _ _ _ _ Hinst Hhead).
  - intros Hrec. unfold getRoute, getRoute_, instance_or_start, bind, get.
    cbn -[traversePath_]. rewrite Hinst. unfold ret at 1. cbn -[traversePath_].
    destruct (String.eqb p ROOT_ROUTE_NAME) eqn:Hp.
    + apply String.eqb_eq in Hp. subst p. by destruct Hhead.
    + rewrite Hrec. fold (@traversePath W).
      by rewrite (traversePath_invalid _ _ _ _ Hinst Hhead).
Qed.

(** X6. [EditRoute] creates nothing. On a started registry: when the
    parent path does not resolve, [EditRoute] throws and the registry stays
    as it is; when the parent has no child named [endPoint], [EditRoute]
    returns normally and only adds a warning to the output. *)
Theorem EditRoute_missing st inst p (rp : RouteParam W) loc :
  instance st = Some inst ->
  split slash (lower p) = ROOT_ROUTE_NAME :: loc ->
  (node_at loc (tree inst) = None ->
   exists err, EditRoute p rp st = (Throw err, st))
  /\ (forall parent,
        node_at loc (tree inst) = Some parent ->
        getChild parent (endPoint rp) = None ->
        EditRoute p rp st
        = (Ok tt,
           with_output
             (output st
              ++ [Warn ("Route '" ++ endPoint rp ++ "' does not exist at '" ++ p ++ "'")
                    None]) st)).
Proof.
  intros Hinst Hsplit. split.
  - intros Hnone. destruct (traversePath_missing _ _ _ _ Hinst Hsplit Hnone) as [err Herr].
    exists err. unfold EditRoute, EditRoute_, bind, get.
    cbn -[traversePath_]. rewrite Hinst, key_in_array_str.
    fold (@traversePath W). by rewrite Herr.
  - intros parent Hat Hchild. unfold EditRoute, EditRoute_, bind, get.
    cbn -[traversePath_]. rewrite Hinst, key_in_array_str.
    fold (@traversePath W). rewrite (traversePath_found _ _ _ _ _ Hinst Hsplit Hat).
    cbn. by rewrite Hchild.
Qed.

End Frames.

Section Lookup.
Context {W : Type}.
Implicit Types (node : TreeNode W) (st : State W) (inst : Network W).

Lemma start_started st inst : instance st = Some inst -> start st = (Ok tt, st).
Proof.
  intros Hinst. unfold start, start_with, bind, get. simpl. by rewrite Hinst.
Qed.

(** Without an instance [getRoute] does not return a route. *)
Lemma getRoute_needs_instance st p r st' :
  getRoute p st = (Ok r, st') -> exists inst, instance st = Some inst.
Proof.
  destruct (instance st) as [inst|] eqn:Hinst; [eauto |].
  unfold getRoute, getRoute_, instance_or_start, bind, get. simpl. rewrite Hinst.
  by destruct (start st) as [[[] | err] st1].
Qed.

Lemma getRoute_root st inst :
  instance st = Some inst ->
  getRoute ROOT_ROUTE_NAME st = (Ok (value (tree inst)), st).
Proof.
  intros Hinst. unfold getRoute, getRoute_, instance_or_start, bind, get.
  cbn -[traversePath_]. by rewrite Hinst.
Qed.

Lemma getRoute_hit st inst p r :
  instance st = Some inst -> p <> ROOT_ROUTE_NAME -> record inst !! p = Some r ->
  getRoute p st = (Ok r, st).
Proof.
  intros Hinst Hp Hrec. unfold getRoute, getRoute_, instance_or_start, bind, get.
  cbn -[traversePath_]. rewrite Hinst. unfold ret at 1. cbn -[traversePath_].
  destruct (String.eqb p ROOT_ROUTE_NAME) eqn:E; [by apply String.eqb_eq in E |].
  by rewrite Hrec.
Qed.

(** What a successful [getRoute] leaves: the same tree, and the route in
    the cache unless the path is root. *)
Lemma getRoute_ok st inst p r st' :
  instance st = Some inst ->
  getRoute p st = (Ok r, st') ->
  connections st' = connections st /\ fired st' = fired st
  /\ world st' = world st /\ output st' = output st
  /\ exists inst',
       instance st' = Some inst' /\ tree inst' = tree inst
       /\ ((p = ROOT_ROUTE_NAME /\ r = value (tree inst))
           \/ (p <> ROOT_ROUTE_NAME /\ record inst' !! p = Some r)).
Proof.
  intros Hinst. unfold getRoute, getRoute_, instance_or_start, bind, get.
  cbn -[traversePath_]. rewrite Hinst. unfold ret at 1. cbn -[traversePath_].
  destruct (String.eqb p ROOT_ROUTE_NAME) eqn:Hp.
  - apply String.eqb_eq in Hp. intros [= <- <-]. repeat (split; [done |]).
    exists inst. auto.
  - assert (p <> ROOT_ROUTE_NAME) as Hne
      by (intros ->; by rewrite String.eqb_refl in Hp).
    destruct (record inst !! p) as [r0|] eqn:Hrec.
    + intros [= <- <-]. repeat (split; [done |]). exists inst. auto.
    + fold (@traversePath W). pose proof (traversePath_reads st inst p Hinst) as Hst.
      destruct (traversePath p false st) as [[[loc n] | err] st1]; [| done].
      simpl in Hst. subst st1. unfold modify_instance, modify, ret. cbn.
      intros [= <- <-]. repeat (split; [done |]). rewrite Hinst. cbn.
      eexists. split; [reflexivity |]. split; [done |]. right.
      split; [done |]. cbn. apply lookup_insert_eq.
Qed.

(** Once [getRoute] has answered, it answers the same in every state with
    the same cache and the same root route. *)
Lemma getRoute_stable st p r st1 inst1 st2 inst2 :
  getRoute p st = (Ok r, st1) ->
  instance st1 = Some inst1 ->
  instance st2 = Some inst2 ->
  record inst2 = record inst1 ->
  value (tree inst2) = value (tree inst1) ->
  getRoute p st2 = (Ok r, st2).
Proof.
  intros Hget Hinst1 Hinst2 Hrec Hroot.
  destruct (getRoute_needs_instance _ _ _ _ Hget) as [inst Hinst].
  destruct (getRoute_ok _ _ _ _ _ Hinst Hget)
    as (_ & _ & _ & _ & inst1' & Hinst1' & Htree & Hcase).
  rewrite Hinst1 in Hinst1'. injection Hinst1' as <-.
  destruct Hcase as [[-> ->] | [Hne Hin]].
  - rewrite (getRoute_root _ _ Hinst2). by rewrite Hroot, Htree.
  - apply (getRoute_hit _ inst2); [done | done | by rewrite Hrec].
Qed.

(** [EditRoute] keeps the cache and the root route, whatever its outcome. *)
Lemma EditRoute_keeps_cache st inst q (rp : RouteParam W) :
  instance st = Some inst ->
  exists inst',
    instance (EditRoute q rp st).2 = Some inst'
    /\ record inst' = record inst
    /\ value (tree inst') = value (tree inst).
Proof.
  intros Hinst. unfold EditRoute, EditRoute_, bind, get.
  cbn -[traversePath_ new_Route]. rewrite Hinst, key_in_array_str.
  fold (@traversePath W). pose proof (traversePath_reads st inst q Hinst) as Hst.
  destruct (traversePath q false st) as [[[loc target] | err] st1];
    simpl in Hst; subst st1; [| by exists inst].
  cbn -[new_Route]. destruct (getChild target (endPoint rp)) as [old|].
  - destruct (new_Route_frame q (endPoint rp) (rp_secure rp) (rp_remoteType rp)
                (rp_middleware rp) st) as (r & st2 & Hnew & Hi & _).
    rewrite Hnew. unfold modify_instance, modify. cbn. rewrite Hi, Hinst. cbn.
    eexists. split; [reflexivity |]. split; [done |]. cbn.
    by rewrite value_update_at.
  - cbn. by exists inst.
Qed.

(** X7. [getRoute] answers from its cache. Once [getRoute(p)] has given a
    route, asking again gives the same route and changes nothing; and after
    any [EditRoute], whether it replaced the route in the tree or not,
    [getRoute(p)] still gives the route of before. *)
Theorem getRoute_cached st p r st1 :
  getRoute p st = (Ok r, st1) ->
  getRoute p st1 = (Ok r, st1)
  /\ forall q rp,
       getRoute p (EditRoute q rp st1).2 = (Ok r, (EditRoute q rp st1).2).
Proof.
  intros Hget.
  destruct (getRoute_needs_instance _ _ _ _ Hget) as [inst Hinst].
  destruct (getRoute_ok _ _ _ _ _ Hinst Hget)
    as (_ & _ & _ & _ & inst1 & Hinst1 & _ & _).
  split.
  - by eapply getRoute_stable.
  - intros q rp.
    destruct (EditRoute_keeps_cache st1 inst1 q rp Hinst1) as (inst2 & Hinst2 & Hrec & Hroot).
    by eapply getRoute_stable.
Qed.

(** [OnEvent] on a started registry, in terms of [getRoute]. *)
Lemma OnEvent_started st inst eventType p callback :
  instance st = Some inst ->
  OnEvent eventType p callback st
  = match getRoute p st with
    | (Ok route, st1) =>
        if negb (bool_decide (remoteType route = REvent))
        then (Throw (VStr ("Route '" ++ p ++ "' is not a event")), st1)
        else match connections st1 !! remote route with
             | Some _ => (Throw (VStr ("Route '" ++ p ++ "' is already connected")), st1)
             | None =>
                 (Ok tt,
                  with_connections
                    (<[remote route :=
                         made_connection eventType EventListener route
                           (UserHandler callback)]> (connections st1)) st1)
             end
    | (Throw err, st1) => (Throw err, st1)
    end.
Proof.
  intros Hinst. unfold OnEvent, OnEvent_, bind, get. cbn -[getRoute_ start].
  rewrite Hinst. fold (@start W). rewrite (start_started _ _ Hinst).
  fold (@getRoute W). destruct (getRoute p st) as [[route | err] st1]; [| done].
  cbn. destruct (negb (bool_decide (remoteType route = REvent))); [done |].
  by destruct (connections st1 !! remote route).
Qed.

Lemma OnInvoke_started st inst eventType p callback :
  instance st = Some inst ->
  OnInvoke eventType p callback st
  = match getRoute p st with
    | (Ok route, st1) =>
        if negb (bool_decide (remoteType route = RFunction))
        then (Throw (VStr ("Route '" ++ p ++ "' is not a function")), st1)
        else match connections st1 !! remote route with
             | Some _ => (Throw (VStr ("Route '" ++ p ++ "' is already connected")), st1)
             | None =>
                 (Ok tt,
                  with_connections
                    (<[remote route :=
                         made_connection eventType InvokeListener route
                           (UserHandler callback)]> (connections st1)) st1)
             end
    | (Throw err, st1) => (Throw err, st1)
    end.
Proof.
  intros Hinst. unfold OnInvoke, OnInvoke_, bind, get. cbn -[getRoute_ start].
  rewrite Hinst. fold (@getRoute W).
  destruct (getRoute p st) as [[route | err] st1]; [| done].
  cbn. destruct (negb (bool_decide (remoteType route = RFunction))); [done |].
  by destruct (connections st1 !! remote route).
Qed.

Lemma Disconnect_started st inst p :
  instance st = Some inst ->
  Disconnect p st
  = match getRoute p st with
    | (Ok route, st1) =>
        (Ok tt, with_connections (delete (remote route) (connections st1)) st1)
    | (Throw err, st1) => (Throw err, st1)
    end.
Proof.
  intros Hinst. unfold Disconnect, Disconnect_, bind. fold (@start W).
  rewrite (start_started _ _ Hinst). fold (@getRoute W).
  by destruct (getRoute p st) as [[route | err] st1].
Qed.

(** A successful [OnEvent]: the route it found and the state it leaves. *)
Lemma OnEvent_ok st eventType p callback st' :
  OnEvent eventType p callback st = (Ok tt, st') ->
  exists inst route st1 inst1,
    instance st = Some inst
    /\ getRoute p st = (Ok route, st1)
    /\ instance st1 = Some inst1
    /\ remoteType route = REvent
    /\ connections st1 !! remote route = None
    /\ st' = with_connections
               (<[remote route :=
                    made_connection eventType EventListener route
                      (UserHandler callback)]> (connections st1)) st1.
Proof.
  destruct (instance st) as [inst|] eqn:Hinst.
  2: { unfold OnEvent, OnEvent_, bind, get. simpl. by rewrite Hinst. }
  rewrite (OnEvent_started _ _ _ _ _ Hinst).
  destruct (getRoute p st) as [[route | err] st1] eqn:Hget; [| done].
  destruct (getRoute_ok _ _ _ _ _ Hinst Hget) as (_ & _ & _ & _ & inst1 & Hinst1 & _).
  case_bool_decide as Hkind; [| done]. cbn.
  destruct (connections st1 !! remote route) eqn:Hconn; [done |].
  intros [= <-]. by exists inst, route, st1, inst1.
Qed.

(** X8. One listener per route. After [OnEvent] has connected a listener on
    a path, a further [OnEvent] on that path throws the already-connected
    error and leaves the registry as it is; [Disconnect] on the path frees
    the route, and [OnEvent] then connects again. *)
Theorem OnEvent_one_listener st eventType p callback st' :
  OnEvent eventType p callback st = (Ok tt, st') ->
  (forall eventType' callback',
     OnEvent eventType' p callback' st'
     = (Throw (VStr ("Route '" ++ p ++ "' is already connected")), st'))
  /\ exists st'',
       Disconnect p st' = (Ok tt, st'')
       /\ forall eventType' callback',
            exists st3, OnEvent eventType' p callback' st'' = (Ok tt, st3).
Proof.
  intros Hon.
  destruct (OnEvent_ok _ _ _ _ _ Hon)
    as (inst & route & st1 & inst1 & Hinst & Hget & Hinst1 & Hkind & Hfree & ->).
  set (conn := made_connection eventType EventListener route (UserHandler callback)).
  set (st' := with_connections (<[remote route := conn]> (connections st1)) st1).
  assert (Hget' : getRoute p st' = (Ok route, st'))
    by (by eapply (getRoute_stable st p route st1 inst1 st' inst1)).
  split.
  - intros et' cb'. rewrite (OnEvent_started st' inst1) by done. rewrite Hget'.
    rewrite (bool_decide_eq_true_2 _ Hkind). cbn.
    by rewrite lookup_insert_eq.
  - eexists. split.
    + rewrite (Disconnect_started st' inst1) by done. by rewrite Hget'.
    + intros et' cb'.
      set (st'' := with_connections (delete (remote route) (connections st')) st').
      assert (Hget'' : getRoute p st'' = (Ok route, st''))
        by (by eapply (getRoute_stable st p route st1 inst1 st'' inst1)).
      eexists. rewrite (OnEvent_started st'' inst1) by done. rewrite Hget''.
      rewrite (bool_decide_eq_true_2 _ Hkind). cbn.
      by rewrite lookup_delete_eq.
Qed.

(** [start(); getRoute(path)] then the test of the kind, as the three
    [Fire...] methods begin. *)
Lemma Fire_started st inst p :
  instance st = Some inst ->
  (forall player args,
     FireClient p player args st
     = match getRoute p st with
       | (Ok route, st1) =>
           if negb (bool_decide (remoteType route = REvent))
           then (Throw (VStr ("Route '" ++ p ++ "' is not a event")), st1)
           else FireClient_remote (remote route) player args st1
       | (Throw err, st1) => (Throw err, st1)
       end)
  /\ (forall online args,
        FireAllClients online p args st
        = match getRoute p st with
          | (Ok route, st1) =>
              if negb (bool_decide (remoteType route = REvent))
              then (Throw (VStr ("Route '" ++ p ++ "' is not a event")), st1)
              else FireAllClients_remote online (remote route) args st1
          | (Throw err, st1) => (Throw err, st1)
          end)
  /\ (forall online players args,
        FireClientsInList online p players args st
        = match getRoute p st with
          | (Ok route, st1) =>
              if negb (bool_decide (remoteType route = REvent))
              then (Throw (VStr ("Route '" ++ p ++ "' is not a event")), st1)
              else for_each (fire_if_online online (remote route) args) players st1
          | (Throw err, st1) => (Throw err, st1)
          end).
Proof.
  intros Hinst. repeat split; intros;
    unfold FireClient, FireAllClients, FireClientsInList, bind;
    rewrite (start_started _ _ Hinst);
    destruct (getRoute p st) as [[route | err] st1]; try done;
    by destruct (negb (bool_decide (remoteType route = REvent))).
Qed.

(** X9. The kind of a route is checked. For a path that [getRoute]
    resolves: on a function route, [OnEvent], [FireClient],
    [FireAllClients] and [FireClientsInList] throw the not-an-event error;
    on an event route, [OnInvoke] throws the not-a-function error. No
    listener is connected and nothing is sent: the state is the one
    [getRoute] left, with the listeners and the messages of before. *)
Theorem route_kind_checked st p route st1 :
  getRoute p st = (Ok route, st1) ->
  connections st1 = connections st /\ fired st1 = fired st
  /\ (remoteType route = RFunction ->
      let err := Throw (VStr ("Route '" ++ p ++ "' is not a event")) in
      (forall eventType callback, OnEvent eventType p callback st = (err, st1))
      /\ (forall player args, FireClient p player args st = (err, st1))
      /\ (forall online args, FireAllClients online p args st = (err, st1))
      /\ (forall online players args,
            FireClientsInList online p players args st = (err, st1)))
  /\ (remoteType route = REvent ->
      forall eventType callback,
        OnInvoke eventType p callback st
        = (Throw (VStr ("Route '" ++ p ++ "' is not a function")), st1)).
Proof.
  intros Hget.
  destruct (getRoute_needs_instance _ _ _ _ Hget) as [inst Hinst].
  destruct (getRoute_ok _ _ _ _ _ Hinst Hget) as (Hconn & Hfired & _).
  destruct (Fire_started st inst p Hinst) as (Hone & Hall & Hlist).
  split; [done |]. split; [done |]. split.
  - intros Hkind. cbn zeta. repeat split; intros.
    + rewrite (OnEvent_started _ _ _ _ _ Hinst), Hget. by rewrite Hkind.
    + rewrite Hone, Hget. by rewrite Hkind.
    + rewrite Hall, Hget. by rewrite Hkind.
    + rewrite Hlist, Hget. by rewrite Hkind.
  - intros Hkind et cb.
    rewrite (OnInvoke_started _ _ _ _ _ Hinst), Hget. by rewrite Hkind.
Qed.

End Lookup.

Section Sending.
Context {W : Type}.
Implicit Types (st : State W) (inst : Network W).

Lemma fire_if_online_spec online (r : RemoteId) args player st :
  is_remote st r ->
  fire_if_online online r args player st
  = (Ok tt,
     if bool_decide (player ∈ online)
     then with_fired (fired st ++ [(r, player, args)]) st
     else st).
Proof.
  intros Hr. unfold fire_if_online, bind, get, modify, ret.
  case_bool_decide; [| reflexivity]. cbn.
  destruct Hr as [Hr | Hr]; rewrite Hr; cbn; rewrite ?Hr; reflexivity.
Qed.

Lemma for_each_fire online (r : RemoteId) args players : forall st,
  is_remote st r ->
  for_each (fire_if_online online r args) players st
  = (Ok tt,
     with_fired
       (fired st ++ map (fun player => (r, player, args))
                      (filter (fun player => player ∈ online) players)) st).
Proof.
  induction players as [| player players IH]; intros st Hr.
  - simpl. unfold ret. rewrite app_nil_r. by destruct st.
  - cbn [for_each]. unfold bind. rewrite (fire_if_online_spec _ _ _ _ _ Hr).
    rewrite filter_cons. destruct (decide (player ∈ online)) as [Hin | Hout].
    + rewrite (bool_decide_eq_true_2 _ Hin). rewrite IH by exact Hr.
      cbn. by rewrite <- app_assoc.
    + rewrite (bool_decide_eq_false_2 _ Hout). by rewrite IH.
Qed.

Lemma filter_online_all (online players : list Player) :
  (forall player, player ∈ players -> player ∈ online) ->
  filter (fun player => player ∈ online) players = players.
Proof.
  induction players as [| player players IH]; intros Hall; [done |].
  rewrite filter_cons. destruct (decide (player ∈ online)) as [_ | Hout].
  - rewrite IH; [done |]. intros x Hx. apply Hall. by apply elem_of_cons; right.
  - destruct Hout. apply Hall. by apply elem_of_cons; left.
Qed.

(** X10. [FireClientsInList] skips the players that are gone. On an event
    route whose remote exists, the call returns normally and sends the
    message once to each listed player that is in the session, in the order
    of the list, and to nobody else; sending to the list of all the players
    of the session is what [FireAllClients] does. *)
Theorem FireClientsInList_sends st p route st1 online players args :
  getRoute p st = (Ok route, st1) ->
  remoteType route = REvent ->
  is_remote st1 (remote route) ->
  FireClientsInList online p players args st
  = (Ok tt,
     with_fired
       (fired st1 ++ map (fun player => (remote route, player, args))
                       (filter (fun player => player ∈ online) players)) st1)
  /\ FireClientsInList online p online args st = FireAllClients online p args st.
Proof.
  intros Hget Hkind Hr.
  destruct (getRoute_needs_instance _ _ _ _ Hget) as [inst Hinst].
  destruct (Fire_started st inst p Hinst) as (_ & Hall & Hlist).
  rewrite !Hlist, Hall, Hget, Hkind. cbn -[for_each].
  rewrite !for_each_fire by exact Hr. split; [reflexivity |].
  unfold FireAllClients_remote, bind, get, modify. cbn.
  rewrite (filter_online_all online online) by done. by destruct Hr as [-> | ->].
Qed.

End Sending.

Section BeforeStart.
Context {W : Type}.
Implicit Types (st : State W) (inst : Network W).

(** A path not yet in the cache: [getRoute] walks the tree and caches what
    it finds. *)
Lemma getRoute_miss st inst p loc target :
  instance st = Some inst -> p <> ROOT_ROUTE_NAME -> record inst !! p = None ->
  split slash (lower p) = ROOT_ROUTE_NAME :: loc ->
  node_at loc (tree inst) = Some target ->
  getRoute p st
  = (Ok (value target),
     with_instance (Some (with_record (<[p := value target]> (record inst)) inst)) st).
Proof.
  intros Hinst Hp Hrec Hsplit Hat.
  unfold getRoute, getRoute_, instance_or_start, bind, get.
  cbn -[traversePath_]. rewrite Hinst. unfold ret at 1. cbn -[traversePath_].
  destruct (String.eqb p ROOT_ROUTE_NAME) eqn:E; [by apply String.eqb_eq in E |].
  rewrite Hrec. fold (@traversePath W).
  rewrite (traversePath_found _ _ _ _ _ Hinst Hsplit Hat).
  unfold modify_instance, modify, ret. cbn. by rewrite Hinst.
Qed.

(** With an instance, no call reaches [start]. *)
Lemma OnInvoke_inner (inner : M W unit) st inst eventType p handler :
  instance st = Some inst ->
  OnInvoke_ inner eventType p handler st
  = match getRoute p st with
    | (Ok route, st1) =>
        if negb (bool_decide (remoteType route = RFunction))
        then (Throw (VStr ("Route '" ++ p ++ "' is not a function")), st1)
        else match connections st1 !! remote route with
             | Some _ => (Throw (VStr ("Route '" ++ p ++ "' is already connected")), st1)
             | None =>
                 (Ok tt,
                  with_connections
                    (<[remote route :=
                         made_connection eventType InvokeListener route handler]>
                       (connections st1)) st1)
             end
    | (Throw err, st1) => (Throw err, st1)
    end.
Proof.
  intros Hinst.
  assert (forall c, traversePath_ inner p c st = traversePath p c st) as Htr.
  { intros c. unfold traversePath, traversePath_, instance_or_start, bind, get.
    cbn -[walk start]. by rewrite Hinst. }
  assert (getRoute_ inner p st = getRoute p st) as Hget.
  { unfold getRoute, getRoute_, instance_or_start, bind, get.
    cbn -[traversePath_]. rewrite Hinst. unfold ret at 1 3. cbn -[traversePath_].
    destruct (String.eqb p ROOT_ROUTE_NAME); [done |].
    destruct (record inst !! p); [done |]. by rewrite Htr. }
  unfold OnInvoke_, bind, get. cbn -[getRoute_]. rewrite Hinst, Hget.
  destruct (getRoute p st) as [[route | err] st1]; [| done].
  cbn. destruct (negb (bool_decide (remoteType route = RFunction))); [done |].
  by destruct (connections st1 !! remote route).
Qed.

Lemma start_fresh st :
  instance st = None -> connections st = ∅ ->
  exists st0 inst0 r,
    start st = (Ok tt, st0) /\ instance st0 = Some inst0 /\ registry_tree inst0
    /\ playerRemoving_connected st0 = true /\ world st0 = world st
    /\ output st0 = output st /\ fired st0 = fired st
    /\ record inst0 !! "root/network/get-tree"%string = Some r
    /\ remoteType r = RFunction /\ secure r = true
    /\ connections st0
       = {[ remote r := made_connection Connect InvokeListener r GetTreeHandler ]}.
Proof.
  intros Hinst Hconn. unfold start, start_with, bind at 1, get.
  cbn -[new_Route OnInvoke_ bind]. rewrite Hinst.
  unfold bind at 1. cbn -[new_Route OnInvoke_ bind].
  unfold bind at 1.
  match goal with
  | |- context [new_Route ?a ?b ?c ?d ?e ?s] =>
      destruct (new_Route_frame a b c d e s) as (r1 & st1 & Hnew1 & Hf1);
      rewrite Hnew1
  end.
  unfold bind at 1. cbn -[new_Route OnInvoke_ bind]. unfold bind at 1.
  match goal with
  | |- context [new_Route ?a ?b ?c ?d ?e ?s] =>
      destruct (new_Route_frame a b c d e s) as (r2 & st2 & Hnew2 & Hf2);
      rewrite Hnew2
  end.
  unfold bind at 1. cbn -[new_Route OnInvoke_ bind]. unfold bind at 1.
  match goal with
  | |- context [new_Route ?a ?b ?c ?d ?e ?s] =>
      destruct (new_Route_frame a b c d e s) as (r3 & st3 & Hnew3 & Hf3);
      rewrite Hnew3
  end.
  clear Hnew1 Hnew2 Hnew3.
  destruct Hf1 as (Hi1 & Hc1 & Hw1 & Ho1 & Hfi1 & Hp1).
  destruct Hf2 as (Hi2 & Hc2 & Hw2 & Ho2 & Hfi2 & Hp2).
  destruct Hf3 as (Hi3 & Hc3 & Hw3 & Ho3 & Hfi3 & Hp3).
  cbn in Hi1, Hc1, Hw1, Ho1, Hfi1, Hp1, Hi2, Hc2, Hw2, Ho2, Hfi2, Hp2,
         Hi3, Hc3, Hw3, Ho3, Hfi3, Hp3.
  unfold bind at 1, modify at 1. cbn -[OnInvoke_ bind].
  unfold bind at 1, clearRouteLogs, modify at 1. cbn -[OnInvoke_].
  erewrite OnInvoke_inner; [| reflexivity].
  erewrite getRoute_miss;
    [| reflexivity | done | apply lookup_empty | vm_compute; reflexivity | reflexivity].
  cbn. rewrite Hc3, Hc2, Hc1, Hconn, lookup_empty.
  eexists _, _, _. split; [reflexivity |]. cbn.
  split; [reflexivity |]. split; [by split |].
  split; [done |]. split; [congruence |]. split; [congruence |].
  split; [congruence |]. split; [apply lookup_insert_eq |].
  split; [done |]. split; [done |]. reflexivity.
Qed.

(** X11. [start] on a registry that is not started and has no listener:
    it returns normally, leaves a started registry whose tree is well named
    under root, with the session-end cleanup connected, and with the route
    root/network/get-tree a secure function route, cached, whose only
    listener is the one that serves the tree; a further [start] does
    nothing. *)
Theorem start_installs st :
  instance st = None -> connections st = ∅ ->
  exists st0 inst0 r,
    start st = (Ok tt, st0) /\ instance st0 = Some inst0 /\ registry_tree inst0
    /\ playerRemoving_connected st0 = true
    /\ world st0 = world st /\ output st0 = output st /\ fired st0 = fired st
    /\ getRoute "root/network/get-tree" st0 = (Ok r, st0)
    /\ remoteType r = RFunction /\ secure r = true
    /\ connections st0
       = {[ remote r := made_connection Connect InvokeListener r GetTreeHandler ]}
    /\ start st0 = (Ok tt, st0).
Proof.
  intros Hinst Hconn.
  destruct (start_fresh st Hinst Hconn)
    as (st0 & inst0 & r & Hst & Hi & Hreg & Hpr & Hw & Ho & Hf & Hrec & Hrt & Hsec & Hc).
  exists st0, inst0, r. do 7 (split; [done |]).
  split; [by apply (getRoute_hit st0 inst0) |].
  do 3 (split; [done |]). by apply (start_started st0 inst0).
Qed.

End BeforeStart.

Section Calls.
Context {W : Type}.
Implicit Types (this : Middleware W) (st : State W) (player : Player).

Lemma execute_cases this player t args st :
  execute this player t args st = (Ok false, st)
  \/ execute this player t args st
     = try_middlewares this player args (recorded this (UserId player) t st).
Proof.
  destruct (log_of st this !! UserId player) as [entry|] eqn:Hlog.
  - destruct (Qlt_le_dec (t - lastUse entry) (clientSideCooldown this)).
    + left. by eapply execute_on_cooldown.
    + right. by eapply execute_after_cooldown.
  - right. by apply execute_first.
Qed.

(** X12. Cooldowns are per peer and per middleware. Whatever it answers,
    the entry [execute] writes for a peer is the only one it writes: the
    entry of every other peer in the log of the middleware is as it was,
    and so is the log of every other middleware. *)
Theorem execute_touches_one_entry this player (t : Q) args st :
  let st' := (execute this player t args st).2 in
  (forall playerId, playerId <> UserId player ->
     log_of st' this !! playerId = log_of st this !! playerId)
  /\ (forall other : Middleware W, mw_id other <> mw_id this ->
        log_of st' other = log_of st other).
Proof.
  simpl. split.
  - intros playerId Hne.
    destruct (execute_cases this player t args st) as [-> | ->]; [done |].
    unfold log_of at 1. rewrite try_middlewares_logs.
    fold (log_of (recorded this (UserId player) t st) this).
    rewrite log_of_recorded. by rewrite lookup_insert_ne.
  - intros other Hne.
    destruct (execute_cases this player t args st) as [-> | ->]; [done |].
    unfold log_of at 1. rewrite try_middlewares_logs.
    unfold recorded, log_of. simpl. by rewrite lookup_insert_ne.
Qed.

Lemma run_middlewares_app (cbs1 cbs2 : list (Callback W)) player args (w w1 : W) :
  run_middlewares cbs1 player args w = (None, w1) ->
  run_middlewares (cbs1 ++ cbs2) player args w = run_middlewares cbs2 player args w1.
Proof.
  revert w. induction cbs1 as [| cb cbs1 IH]; intros w; simpl.
  - by intros [= ->].
  - destruct (cb player args w) as [[v | err] w']; [apply IH | done].
Qed.

(** X13. The callbacks of a middleware run in order and the first one that
    raises ends the run. When the cooldown check passes (the peer has no
    entry yet, or its entry is at least the cooldown old) and the callback
    [bad] raises after the callbacks [before] have returned, [execute]
    answers false with one warning carrying what was raised; the callbacks
    [after] are not run, and what [before] and [bad] did to the world stays
    (nothing is rolled back), as does the new last use of the peer. *)
Theorem callbacks_stop_at_first_raise this player (t : Q) args st
    (before after : list (Callback W)) (bad : Callback W) err (w1 w2 : W) :
  middlewares this = before ++ bad :: after ->
  (log_of st this !! UserId player = None
   \/ exists entry, log_of st this !! UserId player = Some entry
                    /\ clientSideCooldown this <= t - lastUse entry) ->
  run_middlewares before player args (world st) = (None, w1) ->
  bad player args w1 = (Raises err, w2) ->
  execute this player t args st
  = (Ok false,
     with_output (output st ++ [Warn "Middleware: Error in middleware" (Some err)])
       (with_world w2 (recorded this (UserId player) t st))).
Proof.
  intros Hcbs Hpass Hbefore Hbad.
  assert (execute this player t args st
          = try_middlewares this player args (recorded this (UserId player) t st))
    as ->.
  { destruct Hpass as [Hnone | (entry & Hsome & Hle)].
    - by apply execute_first.
    - by eapply execute_after_cooldown. }
  rewrite try_middlewares_spec. unfold callbacks_outcome. rewrite Hcbs.
  cbn [recorded world with_mw_logs].
  rewrite (run_middlewares_app _ _ _ _ _ _ Hbefore). simpl. rewrite Hbad.
  reflexivity.
Qed.

End Calls.

Section Listeners.
Context {W : Type}.
Implicit Types (st : State W) (inst : Network W) (player : Player).

(** A successful [OnInvoke]: the route it found and the state it leaves. *)
Lemma OnInvoke_ok st eventType p callback st' :
  OnInvoke eventType p callback st = (Ok tt, st') ->
  exists inst route st1 inst1,
    instance st = Some inst
    /\ getRoute p st = (Ok route, st1)
    /\ instance st1 = Some inst1
    /\ remoteType route = RFunction
    /\ connections st1 !! remote route = None
    /\ st' = with_connections
               (<[remote route :=
                    made_connection eventType InvokeListener route
                      (UserHandler callback)]> (connections st1)) st1.
Proof.
  destruct (instance st) as [inst|] eqn:Hinst.
  2: { unfold OnInvoke, OnInvoke_, bind, get. simpl. by rewrite Hinst. }
  rewrite (OnInvoke_started _ _ _ _ _ Hinst).
  destruct (getRoute p st) as [[route | err] st1] eqn:Hget; [| done].
  destruct (getRoute_ok _ _ _ _ _ Hinst Hget) as (_ & _ & _ & _ & inst1 & Hinst1 & _).
  case_bool_decide as Hkind; [| done]. cbn.
  destruct (connections st1 !! remote route) eqn:Hconn; [done |].
  intros [= <-]. by exists inst, route, st1, inst1.
Qed.

Lemma listener_passed (c : Connection W) player args (now : Q) st st1 :
  middleware_passes (conn_route c) player args now st st1 ->
  listener c player args now st
  = match call_handler (conn_callback c) player args st1 with
    | (Ok result, st2) =>
        match conn_kind c with
        | EventListener => (Ok tt, st2)
        | InvokeListener =>
            FireClient_remote (remote (conn_route c)) player [result] st2
        end
    | (Throw err, st2) => (Throw err, st2)
    end.
Proof.
  unfold middleware_passes, listener, bind.
  destruct (middleware (conn_route c)) as [mw|].
  - intros ->. cbn. destruct (call_handler _ _ _ _) as [[result | err] st2]; [| done].
    by destruct (conn_kind c).
  - intros ->. unfold ret at 1. cbn.
    destruct (call_handler _ _ _ _) as [[result | err] st2]; [| done].
    by destruct (conn_kind c).
Qed.

Lemma FireClient_remote_spec (r : RemoteId) player args st :
  is_remote st r ->
  FireClient_remote r player args st
  = (Ok tt, with_fired (fired st ++ [(r, player, args)]) st).
Proof.
  intros Hr. unfold FireClient_remote, bind, get, modify. cbn.
  by destruct Hr as [-> | ->].
Qed.

(** A message on the remote of a live connection runs its listener. *)
Lemma fire_on_arrival (no_listener : M W unit) (c : Connection W) player args
    (now : Q) st :
  connections st !! remote (conn_route c) = Some c ->
  conn_connected c = true ->
  OnServerEvent_fire no_listener (remote (conn_route c)) player args now st
  = listener c player args now (on_arrival c st).
Proof.
  intros Hc Hon. unfold OnServerEvent_fire, on_arrival, bind, get, modify. simpl.
  rewrite Hc, Hon. destruct (conn_eventType c) eqn:Hkind; unfold ret, spent; simpl;
    by rewrite ?Hkind.
Qed.

(** X14. The listener of [OnInvoke] answers the caller. After [OnInvoke]
    has connected [callback] on a path, with whichever kind of connection
    (a connection of kind Once being used up by the message), a message of
    a peer on the remote of that route which the middleware lets through
    runs the callback: when it returns, the listener sends its result to
    that peer on that same remote, as the next message after whatever the
    callback did; when it raises, the listener sends no reply and the error
    leaves it. *)
Theorem OnInvoke_replies (no_listener : M W unit) st eventType p callback st' :
  OnInvoke eventType p callback st = (Ok tt, st') ->
  exists route,
    getRoute p st' = (Ok route, st')
    /\ forall player args (now : Q) st1 res st2,
         let c := made_connection eventType InvokeListener route
                    (UserHandler callback) in
         middleware_passes route player args now (on_arrival c st') st1 ->
         call_handler (UserHandler callback) player args st1 = (res, st2) ->
         is_remote st2 (remote route) ->
         OnServerEvent_fire no_listener (remote route) player args now st'
         = match res with
           | Ok v =>
               (Ok tt,
                with_fired (fired st2 ++ [(remote route, player, [v])]) st2)
           | Throw err => (Throw err, st2)
           end.
Proof.
  intros Hon.
  destruct (OnInvoke_ok _ _ _ _ _ Hon)
    as (inst & route & st1 & inst1 & Hinst & Hget & Hinst1 & Hkind & Hfree & ->).
  set (conn := made_connection eventType InvokeListener route (UserHandler callback)).
  set (st' := with_connections (<[remote route := conn]> (connections st1)) st1).
  exists route. split.
  - by eapply (getRoute_stable st p route st1 inst1 st' inst1).
  - intros player args now st2 res st3. cbv zeta. fold conn. intros Hpass Hcall Hr.
    assert (OnServerEvent_fire no_listener (remote route) player args now st'
            = listener conn player args now (on_arrival conn st')) as ->
      by (apply (fire_on_arrival no_listener conn); [apply lookup_insert_eq | done]).
    rewrite (listener_passed conn player args now _ st2 Hpass).
    change (conn_callback conn) with (UserHandler callback). rewrite Hcall.
    destruct res as [v | err]; [| done].
    change (conn_kind conn) with InvokeListener. cbv iota.
    by rewrite FireClient_remote_spec.
Qed.

Lemma clear_log_others player (route : Route W) (mw : Middleware W) logs playerId :
  playerId <> UserId player ->
  default ∅ (clear_log player route logs !! mw_id mw) !! playerId
  = default ∅ (logs !! mw_id mw) !! playerId.
Proof.
  intros Hne. unfold clear_log.
  destruct (middleware route) as [mw'|]; [| done].
  destruct (decide (mw_id mw' = mw_id mw)) as [Heq | Hid].
  - rewrite Heq, lookup_insert_eq. simpl. by rewrite lookup_delete_ne.
  - by rewrite lookup_insert_ne.
Qed.

(** X16. The session-end cleanup removes the entries of the peer that
    leaves, and only those. On a started registry, when [PlayerRemoving]
    fires for a peer: in the log of the middleware of every route that
    [getRoute] has cached, the entry of that peer is gone; the entry of
    every other peer, in every log, is as before; the registry, its
    listeners and the world are untouched. *)
Theorem PlayerRemoving_clears_the_leaver st inst player :
  instance st = Some inst ->
  playerRemoving_connected st = true ->
  let st' := (PlayerRemoving_fire player st).2 in
  (forall k route mw,
     record inst !! k = Some route -> middleware route = Some mw ->
     log_of st' mw !! UserId player = None)
  /\ (forall (mw : Middleware W) playerId,
        playerId <> UserId player ->
        log_of st' mw !! playerId = log_of st mw !! playerId)
  /\ instance st' = instance st /\ connections st' = connections st
  /\ world st' = world st.
Proof.
  intros Hinst Hconn. cbv zeta. split.
  { intros k route mw Hrec Hmw. by eapply PlayerRemoving_clears_record. }
  unfold PlayerRemoving_fire, bind, get, modify. cbn. rewrite Hconn, Hinst. cbn.
  split; [| done]. intros mw playerId Hne. unfold log_of. cbn.
  unfold clear_logs_of_record.
  induction (map_to_list (record inst)) as [| [k r] rest IH]; [done |].
  cbn. by rewrite clear_log_others.
Qed.

End Listeners.

(** ** The properties at work on concrete registries *)

(** After NewRoute("root", chat) the path root/chat leads to the new route. *)
Lemma NewRoute_then_traversePath_witness :
  exists loc r,
    traversePath "root/chat" false (run (NewRoute "root" (plain_route "chat")) started)
    = (Ok (loc, mkTreeNode (made_route "root" (plain_route "chat") r) []),
       run (NewRoute "root" (plain_route "chat")) started).
Proof.
  eassert (Hinst : instance started = Some _) by (vm_compute; reflexivity).
  eassert (Hnew : NewRoute "root" (plain_route "chat") started
                  = (Ok tt, run (NewRoute "root" (plain_route "chat")) started))
    by (vm_compute; reflexivity).
  exact (NewRoute_then_traversePath started _ "root" (plain_route "chat") _
           Hinst eq_refl Hnew).
Defined.

(** A second route named chat under root is refused. *)
Lemma NewRoute_duplicate_witness :
  NewRoute "root" sum_route (run (NewRoute "root" sum_route) started)
  = (Throw (VStr "Route 'sum' already exists at 'root'"),
     run (NewRoute "root" sum_route) started).
Proof.
  eassert (Hinst : instance started = Some _) by (vm_compute; reflexivity).
  eassert (Hnew : NewRoute "root" sum_route started
                  = (Ok tt, run (NewRoute "root" sum_route) started))
    by (vm_compute; reflexivity).
  exact (NewRoute_duplicate started _ "root" sum_route sum_route _
           Hinst Hnew eq_refl).
Defined.

(** Adding root/a/c keeps root/a/b where it was. *)
Lemma NewRoute_keeps_routes_witness :
  exists n',
    traversePath "root/a/b" false (run (NewRoute "root/a" (plain_route "c")) with_a_b)
    = (Ok (["a"; "b"]%string, n'), run (NewRoute "root/a" (plain_route "c")) with_a_b).
Proof.
  eassert (Hinst : instance with_a_b = Some _) by (vm_compute; reflexivity).
  eassert (Hnew : NewRoute "root/a" (plain_route "c") with_a_b
                  = (Ok tt, run (NewRoute "root/a" (plain_route "c")) with_a_b))
    by (vm_compute; reflexivity).
  eassert (Hbefore : traversePath "root/a/b" false with_a_b
                     = (Ok (["a"; "b"]%string, _), with_a_b))
    by (vm_compute; reflexivity).
  destruct (NewRoute_keeps_routes with_a_b _ "root/a" (plain_route "c") _ Hinst Hnew)
    as (inst' & _ & _ & _ & _ & Hpaths).
  destruct (Hpaths "root/a/b"%string _ _ Hbefore) as (n' & Hafter & _).
  exists n'. exact Hafter.
Defined.

(** NewRoute("root/x/y", z) on a started registry makes the node x, with
    the default route. *)
Lemma NewRoute_creates_ancestors_witness :
  exists inst' n,
    instance (run (NewRoute "root/x/y" (plain_route "z")) started) = Some inst'
    /\ node_at ["x"%string] (tree inst') = Some n
    /\ is_default (value n) "x".
Proof.
  eassert (Hinst : instance started = Some _) by (vm_compute; reflexivity).
  eassert (Hnew : NewRoute "root/x/y" (plain_route "z") started
                  = (Ok tt, run (NewRoute "root/x/y" (plain_route "z")) started))
    by (vm_compute; reflexivity).
  destruct (NewRoute_creates_ancestors started _ "root/x/y" (plain_route "z") _
              Hinst Hnew) as (inst' & loc & Hinst' & Hsplit & Hnodes).
  vm_compute in Hsplit. injection Hsplit as <-.
  destruct (Hnodes [] "x"%string ["y"%string] eq_refl) as (n & Hat & Hdef).
  exists inst', n. split; [exact Hinst' |]. split; [exact Hat |].
  apply Hdef. vm_compute. reflexivity.
Defined.

(** A path that does not begin at root. *)
Lemma invalid_path_rejected_witness :
  NewRoute "shop/items" (plain_route "a") started = (Throw (VStr invalid_path), started).
Proof.
  eassert (Hinst : instance started = Some _) by (vm_compute; reflexivity).
  destruct (invalid_path_rejected started _ "shop/items" Hinst) as (_ & Hnew & _).
  - vm_compute. discriminate.
  - apply Hnew.
Defined.

(** Editing a route that is not there only warns. *)
Lemma EditRoute_missing_witness :
  EditRoute "root" (plain_route "nothing") started
  = (Ok tt,
     with_output
       (output started ++ [Warn "Route 'nothing' does not exist at 'root'" None])
       started).
Proof.
  eassert (Hinst : instance started = Some _) by (vm_compute; reflexivity).
  destruct (EditRoute_missing started _ "root" (plain_route "nothing") [] Hinst eq_refl)
    as [_ Hwarn].
  eapply Hwarn; [reflexivity | vm_compute; reflexivity].
Defined.

(** The route cached for root/a is still answered after root/a is edited. *)
Lemma getRoute_cached_witness :
  exists r st1,
    getRoute "root/a" with_a_b = (Ok r, st1)
    /\ getRoute "root/a" (EditRoute "root" (plain_route "a") st1).2
       = (Ok r, (EditRoute "root" (plain_route "a") st1).2).
Proof.
  eassert (Hget : getRoute "root/a" with_a_b = (Ok _, _)) by (vm_compute; reflexivity).
  destruct (getRoute_cached with_a_b "root/a" _ _ Hget) as [_ Hedit].
  eexists _, _. split; [exact Hget |]. apply Hedit.
Defined.

(** A second listener on root/a is refused. *)
Lemma OnEvent_one_listener_witness :
  OnEvent Once "root/a" (note 2) (run (OnEvent Connect "root/a" (note 1)) with_a_b)
  = (Throw (VStr "Route 'root/a' is already connected"),
     run (OnEvent Connect "root/a" (note 1)) with_a_b).
Proof.
  eassert (Hon : OnEvent Connect "root/a" (note 1) with_a_b
                 = (Ok tt, run (OnEvent Connect "root/a" (note 1)) with_a_b))
    by (vm_compute; reflexivity).
  destruct (OnEvent_one_listener with_a_b Connect "root/a" (note 1) _ Hon) as [Hagain _].
  apply Hagain.
Defined.

(** The route get-tree is a function: OnEvent on it is refused. *)
Lemma route_kind_checked_witness :
  exists st1,
    OnEvent Connect "root/network/get-tree" (note 1) started
    = (Throw (VStr "Route 'root/network/get-tree' is not a event"), st1).
Proof.
  eassert (Hget : getRoute "root/network/get-tree" started = (Ok _, _))
    by (vm_compute; reflexivity).
  destruct (route_kind_checked started "root/network/get-tree" _ _ Hget)
    as (_ & _ & Hfun & _).
  destruct (Hfun eq_refl) as (Hon & _).
  eexists. apply Hon.
Defined.

(** Of the two listed players only the one in the session gets the message. *)
Lemma FireClientsInList_sends_witness :
  exists r st1,
    FireClientsInList [peer] "root/a" [other; peer] [VNum 1] with_a_b
    = (Ok tt, with_fired (fired st1 ++ [(r, peer, [VNum 1])]) st1).
Proof.
  eassert (Hget : getRoute "root/a" with_a_b = (Ok _, _)) by (vm_compute; reflexivity).
  destruct (FireClientsInList_sends with_a_b "root/a" _ _ [peer] [other; peer]
              [VNum 1] Hget eq_refl) as [Hsend _].
  - left. vm_compute. reflexivity.
  - eexists _, _. exact Hsend.
Defined.

(** [start] on the registry as the module leaves it. *)
Lemma start_installs_witness :
  exists st0 r,
    start fresh = (Ok tt, st0)
    /\ getRoute "root/network/get-tree" st0 = (Ok r, st0)
    /\ connections st0
       = {[ remote r := made_connection Connect InvokeListener r GetTreeHandler ]}
    /\ start st0 = (Ok tt, st0).
Proof.
  destruct (start_installs fresh eq_refl eq_refl)
    as (st0 & inst0 & r & Hstart & _ & _ & _ & _ & _ & _ & Hget & _ & _ & Hconn & Hagain).
  exists st0, r. split; [exact Hstart |]. split; [exact Hget |].
  split; [exact Hconn | exact Hagain].
Defined.

(** The entry of [other], written at 1, is the same after a call of [peer]
    at 7, which writes its own. *)
Lemma execute_touches_one_entry_witness :
  log_of used_by_other five_seconds !! UserId other = Some {| lastUse := 1 |}
  /\ log_of (execute five_seconds peer 7 [] used_by_other).2 five_seconds
       !! UserId other
     = Some {| lastUse := 1 |}
  /\ log_of (execute five_seconds peer 7 [] used_by_other).2 five_seconds
       !! UserId peer
     = Some {| lastUse := 7 |}.
Proof.
  destruct (execute_touches_one_entry five_seconds peer 7 [] used_by_other)
    as [Hothers _].
  split; [vm_compute; reflexivity |]. split; [| vm_compute; reflexivity].
  rewrite Hothers; [vm_compute; reflexivity | vm_compute; discriminate].
Defined.

(** The peer refused at 0 comes back at 6, when its cooldown of 5 is over:
    of the callbacks note 1, refuse 2, note 3 the third does not run. *)
Lemma callbacks_stop_at_first_raise_witness :
  log_of refused_once strict !! UserId peer = Some {| lastUse := 0 |}
  /\ world refused_once = [1%nat; 2%nat]
  /\ execute strict peer 6 [] refused_once
     = (Ok false,
        with_output
          (output refused_once
           ++ [Warn "Middleware: Error in middleware" (Some (VStr "string!!!"))])
          (with_world [1%nat; 2%nat; 1%nat; 2%nat]
             (recorded strict (UserId peer) 6 refused_once))).
Proof.
  split; [vm_compute; reflexivity |]. split; [vm_compute; reflexivity |].
  apply (callbacks_stop_at_first_raise strict peer 6 [] refused_once
           [note 1] [note 3] (refuse 2) (VStr "string!!!")
           [1%nat; 2%nat; 1%nat] [1%nat; 2%nat; 1%nat; 2%nat]).
  - reflexivity.
  - right. exists {| lastUse := 0 |}.
    split; [vm_compute; reflexivity | unfold Qle; simpl; lia].
  - vm_compute. reflexivity.
  - vm_compute. reflexivity.
Defined.

(** The handler of root/sum, connected with Once, answers 105: that is the
    message the caller gets. *)
Lemma OnInvoke_replies_witness :
  let st' := run (OnInvoke Once "root/sum" answer) with_sum_chat in
  exists route,
    getRoute "root/sum" st' = (Ok route, st')
    /\ let arrived :=
         OnServerEvent_fire (throw "no listener") (remote route) peer
           [VNum 5; VNum 100] 0 st' in
       arrived.1 = Ok tt
       /\ fired arrived.2 = [(remote route, peer, [VNum 105])].
Proof.
  cbv zeta.
  eassert (Hon : OnInvoke Once "root/sum" answer with_sum_chat
                 = (Ok tt, run (OnInvoke Once "root/sum" answer) with_sum_chat))
    by (vm_compute; reflexivity).
  destruct (OnInvoke_replies (throw "no listener") with_sum_chat Once "root/sum"
              answer _ Hon) as (route & Hget & Hreply).
  exists route. split; [exact Hget |].
  set (st' := run (OnInvoke Once "root/sum" answer) with_sum_chat) in *.
  assert (Hr : (getRoute "root/sum" st').1 = Ok route) by (by rewrite Hget).
  vm_compute in Hr. injection Hr as <-.
  match type of Hreply with
  | forall player args now st1 res st2, let c := ?conn in _ =>
      set (st1 := on_arrival conn st')
  end.
  eassert (Hcall : call_handler (UserHandler answer) peer [VNum 5; VNum 100] st1
                   = (Ok (VNum 105), _)) by (vm_compute; reflexivity).
  rewrite (Hreply peer [VNum 5; VNum 100] 0 st1 _ _ eq_refl Hcall);
    [| left; vm_compute; reflexivity].
  split; [reflexivity | vm_compute; reflexivity].
Defined.

(** The route get-tree has been used by [peer] at 0 and by [other] at 1:
    when [peer] leaves, its entry goes and the entry of [other] stays. *)
Lemma PlayerRemoving_clears_the_leaver_witness :
  log_of used_by_two get_tree_guard !! UserId peer = Some {| lastUse := 0 |}
  /\ log_of (PlayerRemoving_fire peer used_by_two).2 get_tree_guard !! UserId peer
     = None
  /\ log_of (PlayerRemoving_fire peer used_by_two).2 get_tree_guard !! UserId other
     = Some {| lastUse := 1 |}.
Proof.
  eassert (Hinst : instance used_by_two = Some _) by (vm_compute; reflexivity).
  destruct (PlayerRemoving_clears_the_leaver used_by_two _ peer Hinst)
    as (Hgone & Hothers & _); [vm_compute; reflexivity |].
  split; [vm_compute; reflexivity |]. split.
  - eapply (Hgone "root/network/get-tree"%string _ get_tree_guard);
      [vm_compute; reflexivity | reflexivity].
  - rewrite Hothers; [vm_compute; reflexivity | vm_compute; discriminate].
Defined.

End ServerMore.

(** * Further properties of the peer registry *)

Module ClientMore.
Import ClientNetwork ClientSpec.

Section Peer.
Context {Callback : Type}.
Implicit Types (st : State Callback) (env : Env) (result : Value).

Lemma poll_reply env (startTime waitTime : Q) c v :
  is_undefined v = false ->
  forall k fuel st,
    (k < fuel)%nat ->
    is_Some (listeners st !! c) ->
    replies_at env (ticks st) k v ->
    still_waiting env (ticks st) k (clock st - startTime) waitTime ->
    exists st',
      poll fuel env startTime waitTime c VUndefined st = (Done v, st')
      /\ clock st' == clock st + waited env (ticks st) (S k)
      /\ instance st' = instance st
      /\ sent st' = sent st
      /\ remote_class st' = remote_class st
      /\ listeners st' = delete c (listeners st).
Proof.
  intros Hv. induction k as [| k IH]; intros fuel st Hfuel [l Hl] [Hnone Hsome] Hwait.
  - destruct fuel as [| fuel]; [lia |]. rewrite poll_unfold.
    assert (Qlt_bool (clock st - startTime) waitTime = true) as ->.
    { apply Qlt_bool_true. specialize (Hwait 0%nat (Nat.le_refl _)). simpl in Hwait. lra. }
    cbn [andb is_undefined]. rewrite Nat.add_0_r in Hsome.
    unfold wait_value, wait_state. rewrite Hsome, Hl.
    rewrite poll_unfold. rewrite Hv, andb_false_r.
    eexists. split; [reflexivity |]. simpl. repeat split; try reflexivity. lra.
  - destruct fuel as [| fuel]; [lia |]. rewrite poll_unfold.
    assert (Qlt_bool (clock st - startTime) waitTime = true) as ->.
    { apply Qlt_bool_true. specialize (Hwait 0%nat (Nat.le_0_l _)). simpl in Hwait. lra. }
    cbn [andb is_undefined].
    pose proof (Hnone 0%nat (Nat.lt_0_succ _)) as H0. rewrite Nat.add_0_r in H0.
    unfold wait_value, wait_state. rewrite H0.
    set (st1 := with_time (clock st + elapsed (env (ticks st))) (S (ticks st)) st).
    destruct (IH fuel st1) as (st' & Hpoll & Hclock & Hi & Hs & Hr & Hls).
    + lia.
    + by exists l.
    + split.
      * intros i Hi. simpl. rewrite <- Nat.add_succ_r. apply Hnone. lia.
      * simpl. by rewrite <- Nat.add_succ_r.
    + intros i Hi. specialize (Hwait (S i) ltac:(lia)). simpl in *. lra.
    + exists st'. split; [exact Hpoll |]. simpl in *.
      repeat split; try done. rewrite Hclock. lra.
Qed.


Lemma requested_fields route routeInfo args st :
  let st1 := requested route routeInfo args st in
  ticks st1 = ticks st
  /\ sent st1 = sent st ++ request (sri_remote routeInfo) args st
  /\ remote_class st1 = remote_class st
  /\ listeners st1 !! next_conn st
     = Some {| cl_remote := sri_remote routeInfo; cl_eventType := Once;
               cl_target := ToResult |}
  /\ instance st1
     = (fun i => with_log (<[route := {| lastFireServer := clock st |}]> (log i)) i)
         <$> instance st.
Proof.
  cbv zeta. unfold requested, request, FireServer_remote, write_log, modify_instance,
    modify, bind, get. simpl.
  destruct (remote_class st !! sri_remote routeInfo) as [[]|]; simpl;
    rewrite ?app_nil_r, ?lookup_insert_eq; done.
Qed.

(** X17. [InvokeServer] returns the reply as soon as it is there. On a call
    that passes the checks made before sending, when nothing arrives during
    the first [k] waits, a reply with a value arrives during the next, and
    the waiting time is not over before that wait begins: the call returns
    that reply, after just these [k + 1] waits; the request has been sent
    once, the time of the call is logged as the last use of the route, the
    one-shot listener is gone and the other listeners are as before. *)
Theorem InvokeServer_returns_reply env route (waitTime : Q) args st inst routeInfo
    (k fuel : nat) v :
  ready st inst route routeInfo ->
  is_undefined v = false ->
  replies_at env (ticks st) k v ->
  still_waiting env (ticks st) k 0 waitTime ->
  (k < fuel)%nat ->
  exists st',
    InvokeServer fuel env route waitTime args st = (Done v, st')
    /\ clock st' == clock st + waited env (ticks st) (S k)
    /\ sent st' = sent st ++ request (sri_remote routeInfo) args st
    /\ instance st'
       = Some (with_log (<[route := {| lastFireServer := clock st |}]> (log inst)) inst)
    /\ listeners st' !! next_conn st = None
    /\ (forall c', c' <> next_conn st -> listeners st' !! c' = listeners st !! c').
Proof.
  intros Hready Hv Hrep Hwait Hfuel.
  rewrite (InvokeServer_ready _ _ _ _ _ _ _ _ Hready).
  destruct Hready as (Hinst & _).
  destruct (requested_frame route routeInfo args st) as (Hclock & _ & Hl).
  destruct (requested_fields route routeInfo args st) as (Hticks & Hsent & Hrc & Hc & Hi).
  destruct (poll_reply env (clock st) waitTime (next_conn st) v Hv k fuel
              (requested route routeInfo args st))
    as (st' & Hpoll & Hclock' & Hi' & Hs' & _ & Hl'); [done | by eexists | | |].
  { by rewrite Hticks. }
  { rewrite Hticks, Hclock. intros i Hi0. specialize (Hwait i Hi0). lra. }
  rewrite Hpoll. exists (detach (next_conn st) st').
  split; [reflexivity |]. simpl.
  split; [by rewrite Hclock', Hclock, Hticks |].
  split; [by rewrite Hs' |].
  split; [by rewrite Hi', Hi, Hinst |].
  split; [apply lookup_delete_eq |].
  intros c' Hne. rewrite Hl', !lookup_delete_ne by done. by apply Hl.
Qed.

(** The polling loop changes neither the instance nor what was sent. *)
Lemma poll_frame env (startTime waitTime : Q) c : forall fuel result st,
  instance (poll fuel env startTime waitTime c result st).2 = instance st
  /\ sent (poll fuel env startTime waitTime c result st).2 = sent st.
Proof.
  induction fuel as [| fuel IH]; intros result st; rewrite poll_unfold;
    destruct (Qlt_bool (clock st - startTime) waitTime && is_undefined result)%bool;
    try done.
  destruct (IH (wait_value env c result st) (wait_state env c st)) as [-> ->].
  by destruct (wait_state_frame env c st) as (? & ? & _).
Qed.

(** After a last use at [t], the route is on cooldown for [cd] seconds. *)
Lemma on_cooldown_logged (inst : Network) route routeInfo (cd t now : Q) :
  sri_cooldown routeInfo = Some cd -> 0 < cd ->
  on_cooldown (with_log (<[route := {| lastFireServer := t |}]> (log inst)) inst)
    route routeInfo now
  = Qlt_bool (now - t) cd.
Proof.
  intros Hcd Hpos. unfold on_cooldown, truthy. rewrite Hcd. simpl.
  rewrite lookup_insert_eq. simpl.
  destruct (Qeq_bool cd 0) eqn:E; [| done].
  apply Qeq_bool_iff in E. lra.
Qed.

(** X18. A request uses up the cooldown of its route, whatever comes back.
    When [InvokeServer] on a route with a cooldown has passed its checks and
    returned, be it a reply or the undefined of a timeout, the last use
    logged for the route is the time of the call, not of the return, and
    the request was sent once; a further call on that route made less than
    the cooldown after the first was made throws the cooldown error and
    changes nothing; one made later passes the checks again. *)
Theorem InvokeServer_uses_cooldown fuel env route (waitTime : Q) args st inst
    routeInfo (cd : Q) v st' :
  ready st inst route routeInfo ->
  sri_cooldown routeInfo = Some cd -> 0 < cd ->
  InvokeServer fuel env route waitTime args st = (Done v, st') ->
  let inst' := with_log (<[route := {| lastFireServer := clock st |}]> (log inst)) inst in
  instance st' = Some inst'
  /\ sent st' = sent st ++ request (sri_remote routeInfo) args st
  /\ (clock st' - clock st < cd ->
      forall fuel' env' (waitTime' : Q) args',
        InvokeServer fuel' env' route waitTime' args' st'
        = (Thrown (VStr (cooldown_message route)), st'))
  /\ (cd <= clock st' - clock st -> ready st' inst' route routeInfo).
Proof.
  intros Hready Hcd Hpos. rewrite (InvokeServer_ready _ _ _ _ _ _ _ _ Hready).
  destruct Hready as (Hinst & Hroute & Htype & Hcool).
  destruct (requested_fields route routeInfo args st) as (_ & Hsent & _ & _ & Hi).
  destruct (poll_frame env (clock st) waitTime (next_conn st) fuel VUndefined
              (requested route routeInfo args st)) as [Hi' Hs'].
  destruct (poll _ _ _ _ _ _ _) as [[v0 | err |] st1]; [| done | done].
  intros [= <- <-]. simpl in *. rewrite Hi, Hinst in Hi'. rewrite Hsent in Hs'.
  split; [done |]. split; [done |]. split.
  - intros Hlt fuel' env' waitTime' args'.
    unfold InvokeServer, getRoute, bind, get.
    repeat (cbn -[poll on_cooldown]; rewrite ?Hi', ?Hroute).
    rewrite (bool_decide_eq_true_2 _ Htype). cbn -[poll on_cooldown].
    rewrite (on_cooldown_logged inst route routeInfo cd _ _ Hcd Hpos).
    by rewrite (proj2 (Qlt_bool_true _ _) Hlt).
  - intros Hle. split; [done |]. split; [done |]. split; [done |].
    rewrite (on_cooldown_logged inst route routeInfo cd _ _ Hcd Hpos).
    by apply Qlt_bool_false.
Qed.


(** X19. [FireServer] and the cooldown of its route. On a started peer, for
    an event route with a cooldown that is not running: the call returns
    normally, sends the message once on the remote of the route and logs
    the time as the last use; as long as less than the cooldown has gone by
    since, a further [FireServer] on the route throws the cooldown error,
    sends nothing and leaves the last use as it is; once the cooldown has
    gone by it sends again. *)
Theorem FireServer_cooldown st inst route routeInfo args (cd : Q) :
  instance st = Some inst ->
  routingTable inst !! route = Some routeInfo ->
  sri_remoteType routeInfo = REvent ->
  sri_cooldown routeInfo = Some cd -> 0 < cd ->
  on_cooldown inst route routeInfo (clock st) = false ->
  let inst' := with_log (<[route := {| lastFireServer := clock st |}]> (log inst)) inst in
  let st' := with_instance (Some inst')
               (with_sent (sent st ++ request (sri_remote routeInfo) args st) st) in
  FireServer route args st = (Done tt, st')
  /\ forall st2 args',
       instance st2 = Some inst' ->
       (clock st2 - clock st < cd ->
        FireServer route args' st2 = (Thrown (VStr (cooldown_message route)), st2))
       /\ (cd <= clock st2 - clock st ->
           exists st3,
             FireServer route args' st2 = (Done tt, st3)
             /\ sent st3 = sent st2 ++ request (sri_remote routeInfo) args' st2).
Proof.
  intros Hinst Hroute Htype Hcd Hpos Hcool. cbv zeta. split.
  - unfold FireServer, getRoute, bind, get.
    repeat (cbn -[on_cooldown]; rewrite ?Hinst, ?Hroute).
    rewrite bool_decide_eq_false_2 by (by rewrite Htype). rewrite Hcool.
    unfold FireServer_remote, request, write_log, modify_instance, modify, bind, get.
    cbn. destruct (remote_class st !! sri_remote routeInfo) as [[]|]; cbn;
      rewrite Hinst, ?app_nil_r; reflexivity.
  - intros st2 args' Hinst2. split.
    + intros Hlt. unfold FireServer, getRoute, bind, get.
      repeat (cbn -[on_cooldown]; rewrite ?Hinst2, ?Hroute).
      rewrite bool_decide_eq_false_2 by (by rewrite Htype).
      rewrite (on_cooldown_logged inst route routeInfo cd _ _ Hcd Hpos).
      by rewrite (proj2 (Qlt_bool_true _ _) Hlt).
    + intros Hle. unfold FireServer, getRoute, bind, get.
      repeat (cbn -[on_cooldown]; rewrite ?Hinst2, ?Hroute).
      rewrite bool_decide_eq_false_2 by (by rewrite Htype).
      rewrite (on_cooldown_logged inst route routeInfo cd _ _ Hcd Hpos).
      rewrite (proj2 (Qlt_bool_false _ _) Hle).
      unfold FireServer_remote, request, write_log, modify_instance, modify, bind, get.
      cbn. destruct (remote_class st2 !! sri_remote routeInfo) as [[]|]; cbn;
        eexists; (split; [reflexivity |]); cbn; by rewrite ?app_nil_r.
Qed.

(** X20. One listener per route on the peer. After [OnEvent] has connected
    a callback on a route, the callback is attached to the remote of the
    route; a further [OnEvent] on that route throws the already-connected
    error and changes nothing; [Disconnect] detaches the callback and frees
    the route, so that [OnEvent] connects again, and a second [Disconnect]
    does nothing. *)
Theorem peer_one_listener st eventType route callback st' :
  OnEvent eventType route callback st = (Done tt, st') ->
  exists routeInfo,
    listeners st' !! next_conn st
    = Some {| cl_remote := sri_remote routeInfo; cl_eventType := eventType;
              cl_target := ToCallback callback |}
    /\ (forall eventType' callback',
          OnEvent eventType' route callback' st'
          = (Thrown (VStr ("Route " ++ route ++ " already connected")), st'))
    /\ exists st'',
         Disconnect route st' = (Done tt, st'')
         /\ listeners st'' !! next_conn st = None
         /\ Disconnect route st'' = (Done tt, st'')
         /\ forall eventType' callback',
              exists st3, OnEvent eventType' route callback' st'' = (Done tt, st3).
Proof.
  unfold OnEvent at 1. unfold getRoute, bind, get. cbn.
  destruct (instance st) as [inst|] eqn:Hinst; [| done]. cbn. rewrite Hinst. cbn.
  destruct (routingTable inst !! route) as [routeInfo|] eqn:Hroute; [| done]. cbn.
  case_bool_decide as Htype; [done |].
  destruct (connections inst !! route) eqn:Hconn; [done |].
  unfold attach, modify_instance, modify. cbn. rewrite Hinst. cbn.
  intros [= <-]. exists routeInfo.
  split; [cbn; apply lookup_insert_eq |]. split.
  - intros et cb. unfold OnEvent, getRoute, bind, get. cbn. rewrite Hroute. cbn.
    rewrite bool_decide_eq_false_2 by done. by rewrite lookup_insert_eq.
  - eexists. split.
    { unfold Disconnect, disconnect, modify_instance, modify, bind, get. cbn.
      rewrite lookup_insert_eq. reflexivity. }
    cbn. split; [apply lookup_delete_eq |]. split.
    { unfold Disconnect, bind, get. cbn. by rewrite lookup_delete_eq. }
    intros et cb. unfold OnEvent, getRoute, bind, get. cbn. rewrite Hroute. cbn.
    rewrite bool_decide_eq_false_2 by done. rewrite lookup_delete_eq.
    unfold attach, modify_instance, modify. cbn. eauto.
Qed.

(** X21. [start] installs the table the server sends. On a peer that is not
    started, when the reply to the get-tree request arrives with a value
    within five seconds: [start] returns normally and the registry holds
    the table of that reply (no route at all when the reply is not a
    table), with an empty log and no listener; the request was sent once on
    the init remote; a further [start] does nothing. *)
Theorem start_installs_table env (initRoute : RemoteId) st (k fuel : nat) v :
  instance st = None ->
  is_undefined v = false ->
  replies_at env (ticks st) k v ->
  still_waiting env (ticks st) k 0 5 ->
  (k < fuel)%nat ->
  exists st',
    start fuel env initRoute st = (Done tt, st')
    /\ instance st' = Some (new_Network (as_table v))
    /\ sent st' = sent st ++ request initRoute [] st
    /\ forall fuel' env' initRoute',
         start fuel' env' initRoute' st' = (Done tt, st').
Proof.
  intros Hinst Hv Hrep Hwait Hfuel.
  set (info := {| sri_remote := initRoute; sri_secure := true;
                  sri_remoteType := RFunction; sri_cooldown := Some 5 |}).
  set (partial := new_Network {[ "root/network/get-tree"%string := info ]}).
  set (st0 := with_instance (Some partial) st).
  assert (Hready : ready st0 partial "root/network/get-tree" info).
  { repeat split. }
  assert (exists st1,
            InvokeServer fuel env "root/network/get-tree" 5 [] st0 = (Done v, st1)
            /\ sent st1 = sent st ++ request initRoute [] st)
    as (st1 & Hcall & Hsent).
  { destruct Hready as (H1 & H2 & H3 & H4).
    rewrite (InvokeServer_ready fuel env _ 5 [] st0 partial info)
      by (by repeat split).
    destruct (requested_frame "root/network/get-tree" info [] st0) as (Hclock & _ & _).
    destruct (requested_fields "root/network/get-tree" info [] st0)
      as (Hticks & Hs & _ & Hc & _).
    destruct (poll_reply env (clock st0) 5 (next_conn st0) v Hv k fuel
                (requested "root/network/get-tree" info [] st0))
      as (st' & Hpoll & _ & _ & Hs' & _); [done | by eexists | | |].
    { by rewrite Hticks. }
    { rewrite Hticks, Hclock. intros i Hi0. specialize (Hwait i Hi0).
      change (clock st0) with (clock st). change (ticks st0) with (ticks st). lra. }
    rewrite Hpoll. eexists. split; [reflexivity |]. simpl. by rewrite Hs', Hs. }
  exists (with_instance (Some (new_Network (as_table v))) st1).
  split; [| split; [reflexivity | split; [done |]]].
  - unfold start, bind, get. cbn -[InvokeServer]. rewrite Hinst.
    cbn -[InvokeServer]. fold info. fold partial. fold st0. rewrite Hcall.
    by rewrite Hv.
  - intros fuel' env' r. reflexivity.
Qed.

End Peer.

(** ** The properties at work on a concrete peer *)

Lemma replies_at_replying (n : nat) v : replies_at (replying n v) 0 n v.
Proof.
  split.
  - intros i Hi. simpl. unfold replying. simpl.
    destruct (Nat.eqb_spec i n); [lia | reflexivity].
  - simpl. unfold replying. simpl. by rewrite Nat.eqb_refl.
Defined.

(** The reply 105 arrives during the third wait: the call returns it after
    three tenths of a second. *)
Lemma InvokeServer_returns_reply_witness :
  exists st',
    InvokeServer 3 (replying 2 (VNum 105)) "root/additions" 1 [VNum 5; VNum 100] booted
    = (Done (VNum 105), st')
    /\ clock st' == 3 # 10
    /\ sent st' = [(7%nat, [VNum 5; VNum 100])]
    /\ listeners st' !! 0%nat = None.
Proof.
  destruct (InvokeServer_returns_reply (replying 2 (VNum 105)) "root/additions" 1
              [VNum 5; VNum 100] booted table additions 2 3 (VNum 105)
              ready_booted eq_refl (replies_at_replying 2 (VNum 105)))
    as (st' & Hcall & Hclock & Hsent & _ & Hgone & _).
  - intros [| [| [| i]]] Hi; [reflexivity | reflexivity | reflexivity | lia].
  - lia.
  - exists st'. split; [exact Hcall |]. split; [rewrite Hclock; reflexivity |].
    split; [exact Hsent | exact Hgone].
Defined.

(** After a call that timed out at 0.2, the route root/additions, whose
    cooldown is one second, refuses the next call. *)
Lemma InvokeServer_uses_cooldown_witness :
  let first := InvokeServer 5 quiet "root/additions" (2 # 10) [] booted in
  first.1 = Done VUndefined
  /\ InvokeServer 5 quiet "root/additions" (2 # 10) [] first.2
     = (Thrown (VStr (cooldown_message "root/additions")), first.2).
Proof.
  cbv zeta.
  eassert (Hfirst : InvokeServer 5 quiet "root/additions" (2 # 10) [] booted
                    = (Done VUndefined, _)) by (vm_compute; reflexivity).
  destruct (InvokeServer_uses_cooldown 5 quiet "root/additions" (2 # 10) [] booted
              table additions 1 VUndefined _ ready_booted eq_refl eq_refl Hfirst)
    as (_ & _ & Hthrows & _).
  rewrite Hfirst. split; [reflexivity |]. apply Hthrows. vm_compute. reflexivity.
Defined.

(** On root/chat, with a cooldown of two seconds: the first message goes
    out, a second one at once is refused. *)
Lemma FireServer_cooldown_witness :
  exists st',
    FireServer "root/chat" [VStr "hello"] chatting = (Done tt, st')
    /\ sent st' = [(8%nat, [VStr "hello"])]
    /\ FireServer "root/chat" [VStr "again"] st'
       = (Thrown (VStr (cooldown_message "root/chat")), st').
Proof.
  destruct (FireServer_cooldown chatting _ "root/chat" chat [VStr "hello"] 2
              eq_refl eq_refl eq_refl eq_refl eq_refl eq_refl) as [Hfire Hnext].
  eexists. split; [exact Hfire |]. split; [reflexivity |].
  match goal with
  | |- FireServer _ _ ?s = _ =>
      destruct (Hnext s [VStr "again"] eq_refl) as [Hthrows _]
  end.
  apply Hthrows. vm_compute. reflexivity.
Defined.

(** A second listener on root/chat is refused until the first is removed. *)
Lemma peer_one_listener_witness :
  let st' := (OnEvent Connect "root/chat" tt chatting).2 in
  OnEvent Once "root/chat" tt st'
  = (Thrown (VStr "Route root/chat already connected"), st')
  /\ exists st'' st3,
       Disconnect "root/chat" st' = (Done tt, st'')
       /\ OnEvent Once "root/chat" tt st'' = (Done tt, st3).
Proof.
  cbv zeta.
  eassert (Hon : OnEvent Connect "root/chat" tt chatting = (Done tt, _))
    by (vm_compute; reflexivity).
  destruct (peer_one_listener chatting Connect "root/chat" tt _ Hon)
    as (routeInfo & _ & Hagain & st'' & Hoff & _ & _ & Hfree).
  rewrite Hon. split; [apply Hagain |].
  destruct (Hfree Once tt) as [st3 Hnew].
  exists st'', st3. split; [exact Hoff | exact Hnew].
Defined.

(** The table arrives during the first wait: the peer is started with it. *)
Lemma start_installs_table_witness :
  exists st',
    start 1 (replying 0 (VTable {[ "root/additions"%string := additions ]})) 0%nat
      unstarted
    = (Done tt, st')
    /\ instance st' = Some table
    /\ sent st' = [(0%nat, [])].
Proof.
  destruct (start_installs_table
              (replying 0 (VTable {[ "root/additions"%string := additions ]}))
              0%nat unstarted 0 1 (VTable {[ "root/additions"%string := additions ]})
              eq_refl eq_refl (replies_at_replying 0 _))
    as (st' & Hstart & Hinst & Hsent & _).
  - intros [| i] Hi; [reflexivity | lia].
  - lia.
  - exists st'. split; [exact Hstart |]. split; [exact Hinst | exact Hsent].
Defined.

End ClientMore.
